(** * verif.data: alignment of verification data from several inputs

    A shallow embedding of [verif/data.py] (class [Data]) and the
    properties of its index intersector, construction, field cache,
    window transform and score retrieval.

    Conventions of the embedding.
    - A Python call either returns a value or raises; [result] carries
      the exception.  [verif.util.error(msg)] prints and aborts the run:
      it is the exception [UtilError msg] (the specification calls it a
      ConfigurationError, or a FieldUnavailableError for a missing field).
    - numpy floats are [float]: not-a-number, the two infinities, or a
      finite value carried as an exact rational.  Rounding and the sign
      of zero are not represented; no statement below depends on them.
    - Times and location ids are integers; offsets (lead times) are
      finite, so they are rationals and not [float].
    - A three-dimensional numpy array is [nd3]: its shape and its items.
      Indices are natural numbers: Python's negative indices and the
      default [axis_index=None] are not represented.
    - The arrays held by the inputs and the per-input caches are mutable
      and live in [State]; everything [__init__] computes once lives in
      [Data]. *)

From Stdlib Require Import String.
From Stdlib Require Import ZArith QArith Qcanon Bool Arith Lia.
From Stdlib Require Import List Sorted Permutation.
Import ListNotations.

#[local] Close Scope Q_scope.
#[local] Close Scope Qc_scope.
#[local] Open Scope nat_scope.

Set Implicit Arguments.
Set Default Goal Selector "!".

(** ** Exceptions and results *)

Inductive exn : Type :=
| UtilError (msg : string)
| IndexError
| ValueError
| TypeError
| KeyError
| AxisError
| AssertionError
| NameError.

Inductive result (A : Type) : Type :=
| Ok (a : A)
| Err (e : exn).

Arguments Ok {A} a.
Arguments Err {A} e.

Definition bind {A B} (r : result A) (k : A -> result B) : result B :=
  match r with
  | Ok a => k a
  | Err e => Err e
  end.

Declare Scope py_scope.
Delimit Scope py_scope with py.
Notation "x <- r ;; k" := (bind r (fun x => k))
  (at level 61, r at next level, right associativity) : py_scope.
Notation "' p <- r ;; k" := (bind r (fun x => match x with p => k end))
  (at level 61, p pattern, r at next level, right associativity) : py_scope.
Open Scope py_scope.

Definition is_ConfigurationError (e : exn) : bool :=
  match e with
  | UtilError _ => true
  | _ => false
  end.

(** [seq[i]] for a non-negative index. *)
Definition getitem {A} (l : list A) (i : nat) : result A :=
  match nth_error l i with
  | Some a => Ok a
  | None => Err IndexError
  end.

(** A loop that builds a list and stops at the first exception. *)
Fixpoint mapM {A B} (f : A -> result B) (l : list A) : result (list B) :=
  match l with
  | [] => Ok []
  | a :: l' => b <- f a ;; bs <- mapM f l' ;; Ok (b :: bs)
  end.

(** ** Floats *)

Inductive float : Type :=
| NaN
| Inf (negative : bool)
| Fin (q : Qc).

(** An integer, and a ratio of integers, as a float. *)
Definition of_int (z : Z) : float := Fin (Q2Qc (inject_Z z)).
Definition of_ratio (n : Z) (d : positive) : float := Fin (Q2Qc (Qmake n d)).

Definition isnan (x : float) : bool :=
  match x with
  | NaN => true
  | _ => false
  end.

Definition isinf (x : float) : bool :=
  match x with
  | Inf _ => true
  | _ => false
  end.

Definition Qc_leb (x y : Qc) : bool := Qle_bool x y.
Definition Qc_eqb (x y : Qc) : bool := Qeq_bool x y.
Definition Qc_ltb (x y : Qc) : bool := negb (Qc_leb y x).

Definition fneg (x : float) : float :=
  match x with
  | NaN => NaN
  | Inf s => Inf (negb s)
  | Fin q => Fin (- q)%Qc
  end.

Definition fadd (x y : float) : float :=
  match x, y with
  | NaN, _ | _, NaN => NaN
  | Inf s, Inf s' => if Bool.eqb s s' then Inf s else NaN
  | Inf s, Fin _ | Fin _, Inf s => Inf s
  | Fin a, Fin b => Fin (a + b)%Qc
  end.

Definition fsub (x y : float) : float := fadd x (fneg y).

(** numpy's true division: a zero divisor gives an infinity or
    not-a-number (with a warning), never an exception. *)
Definition fdiv (x y : float) : float :=
  match x, y with
  | NaN, _ | _, NaN => NaN
  | Inf _, Inf _ => NaN
  | Inf s, Fin b => Inf (xorb s (Qc_ltb b 0%Qc))
  | Fin _, Inf _ => Fin 0%Qc
  | Fin a, Fin b =>
      if Qc_eqb b 0%Qc then
        if Qc_eqb a 0%Qc then NaN else Inf (Qc_ltb a 0%Qc)
      else Fin (a / b)%Qc
  end.

(** [x <= y]; every comparison with not-a-number is false. *)
Definition fle (x y : float) : bool :=
  match x, y with
  | NaN, _ | _, NaN => false
  | Inf true, _ => true
  | _, Inf false => true
  | Inf false, _ => false
  | _, Inf true => false
  | Fin a, Fin b => Qc_leb a b
  end.

Definition flt (x y : float) : bool :=
  match x, y with
  | NaN, _ | _, NaN => false
  | _ , _ => negb (fle y x)
  end.

(** ** Fields and axes ([verif.field], [verif.axis]) *)

(** Modelled from the spec: [verif.field] is not part of this file.  A
    field is a tag with its payload, equal when both are equal. *)
Inductive Field : Type :=
| Obs
| Fcst
| Ensemble (member : nat)
| Threshold (threshold : Qc)
| Quantile (quantile : Qc)
| ObsWindow
| FcstWindow.

Definition field_eqb (f g : Field) : bool :=
  match f, g with
  | Obs, Obs | Fcst, Fcst | ObsWindow, ObsWindow | FcstWindow, FcstWindow => true
  | Ensemble m, Ensemble m' => Nat.eqb m m'
  | Threshold t, Threshold t' => Qc_eqb t t'
  | Quantile q, Quantile q' => Qc_eqb q q'
  | _, _ => false
  end.

(** Modelled from the spec: [verif.axis] is not part of this file.  Axes
    are marker objects compared by class; [is_location_like] is the flag
    the class carries. *)
Inductive Axis : Type :=
| AxisTime
| AxisOffset
| AxisMonth
| AxisYear
| AxisLocation
| AxisLocationId
| AxisElev
| AxisLat
| AxisLon
| AxisThreshold
| AxisQuantile
| AxisNo
| AxisAll.

Definition axis_eqb (a b : Axis) : bool :=
  match a, b with
  | AxisTime, AxisTime | AxisOffset, AxisOffset | AxisMonth, AxisMonth
  | AxisYear, AxisYear | AxisLocation, AxisLocation
  | AxisLocationId, AxisLocationId | AxisElev, AxisElev | AxisLat, AxisLat
  | AxisLon, AxisLon | AxisThreshold, AxisThreshold
  | AxisQuantile, AxisQuantile | AxisNo, AxisNo | AxisAll, AxisAll => true
  | _, _ => false
  end.

Definition is_location_like (a : Axis) : bool :=
  match a with
  | AxisLocation | AxisLocationId | AxisElev | AxisLat | AxisLon => true
  | _ => false
  end.

(** ** numpy on one-dimensional arrays *)

(** The values of a dimension (times, offsets, location ids) are compared
    with [==] and ordered by [np.sort]: a decidable total order. *)
Class DimOrd (A : Type) : Type := {
  dleb : A -> A -> bool;
  deqb : A -> A -> bool;
  deqb_eq : forall x y, deqb x y = true <-> x = y;
  dleb_total : forall x y, dleb x y = true \/ dleb y x = true;
  dleb_trans : forall x y z, dleb x y = true -> dleb y z = true -> dleb x z = true;
  dleb_antisym : forall x y, dleb x y = true -> dleb y x = true -> x = y
}.

Lemma Qc_eqb_eq (x y : Qc) : Qc_eqb x y = true <-> x = y.
Proof.
  unfold Qc_eqb. rewrite Qeq_bool_iff. split.
  - apply Qc_is_canon.
  - intros ->. reflexivity.
Qed.

Lemma Qc_leb_le (x y : Qc) : Qc_leb x y = true <-> (x <= y)%Qc.
Proof. unfold Qc_leb, Qcle. apply Qle_bool_iff. Qed.

Lemma Qc_leb_total (x y : Qc) : Qc_leb x y = true \/ Qc_leb y x = true.
Proof.
  rewrite !Qc_leb_le. destruct (Qclt_le_dec x y) as [H | H].
  - left. apply Qclt_le_weak, H.
  - right. exact H.
Qed.

Lemma Qc_leb_trans (x y z : Qc) :
  Qc_leb x y = true -> Qc_leb y z = true -> Qc_leb x z = true.
Proof. rewrite !Qc_leb_le. apply Qcle_trans. Qed.

Lemma Qc_leb_antisym (x y : Qc) :
  Qc_leb x y = true -> Qc_leb y x = true -> x = y.
Proof. rewrite !Qc_leb_le. apply Qcle_antisym. Qed.

Lemma Z_leb_total (x y : Z) : (x <=? y)%Z = true \/ (y <=? x)%Z = true.
Proof. rewrite !Z.leb_le. lia. Qed.

Lemma Z_leb_trans (x y z : Z) :
  (x <=? y)%Z = true -> (y <=? z)%Z = true -> (x <=? z)%Z = true.
Proof. rewrite !Z.leb_le. lia. Qed.

Lemma Z_leb_antisym (x y : Z) :
  (x <=? y)%Z = true -> (y <=? x)%Z = true -> x = y.
Proof. rewrite !Z.leb_le. lia. Qed.

#[export] Instance DimOrd_Z : DimOrd Z := {|
  dleb := Z.leb;
  deqb := Z.eqb;
  deqb_eq := Z.eqb_eq;
  dleb_total := Z_leb_total;
  dleb_trans := Z_leb_trans;
  dleb_antisym := Z_leb_antisym
|}.

#[export] Instance DimOrd_Qc : DimOrd Qc := {|
  dleb := Qc_leb;
  deqb := Qc_eqb;
  deqb_eq := Qc_eqb_eq;
  dleb_total := Qc_leb_total;
  dleb_trans := Qc_leb_trans;
  dleb_antisym := Qc_leb_antisym
|}.

Section Numpy1d.
Context {A : Type} `{DimOrd A}.

(** [x in b]. *)
Definition contains (b : list A) (x : A) : bool := existsb (deqb x) b.

Fixpoint insert_sorted (x : A) (l : list A) : list A :=
  match l with
  | [] => [x]
  | y :: l' => if dleb x y then x :: l else y :: insert_sorted x l'
  end.

(** [np.sort(a)]: the values of [a] in ascending order. *)
Definition np_sort (a : list A) : list A := fold_right insert_sorted [] a.

Fixpoint drop_repeats (a : list A) : list A :=
  match a with
  | [] => []
  | x :: a' => if contains a' x then drop_repeats a' else x :: drop_repeats a'
  end.

(** [np.unique(a)]: the sorted values of [a], each once. *)
Definition np_unique (a : list A) : list A := np_sort (drop_repeats a).

(** [np.intersect1d(a, b)]: the sorted, unique values that are in both. *)
Definition np_intersect1d (a b : list A) : list A :=
  np_unique (filter (contains b) a).

(** [np.in1d(a, b)]: for each item of [a], whether it is in [b]. *)
Definition np_in1d (a b : list A) : list bool := map (contains b) a.

End Numpy1d.

(** [np.where(mask)[0]]: the positions at which [mask] holds. *)
Fixpoint where_from (i : nat) (mask : list bool) : list nat :=
  match mask with
  | [] => []
  | b :: mask' => if b then i :: where_from (S i) mask' else where_from (S i) mask'
  end.

Definition np_where (mask : list bool) : list nat := where_from 0 mask.

(** ** Arrays of three dimensions (time, offset, location) *)

Record nd3 (A : Type) : Type := mk_nd3 {
  shape : nat * nat * nat;
  item : nat -> nat -> nat -> A
}.

Definition dimT {A} (a : nd3 A) : nat := fst (fst (shape a)).
Definition dimO {A} (a : nd3 A) : nat := snd (fst (shape a)).
Definition dimL {A} (a : nd3 A) : nat := snd (shape a).

Definition shape_eqb (s s' : nat * nat * nat) : bool :=
  let '(t, o, l) := s in
  let '(t', o', l') := s' in
  Nat.eqb t t' && Nat.eqb o o' && Nat.eqb l l'.

(** A literal array, written as nested lists: times, then offsets, then
    locations.  Missing items read as not-a-number. *)
Definition array3 (l : list (list (list float))) : nd3 float :=
  let plane := hd [] l in
  {| shape := (length l, length plane, length (hd [] plane));
     item := fun t o k => nth k (nth o (nth t l []) []) NaN |}.

(** The items in C order: [a.flatten()] as a list, or the nested list. *)
Definition row {A} (a : nd3 A) (t o : nat) : list A :=
  map (item a t o) (seq 0 (dimL a)).

Definition plane {A} (a : nd3 A) (t : nat) : list (list A) :=
  map (row a t) (seq 0 (dimO a)).

Definition tolist {A} (a : nd3 A) : list (list (list A)) :=
  map (plane a) (seq 0 (dimT a)).

Definition flatten {A} (a : nd3 A) : list A := concat (concat (tolist a)).

Definition nd3_map {A B} (f : A -> B) (a : nd3 A) : nd3 B :=
  {| shape := shape a; item := fun t o l => f (item a t o l) |}.

(** Broadcasting of two shapes of the same rank: along each axis the
    lengths agree or one of them is 1. *)
Definition broadcast_dim (n m : nat) : result nat :=
  if Nat.eqb n m then Ok n
  else if Nat.eqb n 1 then Ok m
  else if Nat.eqb m 1 then Ok n
  else Err ValueError.

Definition bidx (n i : nat) : nat := if Nat.eqb n 1 then 0 else i.

(** An elementwise binary operation ([a | b], [a - b], [a / b]). *)
Definition nd3_map2 {A B C} (f : A -> B -> C) (a : nd3 A) (b : nd3 B) : result (nd3 C) :=
  t <- broadcast_dim (dimT a) (dimT b) ;;
  o <- broadcast_dim (dimO a) (dimO b) ;;
  l <- broadcast_dim (dimL a) (dimL b) ;;
  Ok {| shape := (t, o, l);
        item := fun i j k =>
          f (item a (bidx (dimT a) i) (bidx (dimO a) j) (bidx (dimL a) k))
            (item b (bidx (dimT b) i) (bidx (dimO b) j) (bidx (dimL b) k)) |}.

(** [a[mask] = np.nan]: the boolean index must have the shape of [a]. *)
Definition set_nan_where (a : nd3 float) (mask : nd3 bool) : result (nd3 float) :=
  if shape_eqb (shape mask) (shape a) then
    Ok {| shape := shape a;
          item := fun t o l => if item mask t o l then NaN else item a t o l |}
  else Err IndexError.

(** [a[I, :, :]], [a[:, I, :]] and [a[:, :, I]] for an integer index
    array [I]: a new array, or IndexError when an index is out of bounds. *)
Definition index_ok (n : nat) (I : list nat) : bool := forallb (fun i => Nat.ltb i n) I.

Definition take_times {A} (a : nd3 A) (I : list nat) : result (nd3 A) :=
  if index_ok (dimT a) I then
    Ok {| shape := (length I, dimO a, dimL a);
          item := fun t o l => item a (nth t I 0) o l |}
  else Err IndexError.

Definition take_offsets {A} (a : nd3 A) (I : list nat) : result (nd3 A) :=
  if index_ok (dimO a) I then
    Ok {| shape := (dimT a, length I, dimL a);
          item := fun t o l => item a t (nth o I 0) l |}
  else Err IndexError.

Definition take_locations {A} (a : nd3 A) (I : list nat) : result (nd3 A) :=
  if index_ok (dimL a) I then
    Ok {| shape := (dimT a, dimO a, length I);
          item := fun t o l => item a t o (nth l I 0) |}
  else Err IndexError.

(** ** Inputs ([verif.input]) and locations ([verif.location]) *)

(** Modelled from the spec: a location has an integer id and float
    latitude, longitude and elevation, all plain attributes ([loc.id],
    [loc.lat], [loc.lon], [loc.elev]). *)
Record Location : Type := {
  loc_id : Z;
  loc_lat : float;
  loc_lon : float;
  loc_elev : float
}.

(** Modelled from the spec: an input exposes its dimension values, its
    declared fields and its arrays.  [ensemble], [threshold_scores] and
    [quantile_scores] have a fourth axis; they are held as the list of
    their three-dimensional slices along it. *)
Record Input : Type := {
  input_name : string;
  input_times : list Z;
  input_offsets : list Qc;
  input_locations : list Location;
  input_thresholds : list Qc;
  input_quantiles : list Qc;
  input_variables : list Field;
  input_obs : nd3 float;
  input_fcst : nd3 float;
  input_ensemble : list (nd3 float);
  input_threshold_scores : list (nd3 float);
  input_quantile_scores : list (nd3 float)
}.

(** ** The index intersector: [Data._get_common_indices] *)

(** The [name] argument: "Time", "Offset" or "Location". *)
Inductive dim : Type :=
| DimTime
| DimOffset
| DimLocation.

Definition dim_value (name : dim) : Type :=
  match name with
  | DimTime => Z
  | DimOffset => Qc
  | DimLocation => Z
  end.

Definition dim_ord (name : dim) : DimOrd (dim_value name) :=
  match name with
  | DimTime => DimOrd_Z
  | DimOffset => DimOrd_Qc
  | DimLocation => DimOrd_Z
  end.

(** [temp]: [file.times], [file.offsets] or the ids of [file.locations]. *)
Definition raw_values (name : dim) (file : Input) : list (dim_value name) :=
  match name with
  | DimTime => input_times file
  | DimOffset => input_offsets file
  | DimLocation => map loc_id (input_locations file)
  end.

Section Intersector.
Context {A : Type} `{DimOrd A}.

(** One round of the first loop: [values] starts as [aux]. *)
Definition common_step (values : option (list A)) (temp : list A) : option (list A) :=
  match values with
  | None => Some temp
  | Some v => Some (np_intersect1d v temp)
  end.

(** The common values, sorted; [np.sort(None)] raises. *)
Definition common_values (raws : list (list A)) (aux : option (list A)) : result (list A) :=
  match fold_left common_step raws aux with
  | None => Err AxisError
  | Some values => Ok (np_sort values)
  end.

(** The second loop for one file: [II[i] = np.where(values[i] == temp)[0]]
    for [i < len(I)].  Storing an array into [II[i]] needs it to hold
    exactly one index. *)
Definition index_array (values temp : list A) : result (list nat) :=
  let I := np_where (np_in1d temp values) in
  mapM (fun i =>
          v <- getitem values i ;;
          match np_where (map (deqb v) temp) with
          | [j] => Ok j
          | _ => Err ValueError
          end)
       (seq 0 (length I)).

Definition common_indices (raws : list (list A)) (aux : option (list A)) : result (list (list nat)) :=
  values <- common_values raws aux ;;
  mapM (index_array values) raws.

End Intersector.

Definition _get_common_indices (files : list Input) (name : dim)
    (aux : option (list (dim_value name))) : result (list (list nat)) :=
  @common_indices _ (dim_ord name) (map (raw_values name) files) aux.

(** Strictly ascending: sorted, without repeats. *)
Definition ascending {A : Type} `{DimOrd A} (l : list A) : Prop :=
  StronglySorted (fun x y => dleb x y = true /\ x <> y) l.

(** ** Python and library calls used by the constructor *)

(** [a is b] for two integers computed at run time ([len(...)]): CPython
    keeps one shared object for each value from -5 to 256 and makes a
    new object for any other value, so two equal lengths above 256 are
    not the same object. *)
Definition int_is (a b : nat) : bool := Nat.eqb a b && Nat.leb a 256.

(** Calling a number ([x()] where [x] is a float or an int attribute)
    raises [TypeError]: the object is not callable. *)
Definition call_float (x : float) : result float := Err TypeError.
Definition call_int (x : Z) : result Z := Err TypeError.

(** [verif.util.intersect(list1, list2)]: the values in both lists. *)
Definition util_intersect (list1 list2 : list Z) : list Z :=
  drop_repeats (filter (contains list2) list1).

(** Calendar arithmetic of [datetime] and [calendar] (proleptic
    Gregorian, UTC): days since 1970-01-01 to (year, month, day) and
    back. *)
Definition civil_from_days (z : Z) : Z * Z * Z :=
  let z := (z + 719468)%Z in
  let era := (z / 146097)%Z in
  let doe := (z - era * 146097)%Z in
  let yoe := ((doe - doe / 1460 + doe / 36524 - doe / 146096) / 365)%Z in
  let doy := (doe - (365 * yoe + yoe / 4 - yoe / 100))%Z in
  let mp := ((5 * doy + 2) / 153)%Z in
  let d := (doy - (153 * mp + 2) / 5 + 1)%Z in
  let m := if (mp <? 10)%Z then (mp + 3)%Z else (mp - 9)%Z in
  let y := (yoe + era * 400)%Z in
  (if (m <=? 2)%Z then (y + 1)%Z else y, m, d).

Definition days_from_civil (y m d : Z) : Z :=
  let y := if (m <=? 2)%Z then (y - 1)%Z else y in
  let era := (y / 400)%Z in
  let yoe := (y - era * 400)%Z in
  let mp := if (2 <? m)%Z then (m - 3)%Z else (m + 9)%Z in
  let doy := ((153 * mp + 2) / 5 + d - 1)%Z in
  let doe := (yoe * 365 + yoe / 4 - yoe / 100 + doy)%Z in
  (era * 146097 + doe - 719468)%Z.

(** A [datetime]: year, month, day and the seconds into the day. *)
Record datetime : Type := {
  dt_year : Z;
  dt_month : Z;
  dt_day : Z;
  dt_seconds : Z
}.

(** [datetime.datetime.utcfromtimestamp(t)]; years outside 1..9999 are
    refused. *)
Definition utcfromtimestamp (t : Z) : result datetime :=
  let days := (t / 86400)%Z in
  let '(y, m, d) := civil_from_days days in
  if ((1 <=? y) && (y <=? 9999))%Z then
    Ok {| dt_year := y; dt_month := m; dt_day := d;
          dt_seconds := (t - days * 86400)%Z |}
  else Err ValueError.

(** [calendar.timegm(dt.timetuple())]. *)
Definition timegm (dt : datetime) : Z :=
  (days_from_civil (dt_year dt) (dt_month dt) (dt_day dt) * 86400 + dt_seconds dt)%Z.

(** [dt.replace(day=1)] and [dt.replace(day=1, month=1)]: the time of
    day is kept. *)
Definition replace_day1 (dt : datetime) : datetime :=
  {| dt_year := dt_year dt; dt_month := dt_month dt; dt_day := 1;
     dt_seconds := dt_seconds dt |}.

Definition replace_day1_month1 (dt : datetime) : datetime :=
  {| dt_year := dt_year dt; dt_month := 1; dt_day := 1;
     dt_seconds := dt_seconds dt |}.

(** ** The class [Data] *)

(** What [__init__] stores in [self] and never changes afterwards.
    [_clim] records whether a climatology input was given (the input
    itself is the last of [_inputs]).  [self.variable], a label looked
    up in tables outside this file, is left out. *)
Record Data : Type := {
  _remove_missing_across_all : bool;
  _legend : option (list string);
  _obs_field : Field;
  _fcst_field : Field;
  _clim : bool;
  _clim_type : string;
  _timesI : list (list nat);
  _offsetsI : list (list nat);
  _locationsI : list (list nat);
  times : list Z;
  offsets : list Qc;
  locations : list Location;
  thresholds : list Qc;
  quantiles : list Qc;
  months : list Z;
  years : list Z;
  num_inputs : nat
}.

(** The mutable part of [self]: the inputs with their arrays, and one
    dictionary from field to trimmed array per input. *)
Record State : Type := {
  _inputs : list Input;
  _cache : list (list (Field * nd3 float))
}.

(** Lines 82-117: the location ids allowed by the latitude and
    longitude ranges and the [locations] argument. *)
Definition in_range (lo hi x : float) : bool := fle lo x && fle x hi.

Definition latlon_filter (inputs : list Input) (locations : option (list Z))
    (lat_range lon_range : option (float * float)) : result (list Z) :=
  match lat_range, lon_range with
  | None, None =>
      match locations with
      | Some locs => Ok locs
      | None => first <- getitem inputs 0 ;; Ok (map loc_id (input_locations first))
      end
  | _, _ =>
      first <- getitem inputs 0 ;;
      let '(min_lat, max_lat) :=
        match lat_range with
        | Some r => r
        | None => (of_int (-90), of_int 90)
        end in
      let '(min_lon, max_lon) :=
        match lon_range with
        | Some r => r
        | None => (of_int (-180), of_int 180)
        end in
      let latlon_locations :=
        map loc_id
          (filter (fun loc => in_range min_lat max_lat (loc_lat loc)
                              && in_range min_lon max_lon (loc_lon loc))
                  (input_locations first)) in
      let use_locationss :=
        match locations with
        | Some locs => filter (contains latlon_locations) locs
        | None => latlon_locations
        end in
      if Nat.eqb (length use_locationss) 0 then
        Err (UtilError "No available locations within lat/lon range")
      else Ok use_locationss
  end.

(** Lines 119-132: the elevation range.  The loop reads each location
    with [locations[i].elev()] and [locations[i].id()]. *)
Definition elev_filter (inputs : list Input) (use_locationss : list Z)
    (elev_range : option (float * float)) : result (list Z) :=
  match elev_range with
  | None => Ok use_locationss
  | Some (min_elev, max_elev) =>
      first <- getitem inputs 0 ;;
      elev_locations <-
        fold_left
          (fun acc loc =>
             elev_locations <- acc ;;
             curr_elev <- call_float (loc_elev loc) ;;
             id <- call_int (loc_id loc) ;;
             if in_range min_elev max_elev curr_elev
             then Ok (elev_locations ++ [id])
             else Ok elev_locations)
          (input_locations first) (Ok []) ;;
      let use_locationss := util_intersect use_locationss elev_locations in
      if Nat.eqb (length use_locationss) 0 then
        Err (UtilError "No available locations within elevation range")
      else Ok use_locationss
  end.

(** [_get_times], [_get_offsets], [_get_locations]: the first input's
    values at its index array. *)
Definition first_values {A} (raw : list A) (indices : list (list nat)) : result (list A) :=
  I <- getitem indices 0 ;;
  mapM (getitem raw) I.

(** [_get_thresholds] and [_get_quantiles]: [set(a) & set(b)] over the
    inputs, then [sorted]; [sorted(None)] raises. *)
Definition set_step (acc : option (list Qc)) (curr : list Qc) : option (list Qc) :=
  match acc with
  | None => Some curr
  | Some a => Some (drop_repeats (filter (contains curr) a))
  end.

Definition sorted_common (raws : list (list Qc)) : result (list Qc) :=
  match fold_left set_step raws None with
  | None => Err TypeError
  | Some v => Ok (np_sort v)
  end.

Definition _get_months (times : list Z) : result (list Z) :=
  dts <- mapM utcfromtimestamp times ;;
  Ok (np_unique (map (fun dt => timegm (replace_day1 dt)) dts)).

Definition _get_years (times : list Z) : result (list Z) :=
  dts <- mapM utcfromtimestamp times ;;
  Ok (np_unique (map (fun dt => timegm (replace_day1_month1 dt)) dts)).

Definition is_empty_first (indices : list (list nat)) : result bool :=
  I <- getitem indices 0 ;; Ok (Nat.eqb (length I) 0).

(** Lines 58-59: a legend needs one entry for each input. *)
Definition check_legend (inputs : list Input) (legend : option (list string)) : result unit :=
  match legend with
  | Some lg =>
      if negb (int_is (length inputs) (length lg))
      then Err (UtilError "Need one legend entry for each filename")
      else Ok tt
  | None => Ok tt
  end.

(** Lines 65-80: [self._inputs], with the climatology input at the end. *)
Definition organize_inputs (inputs : list Input) (clim : option Input)
    (clim_type : string) : result (list Input) :=
  match clim with
  | Some c =>
      if negb (String.eqb clim_type "subtract" || String.eqb clim_type "divide")
      then Err (UtilError "Data: clim_type must be 'subtract' or 'divide")
      else Ok (inputs ++ [c])
  | None => Ok inputs
  end.

(** [Data.__init__].  [inputs] is the list of inputs, [clim] the input
    that [verif.input.get_input(clim)] returns, [locations] a list of
    location ids. *)
Definition __init__ (inputs : list Input)
    (times : option (list Z)) (offsets : option (list Qc))
    (locations : option (list Z))
    (lat_range lon_range elev_range : option (float * float))
    (clim : option Input) (clim_type : string)
    (legend : option (list string)) (remove_missing_across_all : bool)
    (obs_field fcst_field : Field) : result (Data * State) :=
  _ <- check_legend inputs legend ;;
  self_inputs <- organize_inputs inputs clim clim_type ;;
  let self_cache := map (fun _ => @nil (Field * nd3 float)) self_inputs in
  use_locationss <- latlon_filter self_inputs locations lat_range lon_range ;;
  use_locationss <- elev_filter self_inputs use_locationss elev_range ;;
  timesI <- _get_common_indices self_inputs DimTime times ;;
  offsetsI <- _get_common_indices self_inputs DimOffset offsets ;;
  locationsI <- _get_common_indices self_inputs DimLocation (Some use_locationss) ;;
  no_times <- is_empty_first timesI ;;
  if no_times then Err (UtilError "No valid times selected") else
  no_offsets <- is_empty_first offsetsI ;;
  if no_offsets then Err (UtilError "No valid offsets selected") else
  no_locations <- is_empty_first locationsI ;;
  if no_locations then Err (UtilError "No valid locations selected") else
  first <- getitem self_inputs 0 ;;
  self_times <- first_values (input_times first) timesI ;;
  self_offsets <- first_values (input_offsets first) offsetsI ;;
  self_locations <- first_values (input_locations first) locationsI ;;
  self_thresholds <- sorted_common (map input_thresholds self_inputs) ;;
  self_quantiles <- sorted_common (map input_quantiles self_inputs) ;;
  self_months <- _get_months self_times ;;
  self_years <- _get_years self_times ;;
  Ok ({| _remove_missing_across_all := remove_missing_across_all;
         _legend := legend;
         _obs_field := obs_field;
         _fcst_field := fcst_field;
         _clim := match clim with Some _ => true | None => false end;
         _clim_type := clim_type;
         _timesI := timesI;
         _offsetsI := offsetsI;
         _locationsI := locationsI;
         times := self_times;
         offsets := self_offsets;
         locations := self_locations;
         thresholds := self_thresholds;
         quantiles := self_quantiles;
         months := self_months;
         years := self_years;
         num_inputs := length self_inputs
                       - (match clim with Some _ => 1 | None => 0 end) |},
      {| _inputs := self_inputs; _cache := self_cache |}).

(** ** The window transform: [Data._calculate_window] *)

Definition half : float := of_ratio 1 2.

(** [np.cumsum(array[:, o:, :], axis=1)] at time [t], location [l] and
    step [n] past [o]: the running sum [array[t,o,l] + ... +
    array[t,o+n,l]], added left to right. *)
Fixpoint cumsum_from (array : nd3 float) (t o l n : nat) : float :=
  match n with
  | 0 => item array t o l
  | S n' => fadd (cumsum_from array t o l n') (item array t (o + n) l)
  end.

(** [q = np.nansum(cumsum <= threshold, axis=1)]: how many of the
    running sums from [o] to the last offset are at most 0.5. *)
Definition count_below (array : nd3 float) (O t o l : nat) : nat :=
  length (filter (fun n => fle (cumsum_from array t o l n) half) (seq 0 (O - o))).

(** [I = q + o; I[I >= O] = O - 1]. *)
Definition window_index (array : nd3 float) (O t o l : nat) : nat :=
  let I := count_below array O t o l + o in
  if Nat.leb O I then O - 1 else I.

(** One round of the loop over [o]: [array[:, o, :] = offsets[I] -
    offsets[o]].  Reading [offsets] past its end raises. *)
Definition window_step (offsets : list Qc) (O : nat)
    (acc : result (nd3 float)) (o : nat) : result (nd3 float) :=
  array <- acc ;;
  let I := window_index array O in
  if Nat.ltb o (length offsets)
     && forallb (fun t => forallb (fun l => Nat.ltb (I t o l) (length offsets))
                                  (seq 0 (dimL array)))
                (seq 0 (dimT array))
  then
    Ok {| shape := shape array;
          item := fun t o' l =>
            if Nat.eqb o' o
            then Fin (nth (I t o l) offsets 0%Qc - nth o offsets 0%Qc)%Qc
            else item array t o' l |}
  else Err IndexError.

(** The array is changed in place; the result is its final content, the
    same object the caller passed in. *)
Definition _calculate_window (array : nd3 float) (offsets : list Qc) : result (nd3 float) :=
  let O := dimO array in
  let Inan := nd3_map isnan array in
  array <- fold_left (window_step offsets O) (seq 0 O) (Ok array) ;;
  set_nan_where array Inan.

(** ** The field cache: [Data._get_score] *)

(** A dictionary from field to array, and a list changed at one index. *)
Definition dict_get (field : Field) (c : list (Field * nd3 float)) : option (nd3 float) :=
  match find (fun p => field_eqb field (fst p)) c with
  | Some p => Some (snd p)
  | None => None
  end.

Definition dict_set (field : Field) (a : nd3 float) (c : list (Field * nd3 float))
    : list (Field * nd3 float) :=
  (field, a) :: filter (fun p => negb (field_eqb field (fst p))) c.

Definition dict_getitem (field : Field) (c : list (Field * nd3 float)) : result (nd3 float) :=
  match dict_get field c with
  | Some a => Ok a
  | None => Err KeyError
  end.

Fixpoint set_nth {A} (i : nat) (x : A) (l : list A) : list A :=
  match l, i with
  | [], _ => []
  | _ :: l', 0 => x :: l'
  | y :: l', S i' => y :: set_nth i' x l'
  end.

Definition set_obs (input : Input) (a : nd3 float) : Input :=
  {| input_name := input_name input;
     input_times := input_times input;
     input_offsets := input_offsets input;
     input_locations := input_locations input;
     input_thresholds := input_thresholds input;
     input_quantiles := input_quantiles input;
     input_variables := input_variables input;
     input_obs := a;
     input_fcst := input_fcst input;
     input_ensemble := input_ensemble input;
     input_threshold_scores := input_threshold_scores input;
     input_quantile_scores := input_quantile_scores input |}.

Definition set_fcst (input : Input) (a : nd3 float) : Input :=
  {| input_name := input_name input;
     input_times := input_times input;
     input_offsets := input_offsets input;
     input_locations := input_locations input;
     input_thresholds := input_thresholds input;
     input_quantiles := input_quantiles input;
     input_variables := input_variables input;
     input_obs := input_obs input;
     input_fcst := a;
     input_ensemble := input_ensemble input;
     input_threshold_scores := input_threshold_scores input;
     input_quantile_scores := input_quantile_scores input |}.

Definition field_name (field : Field) : string :=
  match field with
  | Obs => "obs"
  | Fcst => "fcst"
  | Ensemble _ => "ensemble"
  | Threshold _ => "threshold"
  | Quantile _ => "quantile"
  | ObsWindow => "obs-window"
  | FcstWindow => "fcst-window"
  end.

(** Lines 452-480: the array a field selects from an input, and the
    input afterwards.  [input.obs[:, :, :]] is a view of [input.obs], so
    the window transform, which writes into its argument, writes into
    the input's own array.  The slice of a threshold or quantile score
    keeps a fourth axis of length one, which is dropped here: the
    array is held by its items at the one entry of that axis, so its
    items, its mask and its flattened slices are those of the source,
    and its shape lacks the last entry, 1. *)
Definition select_array (field : Field) (input : Input) : result (nd3 float * Input) :=
  match field with
  | Obs => Ok (input_obs input, input)
  | Fcst => Ok (input_fcst input, input)
  | Ensemble member =>
      temp <- getitem (input_ensemble input) member ;; Ok (temp, input)
  | Threshold threshold =>
      match np_where (map (fun x => Qc_eqb x threshold) (input_thresholds input)) with
      | [ix] => temp <- getitem (input_threshold_scores input) ix ;; Ok (temp, input)
      | _ => Err AssertionError
      end
  | Quantile quantile =>
      match np_where (map (fun x => Qc_eqb x quantile) (input_quantiles input)) with
      | [ix] => temp <- getitem (input_quantile_scores input) ix ;; Ok (temp, input)
      | _ => Err AssertionError
      end
  | ObsWindow =>
      temp <- _calculate_window (input_obs input) (input_offsets input) ;;
      Ok (temp, set_obs input temp)
  | FcstWindow =>
      temp <- _calculate_window (input_fcst input) (input_offsets input) ;;
      Ok (temp, set_fcst input temp)
  end.

(** Lines 481-486: the array at the input's common indices. *)
Definition trim (d : Data) (i : nat) (temp : nd3 float) : result (nd3 float) :=
  Itimes <- getitem (_timesI d) i ;;
  Ioffsets <- getitem (_offsetsI d) i ;;
  Ilocations <- getitem (_locationsI d) i ;;
  temp <- take_times temp Itimes ;;
  temp <- take_offsets temp Ioffsets ;;
  take_locations temp Ilocations.

(** One round of the loop "Load all inputs" (lines 444-487). *)
Definition load_input (d : Data) (field : Field) (acc : result State) (i : nat) : result State :=
  st <- acc ;;
  c <- getitem (_cache st) i ;;
  match dict_get field c with
  | Some _ => Ok st
  | None =>
      input <- getitem (_inputs st) i ;;
      if negb (existsb (field_eqb field) (input_variables input ++ [ObsWindow; FcstWindow]))
      then Err (UtilError (input_name input ++ " does not contain '"
                           ++ field_name field ++ "'"))
      else
        '(temp, input') <- select_array field input ;;
        temp <- trim d i temp ;;
        Ok {| _inputs := set_nth i input' (_inputs st);
              _cache := set_nth i (dict_set field temp c) (_cache st) |}
  end.

Definition load_all (d : Data) (field : Field) (st : State) : result State :=
  fold_left (load_input d field) (seq 0 (length (_inputs st))) (Ok st).

(** Lines 492-497: [is_missing], the union of the inputs' not-a-number
    masks, and its application to every input's array. *)
Definition cached (st : State) (i : nat) (field : Field) : result (nd3 float) :=
  c <- getitem (_cache st) i ;; dict_getitem field c.

Definition missing_step (st : State) (field : Field)
    (acc : result (nd3 bool)) (i : nat) : result (nd3 bool) :=
  is_missing <- acc ;;
  a <- cached st i field ;;
  nd3_map2 orb is_missing (nd3_map isnan a).

Definition is_missing_all (st : State) (field : Field) : result (nd3 bool) :=
  a0 <- cached st 0 field ;;
  fold_left (missing_step st field) (seq 1 (length (_inputs st) - 1))
            (Ok (nd3_map isnan a0)).

Definition blank_step (field : Field) (is_missing : nd3 bool)
    (acc : result State) (i : nat) : result State :=
  st <- acc ;;
  c <- getitem (_cache st) i ;;
  a <- dict_getitem field c ;;
  a <- set_nan_where a is_missing ;;
  Ok {| _inputs := _inputs st;
        _cache := set_nth i (dict_set field a c) (_cache st) |}.

Definition remove_missing (field : Field) (st : State) : result State :=
  is_missing <- is_missing_all st field ;;
  fold_left (blank_step field is_missing) (seq 0 (length (_inputs st))) (Ok st).

(** The field under which the array is stored: [Obs] and [Fcst] stand
    for the configured observation and forecast fields. *)
Definition alias (d : Data) (field : Field) : Field :=
  let field := if field_eqb field Obs then _obs_field d else field in
  if field_eqb field Fcst then _fcst_field d else field.

Definition _get_score (d : Data) (field : Field) (input_index : nat)
    (st : State) : result (nd3 float * State) :=
  c <- getitem (_cache st) input_index ;;
  match dict_get field c with
  | Some a => Ok (a, st)
  | None =>
      let field := alias d field in
      st <- load_all d field st ;;
      st <- (if _remove_missing_across_all d then remove_missing field st else Ok st) ;;
      a <- cached st input_index field ;;
      Ok (a, st)
  end.

(** The value the window loop leaves at offset [o], computed from the
    array as it was passed in. *)
Definition window_value (array : nd3 float) (offsets : list Qc) (t o l : nat) : float :=
  Fin (nth (window_index array (dimO array) t o l) offsets 0%Qc - nth o offsets 0%Qc)%Qc.

(** The running sum as the specification words it, skipping
    not-a-number items (they count as zero), as [np.nancumsum] does.
    It is used only to state what the source does not compute. *)
Definition nan_to_zero (x : float) : float := if isnan x then of_int 0 else x.

Fixpoint nancumsum_from (array : nd3 float) (t o l n : nat) : float :=
  match n with
  | 0 => nan_to_zero (item array t o l)
  | S n' => fadd (nancumsum_from array t o l n') (nan_to_zero (item array t (o + n) l))
  end.

(** ** Score retrieval: [Data.get_scores] *)

(** What [get_scores] handles: flat arrays for an aggregating axis,
    three-dimensional arrays for the axis "all". *)
Inductive ndarray (A : Type) : Type :=
| A1 (v : list A)
| A3 (a : nd3 A).

Arguments A1 {A} v.
Arguments A3 {A} a.

Definition nd_map {A B} (f : A -> B) (x : ndarray A) : ndarray B :=
  match x with
  | A1 v => A1 (map f v)
  | A3 a => A3 (nd3_map f a)
  end.

Definition zip_with {A B C} (f : A -> B -> C) (x : list A) (y : list B) : list C :=
  map (fun p => f (fst p) (snd p)) (combine x y).

(** An elementwise operation on flat arrays, with broadcasting of an
    array of length one. *)
Definition broadcast1 {A B C} (f : A -> B -> C) (x : list A) (y : list B) : result (list C) :=
  if Nat.eqb (length x) (length y) then Ok (zip_with f x y)
  else match x, y with
       | [a], _ => Ok (map (f a) y)
       | _, [b] => Ok (map (fun a => f a b) x)
       | _, _ => Err ValueError
       end.

(** The two operands of an operation in [get_scores] come from the same
    branch of the axis ladder and have the same rank. *)
Definition nd_map2 {A B C} (f : A -> B -> C) (x : ndarray A) (y : ndarray B)
    : result (ndarray C) :=
  match x, y with
  | A1 u, A1 v => w <- broadcast1 f u v ;; Ok (A1 w)
  | A3 a, A3 b => c <- nd3_map2 f a b ;; Ok (A3 c)
  | _, _ => Err ValueError
  end.

(** [(np.isnan(curr) == 0) & (np.isinf(curr) == 0)]. *)
Definition is_valid (x : float) : bool := negb (isnan x) && negb (isinf x).

(** The times of a month or year bucket (lines 224-228, 231-235): the
    positions of [self.times] from the bucket's start up to the next
    bucket's start, or to the end for the last bucket. *)
Definition bucket (d : Data) (edges : list Z) (axis_index : nat) : result (list nat) :=
  if Nat.eqb (S axis_index) (length edges) then
    lo <- getitem edges axis_index ;;
    Ok (np_where (map (fun t => Z.leb lo t) (times d)))
  else
    lo <- getitem edges axis_index ;;
    hi <- getitem edges (axis_index + 1) ;;
    Ok (np_where (map (fun t => Z.leb lo t && Z.ltb t hi) (times d))).

(** The axis ladder (lines 221-246): the part of [temp] the axis and
    index select, flattened; the whole array for the axis "all"; nothing
    for an axis the ladder does not know.  [axis_index] is a
    non-negative integer. *)
Definition axis_slice (d : Data) (axis : Axis) (axis_index : nat) (temp : nd3 float)
    : result (option (ndarray float)) :=
  match axis with
  | AxisTime =>
      if Nat.ltb axis_index (dimT temp)
      then Ok (Some (A1 (concat (plane temp axis_index))))
      else Err IndexError
  | AxisMonth =>
      I <- bucket d (months d) axis_index ;;
      a <- take_times temp I ;;
      Ok (Some (A1 (flatten a)))
  | AxisYear =>
      I <- bucket d (years d) axis_index ;;
      a <- take_times temp I ;;
      Ok (Some (A1 (flatten a)))
  | AxisOffset =>
      if Nat.ltb axis_index (dimO temp)
      then Ok (Some (A1 (flat_map (fun t => row temp t axis_index) (seq 0 (dimT temp)))))
      else Err IndexError
  | AxisLocation | AxisLocationId | AxisElev | AxisLat | AxisLon =>
      if Nat.ltb axis_index (dimL temp)
      then Ok (Some (A1 (flat_map
                           (fun t => map (fun o => item temp t o axis_index)
                                         (seq 0 (dimO temp)))
                           (seq 0 (dimT temp)))))
      else Err IndexError
  | AxisNo | AxisThreshold => Ok (Some (A1 (flatten temp)))
  | AxisAll => Ok (Some (A3 temp))
  | AxisQuantile => Ok None
  end.

(** The key of [self._cache[input_index]] that holds the array
    [_get_score] returns: the field itself when it is found at once,
    its alias when it has to be loaded. *)
Definition cache_key (d : Data) (field : Field) (input_index : nat) (st : State) : Field :=
  match nth_error (_cache st) input_index with
  | Some c => match dict_get field c with
              | Some _ => field
              | None => alias d field
              end
  | None => alias d field
  end.

(** The positions of a three-dimensional mask that hold, in C order. *)
Definition positions (m : nd3 bool) : list (nat * nat * nat) :=
  flat_map (fun t => flat_map (fun o =>
     flat_map (fun l => if item m t o l then [(t, o, l)] else [])
              (seq 0 (dimL m))) (seq 0 (dimO m))) (seq 0 (dimT m)).

(** [scores[i][I]] for [I = np.where(valid)]. *)
Definition select_valid (valid : ndarray bool) (score : ndarray float)
    : result (ndarray float) :=
  match valid, score with
  | A1 m, A1 v => w <- mapM (getitem v) (np_where m) ;; Ok (A1 w)
  | A3 m, A3 a =>
      w <- mapM (fun p => let '(t, o, l) := p in
                          if Nat.ltb t (dimT a) && Nat.ltb o (dimO a) && Nat.ltb l (dimL a)
                          then Ok (item a t o l) else Err IndexError)
                (positions m) ;;
      Ok (A1 w)
  | _, _ => Err IndexError
  end.

(** [scores[i][valid == 0] = np.nan], in place. *)
Definition blank_invalid (valid : ndarray bool) (score : ndarray float)
    : result (ndarray float) :=
  match valid, score with
  | A1 m, A1 v =>
      if Nat.eqb (length m) (length v)
      then Ok (A1 (zip_with (fun (ok : bool) (x : float) => if ok then x else NaN) m v))
      else Err IndexError
  | A3 m, A3 a => b <- set_nan_where a (nd3_map negb m) ;; Ok (A3 b)
  | _, _ => Err IndexError
  end.

(** [scores[0].shape[0]]. *)
Definition shape0 (x : ndarray float) : nat :=
  match x with
  | A1 v => length v
  | A3 a => dimT a
  end.

Section GetScores.

(** Whether [verif.axis.All()] hands back one shared object, so that
    [axis is not verif.axis.All()] can be false at all.  The class is
    not part of this file; nothing below depends on the answer for an
    axis other than "all". *)
Variable All_is_one_object : bool.

Definition is_not_All (axis : Axis) : bool :=
  negb (All_is_one_object && axis_eqb axis AxisAll).

(** One round of the loop over the fields (lines 217-261).  A score is
    kept with the cache key of the array it is, when it is the cached
    array itself and not a copy.  For an axis the ladder does not know,
    the message of the error is built first, by adding the axis to a
    string, and that addition raises [TypeError]. *)
Definition score_field (d : Data) (doClim : bool) (clim : option (ndarray float))
    (input_index : nat) (axis : Axis) (axis_index : nat)
    (acc : result (list (ndarray float * option Field) * option (ndarray bool) * State))
    (field : Field)
    : result (list (ndarray float * option Field) * option (ndarray bool) * State) :=
  '(scores, valid, st) <- acc ;;
  let key := cache_key d field input_index st in
  '(temp, st) <- _get_score d field input_index st ;;
  sl <- axis_slice d axis axis_index temp ;;
  curr <- match sl with
          | Some curr => Ok curr
          | None => Err TypeError
          end ;;
  '(curr, key) <-
     (if doClim && (field_eqb field Fcst || field_eqb field Obs) then
        match clim with
        | Some clim =>
            curr <- (if String.eqb (_clim_type d) "subtract"
                     then nd_map2 fsub curr clim
                     else nd_map2 fdiv curr clim) ;;
            Ok (curr, None)
        | None => Err NameError
        end
      else Ok (curr, match curr with A3 _ => Some key | A1 _ => None end)) ;;
  let currValid := nd_map is_valid curr in
  valid <- match valid with
           | None => Ok currValid
           | Some valid => nd_map2 andb valid currValid
           end ;;
  Ok (scores ++ [(curr, key)], Some valid, st).

(** Lines 174-261: the scores of every field before invalid entries
    are removed, and the joint validity mask. *)
Definition get_scores_unmasked (d : Data) (fields : list Field) (input_index : nat)
    (axis : Axis) (axis_index : nat) (st : State)
    : result (list (ndarray float * option Field) * option (ndarray bool) * State) :=
  if negb (Nat.ltb input_index (num_inputs d)) then
    Err (UtilError "input_index must be between 0 and num_inputs")
  else
    let obsFcstAvailable :=
      existsb (field_eqb Obs) fields || existsb (field_eqb Fcst) fields in
    let doClim := _clim d && obsFcstAvailable in
    '(clim, st) <-
       (if doClim then
          '(temp, st) <- _get_score d Fcst (length (_inputs st) - 1) st ;;
          clim <- axis_slice d axis axis_index temp ;;
          Ok (clim, st)
        else Ok (None, st)) ;;
    fold_left (score_field d doClim clim input_index axis axis_index) fields
              (Ok ([], None, st)).

(** The write of a blanked score back into the cache, when the score is
    the cached array. *)
Definition write_back (input_index : nat) (st : State)
    (entry : ndarray float * option Field) : State :=
  match entry with
  | (A3 a, Some key) =>
      match nth_error (_cache st) input_index with
      | Some c => {| _inputs := _inputs st;
                     _cache := set_nth input_index (dict_set key a c) (_cache st) |}
      | None => st
      end
  | _ => st
  end.

(** Lines 263-276: invalid entries are dropped (or blanked, for the
    axis "all"), and an empty result becomes one not-a-number per
    field. *)
Definition finish_scores (fields : list Field) (input_index : nat) (axis : Axis)
    (scores : list (ndarray float * option Field)) (valid : option (ndarray bool))
    (st : State) : result (list (ndarray float) * State) :=
  valid <- match valid with
           | Some valid => Ok valid
           | None => Err IndexError
           end ;;
  '(scores, st) <-
     (if is_not_All axis then
        scores <- mapM (fun s => select_valid valid (fst s)) scores ;;
        Ok (scores, st)
      else
        blanked <- mapM (fun s => b <- blank_invalid valid (fst s) ;; Ok (b, snd s))
                        scores ;;
        Ok (map fst blanked, fold_left (write_back input_index) blanked st)) ;;
  first <- getitem scores 0 ;;
  if Nat.eqb (shape0 first) 0
  then Ok (map (fun _ => A1 [NaN]) fields, st)
  else Ok (scores, st).

Definition get_scores (d : Data) (fields : list Field) (input_index : nat)
    (axis : Axis) (axis_index : nat) (st : State)
    : result (list (ndarray float) * State) :=
  '(scores, valid, st) <- get_scores_unmasked d fields input_index axis axis_index st ;;
  finish_scores fields input_index axis scores valid st.

End GetScores.

(** ** Vocabulary for the properties of [get_scores] *)

(** What the loop over the fields reads for an aggregating axis: for
    each field the array [_get_score] returns, sliced along the axis. *)
Fixpoint load_slices (d : Data) (input_index : nat) (axis : Axis) (axis_index : nat)
    (fields : list Field) (st : State) : result (list (list float) * State) :=
  match fields with
  | [] => Ok ([], st)
  | field :: fields' =>
      '(temp, st) <- _get_score d field input_index st ;;
      sl <- axis_slice d axis axis_index temp ;;
      match sl with
      | Some (A1 s) =>
          '(ss, st) <- load_slices d input_index axis axis_index fields' st ;;
          Ok (s :: ss, st)
      | _ => Err TypeError
      end
  end.

(** [doClim] (lines 184-185), and what is read for the climatology:
    the forecast field of the last input, sliced like the scores. *)
Definition wants_clim (d : Data) (fields : list Field) : bool :=
  _clim d && (existsb (field_eqb Obs) fields || existsb (field_eqb Fcst) fields).

Definition load_clim (d : Data) (fields : list Field) (axis : Axis) (axis_index : nat)
    (st : State) : result (option (list float) * State) :=
  if wants_clim d fields then
    '(temp, st) <- _get_score d Fcst (length (_inputs st) - 1) st ;;
    sl <- axis_slice d axis axis_index temp ;;
    match sl with
    | Some (A1 s) => Ok (Some s, st)
    | _ => Err TypeError
    end
  else Ok (None, st).

Definition is_obs_or_fcst (field : Field) : bool :=
  field_eqb field Fcst || field_eqb field Obs.

(** The slice of a field after the climatology has been applied to it,
    or not. *)
Definition adjusted (d : Data) (clim : option (list float)) (field : Field)
    (s : list float) : list float :=
  match clim with
  | Some cs =>
      if is_obs_or_fcst field
      then zip_with (if String.eqb (_clim_type d) "subtract" then fsub else fdiv) s cs
      else s
  | None => s
  end.

Definition adjusted_all (d : Data) (clim : option (list float)) (fields : list Field)
    (slices : list (list float)) : list (list float) :=
  map (fun p => adjusted d clim (fst p) (snd p)) (combine fields slices).

(** Position [p] is jointly valid when every array is finite there. *)
Definition joint_mask (scores : list (list float)) (n : nat) : list bool :=
  map (fun p => forallb (fun s => is_valid (nth p s NaN)) scores) (seq 0 n).

Definition count_true (mask : list bool) : nat := length (filter (fun b => b) mask).

(** The items of [v] at the positions where [mask] holds. *)
Definition keep (mask : list bool) (v : list float) : list float :=
  map snd (filter fst (combine mask v)).

(** One round of [valid = valid & currValid] on flat arrays. *)
Definition and_mask (acc : option (list bool)) (v : list float) : list bool :=
  match acc with
  | None => map is_valid v
  | Some m => zip_with andb m (map is_valid v)
  end.

(** ** Invariants of a constructed dataset *)

(** The shape every trimmed array has: the numbers of common times,
    offsets and locations. *)
Definition canonical_shape (d : Data) : nat * nat * nat :=
  (length (times d), length (offsets d), length (locations d)).

(** Every input's index arrays are as long as the canonical axes. *)
Definition aligned (d : Data) : Prop :=
  Forall (fun I => length I = length (times d)) (_timesI d)
  /\ Forall (fun I => length I = length (offsets d)) (_offsetsI d)
  /\ Forall (fun I => length I = length (locations d)) (_locationsI d).

(** One cache per input, and every cached array has the canonical shape. *)
Definition cache_wf (d : Data) (st : State) : Prop :=
  length (_cache st) = length (_inputs st)
  /\ forall i field a, cached st i field = Ok a -> shape a = canonical_shape d.

(** A position inside an array of shape [s]. *)
Definition inside (s : nat * nat * nat) (t o l : nat) : Prop :=
  t < fst (fst s) /\ o < snd (fst s) /\ l < snd s.

(** The two fields computed by [_calculate_window]. *)
Definition is_window (field : Field) : bool :=
  match field with
  | ObsWindow | FcstWindow => true
  | _ => false
  end.

(** ** Read accessors of the dataset *)

(** [_get_time_indices], [_get_offset_indices], [_get_location_indices]
    (lines 626-633). *)
Definition _get_time_indices (d : Data) (input_index : nat) : result (list nat) :=
  getitem (_timesI d) input_index.

Definition _get_offset_indices (d : Data) (input_index : nat) : result (list nat) :=
  getitem (_offsetsI d) input_index.

Definition _get_location_indices (d : Data) (input_index : nat) : result (list nat) :=
  getitem (_locationsI d) input_index.

(** [_get_indices(axis, findex=None)] (lines 615-624).  The default
    [None] is not a list index. *)
Definition _get_indices (d : Data) (axis : string) (findex : option nat)
    : result (list nat) :=
  let at_index (get : Data -> nat -> result (list nat)) : result (list nat) :=
    match findex with
    | Some i => get d i
    | None => Err TypeError
    end in
  if String.eqb axis "time" then at_index _get_time_indices
  else if String.eqb axis "offset" then at_index _get_offset_indices
  else if String.eqb axis "location" then at_index _get_location_indices
  else Err (UtilError ("Could not get indices for axis: " ++ axis)).

(** [_get_num_inputs] and [_get_num_inputs_with_clim] (lines 635-639):
    [len(self._inputs) - (self._clim is not None)]. *)
Definition _get_num_inputs (d : Data) (st : State) : nat :=
  length (_inputs st) - (if _clim d then 1 else 0).

Definition _get_num_inputs_with_clim (st : State) : nat := length (_inputs st).

(** [_get_times], [_get_offsets], [_get_locations] (lines 514-517,
    533-544) as methods of the constructed object. *)
Definition _get_times (d : Data) (st : State) : result (list Z) :=
  first <- getitem (_inputs st) 0 ;; first_values (input_times first) (_timesI d).

Definition _get_offsets (d : Data) (st : State) : result (list Qc) :=
  first <- getitem (_inputs st) 0 ;; first_values (input_offsets first) (_offsetsI d).

Definition _get_locations (d : Data) (st : State) : result (list Location) :=
  first <- getitem (_inputs st) 0 ;; first_values (input_locations first) (_locationsI d).

(** [_get_thresholds] and [_get_quantiles] (lines 591-613). *)
Definition _get_thresholds (st : State) : result (list Qc) :=
  sorted_common (map input_thresholds (_inputs st)).

Definition _get_quantiles (st : State) : result (list Qc) :=
  sorted_common (map input_quantiles (_inputs st)).

(** [get_names] and [get_legend] (lines 340-352). *)
Definition get_names (st : State) : list string := map input_name (_inputs st).

Definition get_legend (d : Data) (st : State) : list string :=
  match _legend d with
  | None => get_names st
  | Some legend => legend
  end.

(** [get_lats], [get_lons], [get_elevs], [get_location_ids] (lines
    376-386). *)
Definition get_lats (d : Data) : list float := map loc_lat (locations d).
Definition get_lons (d : Data) : list float := map loc_lon (locations d).
Definition get_elevs (d : Data) : list float := map loc_elev (locations d).
Definition get_location_ids (d : Data) : list Z := map loc_id (locations d).

(** ** Axis values and tick locators *)

(** What [get_axis_values] hands back: converted dates, the offsets,
    an array of floats or a sequence of integers. *)
Inductive axis_values : Type :=
| DateValues (v : list float)
| OffsetValues (v : list Qc)
| FloatValues (v : list float)
| IntValues (v : list Z).

Definition len_values (v : axis_values) : nat :=
  match v with
  | DateValues v => length v
  | OffsetValues v => length v
  | FloatValues v => length v
  | IntValues v => length v
  end.

(** [range(0, n)]. *)
Definition py_range (n : nat) : list Z := map Z.of_nat (seq 0 n).

(** [max(a)] and [min(a)]: the first greatest and the first least item;
    an empty sequence raises. *)
Definition py_max (a : list Qc) : result Qc :=
  match a with
  | [] => Err ValueError
  | x :: a' => Ok (fold_left (fun m y => if Qc_ltb m y then y else m) a' x)
  end.

Definition py_min (a : list Qc) : result Qc :=
  match a with
  | [] => Err ValueError
  | x :: a' => Ok (fold_left (fun m y => if Qc_ltb y m then y else m) a' x)
  end.

(** An integer as a rational. *)
Definition qc (z : Z) : Qc := Q2Qc (inject_Z z).

(** The tick locators of [matplotlib.ticker] that [get_axis_locator]
    constructs. *)
Inductive Locator : Type :=
| AutoLocator
| MultipleLocator (base : Z).

Section AxisValues.

(** [verif.util.convert_times] is not part of this file: it turns the
    integer times into plotting dates. *)
Variable convert_times : list Z -> list float.

(** [get_axis_values] (lines 282-309).  The last branch of the inner
    ladder is never reached: the five location-like axes are all
    listed.  It would raise [TypeError], from adding the axis to the
    string of the message. *)
Definition get_axis_values (d : Data) (axis : Axis) : result axis_values :=
  if axis_eqb axis AxisTime then Ok (DateValues (convert_times (times d)))
  else if axis_eqb axis AxisMonth then Ok (DateValues (convert_times (months d)))
  else if axis_eqb axis AxisYear then Ok (DateValues (convert_times (years d)))
  else if axis_eqb axis AxisOffset then Ok (OffsetValues (offsets d))
  else if axis_eqb axis AxisNo then Ok (IntValues [0%Z])
  else if is_location_like axis then
    if axis_eqb axis AxisLocation then Ok (IntValues (py_range (length (locations d))))
    else if axis_eqb axis AxisLocationId then Ok (IntValues (get_location_ids d))
    else if axis_eqb axis AxisElev then Ok (FloatValues (get_elevs d))
    else if axis_eqb axis AxisLat then Ok (FloatValues (get_lats d))
    else if axis_eqb axis AxisLon then Ok (FloatValues (get_lons d))
    else Err TypeError
  else Ok (IntValues [0%Z]).

(** [get_axis_size] (lines 278-279). *)
Definition get_axis_size (d : Data) (axis : Axis) : result nat :=
  values <- get_axis_values d axis ;; Ok (len_values values).

(** [get_axis_locator] (lines 311-334). *)
Definition get_axis_locator (d : Data) (axis : Axis) : result Locator :=
  if axis_eqb axis AxisOffset then
    values <- get_axis_values d AxisOffset ;;
    offsets <- match values with
               | OffsetValues v => Ok v
               | _ => Err TypeError
               end ;;
    hi <- py_max offsets ;;
    lo <- py_min offsets ;;
    let span := (hi - lo)%Qc in
    if Qc_ltb (qc 300) span then Ok AutoLocator
    else if Qc_ltb (qc 200) span then Ok (MultipleLocator 48)
    else if Qc_ltb (qc 144) span then Ok (MultipleLocator 24)
    else if Qc_ltb (qc 72) span then Ok (MultipleLocator 12)
    else if Qc_ltb (qc 36) span then Ok (MultipleLocator 6)
    else if Qc_ltb (qc 12) span then Ok (MultipleLocator 3)
    else Ok (MultipleLocator 1)
  else Ok AutoLocator.

End AxisValues.

(** ** Vocabulary for the properties of the accessors *)

(** A value held at no more than one position of a list. *)
Definition once {A} (x : A) (l : list A) : Prop :=
  forall j j', nth_error l j = Some x -> nth_error l j' = Some x -> j = j'.

(** The items of [raw] at the positions [I], in the order of [I]. *)
Definition read_at {A} (raw : list A) (I : list nat) : result (list A) :=
  mapM (getitem raw) I.

(** Sorted, repeats allowed. *)
Definition nondecreasing {A : Type} `{DimOrd A} (l : list A) : Prop :=
  StronglySorted (fun x y => dleb x y = true) l.

(** The states a dataset goes through: the one [__init__] returns, and
    the one each successful [_get_score] leaves. *)
Inductive reachable (d : Data) (st0 : State) : State -> Prop :=
| reach_start : reachable d st0 st0
| reach_get_score (st st' : State) (field : Field) (input_index : nat) (a : nd3 float) :
    reachable d st0 st ->
    _get_score d field input_index st = Ok (a, st') ->
    reachable d st0 st'.

(** The number of rounds of the second loop of [_get_common_indices]
    for one file, [len(I)]. *)
Definition rounds {A : Type} `{DimOrd A} (values temp : list A) : nat :=
  length (np_where (np_in1d temp values)).

(** Two inputs that agree on everything but their [obs] and [fcst]
    arrays. *)
Definition same_axes (a b : Input) : Prop :=
  input_name a = input_name b
  /\ input_times a = input_times b
  /\ input_offsets a = input_offsets b
  /\ input_locations a = input_locations b
  /\ input_thresholds a = input_thresholds b
  /\ input_quantiles a = input_quantiles b
  /\ input_variables a = input_variables b
  /\ input_ensemble a = input_ensemble b
  /\ input_threshold_scores a = input_threshold_scores b
  /\ input_quantile_scores a = input_quantile_scores b.

(** The bounds the latitude and longitude filter uses: the range given,
    or the whole globe. *)
Definition lat_bounds (lat_range : option (float * float)) : float * float :=
  match lat_range with
  | Some r => r
  | None => (of_int (-90), of_int 90)
  end.

Definition lon_bounds (lon_range : option (float * float)) : float * float :=
  match lon_range with
  | Some r => r
  | None => (of_int (-180), of_int 180)
  end.

(** No file holds a value of the dimension's common set at more than
    one position. *)
Definition held_once (files : list Input) (name : dim)
    (aux : option (list (dim_value name))) : Prop :=
  forall values file v,
    @common_values _ (dim_ord name) (map (raw_values name) files) aux = Ok values ->
    In file files -> In v values -> once v (raw_values name file).

(** The fields [_get_score] reads with an index array,
    [input.threshold_scores[:, :, :, I]] and
    [input.quantile_scores[:, :, :, I]]: numpy keeps the indexed axis,
    of length one, so the arrays of these fields have four axes. *)
Definition keeps_fourth_axis (field : Field) : bool :=
  match field with
  | Threshold _ | Quantile _ => true
  | _ => false
  end.

(** ** A small dataset

    Two inputs that overlap on two of their three times, with two
    offsets and the same two locations listed in different orders; a
    third input serves as climatology. *)

Definition loc_a : Location :=
  {| loc_id := 1; loc_lat := of_int 60; loc_lon := of_int 10; loc_elev := of_int 100 |}.

Definition loc_b : Location :=
  {| loc_id := 2; loc_lat := of_int 70; loc_lon := of_int 20; loc_elev := of_int 500 |}.

Definition rat (n : Z) (d : positive) : float := of_ratio n d.

Definition input_A : Input :=
  {| input_name := "A";
     input_times := [100; 200; 300]%Z;
     input_offsets := [Q2Qc 0; Q2Qc 1];
     input_locations := [loc_a; loc_b];
     input_thresholds := [Q2Qc 1];
     input_quantiles := [];
     input_variables := [Obs; Fcst; Threshold (Q2Qc 1)];
     input_obs := array3 [ [ [rat 1 1; rat 2 1]; [rat 3 1; rat 4 1] ];
                           [ [rat 5 1; NaN];   [rat 7 1; rat 8 1] ];
                           [ [rat 9 1; rat 1 2]; [rat 1 4; rat 3 1] ] ];
     input_fcst := array3 [ [ [rat 1 1; rat 1 1]; [rat 1 1; rat 1 1] ];
                            [ [rat 6 1; rat 7 1]; [rat 8 1; rat 9 1] ];
                            [ [rat 2 1; rat 3 1]; [Inf false; rat 5 1] ] ];
     input_ensemble := [];
     input_threshold_scores := [array3 [ [ [rat 0 1; rat 0 1]; [rat 0 1; rat 0 1] ];
                                         [ [rat 1 1; rat 0 1]; [rat 1 1; rat 1 1] ];
                                         [ [rat 0 1; rat 1 1]; [rat 1 1; rat 0 1] ] ] ];
     input_quantile_scores := [] |}.

Definition input_B : Input :=
  {| input_name := "B";
     input_times := [400; 300; 200]%Z;
     input_offsets := [Q2Qc 0; Q2Qc 1];
     input_locations := [loc_b; loc_a];
     input_thresholds := [Q2Qc 1];
     input_quantiles := [];
     input_variables := [Obs; Fcst; Threshold (Q2Qc 1)];
     input_obs := array3 [ [ [rat 1 1; rat 1 1]; [rat 1 1; rat 1 1] ];
                           [ [rat 2 1; rat 9 1]; [rat 3 1; rat 1 4] ];
                           [ [rat 4 1; rat 5 1]; [rat 8 1; rat 7 1] ] ];
     input_fcst := array3 [ [ [rat 0 1; rat 0 1]; [rat 0 1; rat 0 1] ];
                            [ [rat 3 1; rat 2 1]; [rat 5 1; rat 4 1] ];
                            [ [rat 7 1; rat 6 1]; [rat 9 1; NaN] ] ];
     input_ensemble := [];
     input_threshold_scores := [array3 [ [ [rat 0 1; rat 0 1]; [rat 0 1; rat 0 1] ];
                                         [ [rat 1 1; rat 0 1]; [rat 1 1; rat 1 1] ];
                                         [ [rat 0 1; rat 1 1]; [rat 1 1; rat 0 1] ] ] ];
     input_quantile_scores := [] |}.

Definition input_clim : Input :=
  {| input_name := "clim";
     input_times := [200; 300]%Z;
     input_offsets := [Q2Qc 0; Q2Qc 1];
     input_locations := [loc_a; loc_b];
     input_thresholds := [Q2Qc 1];
     input_quantiles := [];
     input_variables := [Obs; Fcst];
     input_obs := array3 [ [ [rat 1 1; rat 1 1]; [rat 1 1; rat 1 1] ];
                           [ [rat 1 1; rat 1 1]; [rat 1 1; rat 1 1] ] ];
     input_fcst := array3 [ [ [rat 1 1; rat 1 1]; [rat 2 1; rat 2 1] ];
                            [ [rat 1 2; rat 1 2]; [rat 1 1; rat 1 1] ] ];
     input_ensemble := [];
     input_threshold_scores := [];
     input_quantile_scores := [] |}.

(** [Data([A, B])] and [Data([A, B], clim=...)] with the defaults. *)
Definition build (inputs : list Input) (clim : option Input) : result (Data * State) :=
  __init__ inputs None None None None None None clim "subtract" None true Obs Fcst.

(** One time, three offsets, one location: a series that starts with a
    missing value, and one with a missing value in the middle. *)
Definition series_nan_first : nd3 float := array3 [ [ [NaN]; [rat 3 10]; [rat 2 5] ] ].
Definition series_nan_inside : nd3 float := array3 [ [ [rat 3 10]; [NaN]; [rat 2 5] ] ].
Definition offsets_012 : list Qc := [Q2Qc 0; Q2Qc 1; Q2Qc 2].

(** The datasets built from the inputs above. *)
Definition empty_state : State := {| _inputs := []; _cache := [] |}.

Definition empty_data : Data :=
  {| _remove_missing_across_all := true; _legend := None;
     _obs_field := Obs; _fcst_field := Fcst; _clim := false; _clim_type := "subtract";
     _timesI := []; _offsetsI := []; _locationsI := [];
     times := []; offsets := []; locations := []; thresholds := []; quantiles := [];
     months := []; years := []; num_inputs := 0 |}.

Definition built (res : result (Data * State)) : Data * State :=
  match res with
  | Ok p => p
  | Err _ => (empty_data, empty_state)
  end.

Definition data_AB : Data := fst (built (build [input_A; input_B] None)).
Definition state_AB : State := snd (built (build [input_A; input_B] None)).
Definition data_AB_clim : Data := fst (built (build [input_A; input_B] (Some input_clim))).
Definition state_AB_clim : State := snd (built (build [input_A; input_B] (Some input_clim))).

Definition loaded (res : result State) : State :=
  match res with
  | Ok st => st
  | Err _ => empty_state
  end.

Definition after_call {A} (res : result (A * State)) : State :=
  match res with
  | Ok (_, st) => st
  | Err _ => empty_state
  end.

(** A float as a rational, for display. *)
Definition finite_value (x : float) : option Q :=
  match x with
  | Fin q => Some (this q)
  | _ => None
  end.

Definition flat_values (x : ndarray float) : list (option Q) :=
  match x with
  | A1 v => map finite_value v
  | A3 a => map finite_value (flatten a)
  end.

(** An input whose only observation is missing. *)
Definition input_nan : Input :=
  {| input_name := "N";
     input_times := [100]%Z;
     input_offsets := [Q2Qc 0];
     input_locations := [loc_a];
     input_thresholds := [];
     input_quantiles := [];
     input_variables := [Obs; Fcst];
     input_obs := array3 [ [ [NaN] ] ];
     input_fcst := array3 [ [ [rat 1 1] ] ];
     input_ensemble := [];
     input_threshold_scores := [];
     input_quantile_scores := [] |}.

Definition data_nan : Data := fst (built (build [input_nan] None)).
Definition state_nan : State := snd (built (build [input_nan] None)).

(** The parts of a call's result. *)
Definition value_of {A} (default : A) (res : result (A * State)) : A :=
  match res with
  | Ok (a, _) => a
  | Err _ => default
  end.

Definition values_of {A} (res : result (A * State)) : result A :=
  match res with
  | Ok (a, _) => Ok a
  | Err e => Err e
  end.

Definition slice_of (res : result (option (ndarray float))) : list float :=
  match res with
  | Ok (Some (A1 v)) => v
  | _ => []
  end.

(** The observations loaded into the caches of the dataset [A, B]. *)
Definition state_AB_obs_loaded : State := loaded (load_all data_AB (alias data_AB Obs) state_AB).

(** The call [get_scores([Fcst, Obs], 0, Time, 0)] on the dataset [A, B]. *)
Definition slices_AB_call : result (list (list float) * State) :=
  load_slices data_AB 0 AxisTime 0 [Fcst; Obs] state_AB.

(** The call [get_scores([Fcst], 0, Time, 0)] on the dataset with
    climatology: the climatology is the input of index 2. *)
Definition clim_call : result (nd3 float * State) :=
  _get_score data_AB_clim Fcst 2 state_AB_clim.
Definition clim_array : nd3 float := value_of (array3 []) clim_call.
Definition state_after_clim : State := after_call clim_call.
Definition clim_slice : list float := slice_of (axis_slice data_AB_clim AxisTime 0 clim_array).
Definition slices_clim_call : result (list (list float) * State) :=
  load_slices data_AB_clim 0 AxisTime 0 [Fcst] state_after_clim.

(** The call [get_scores([Obs], 0, Time, 0)] on the dataset whose only
    observation is missing. *)
Definition slices_nan_call : result (list (list float) * State) :=
  load_slices data_nan 0 AxisTime 0 [Obs] state_nan.

(** An input that holds the time 100 twice. *)
Definition input_dup : Input :=
  {| input_name := "D";
     input_times := [100; 100; 200]%Z;
     input_offsets := input_offsets input_A;
     input_locations := input_locations input_A;
     input_thresholds := input_thresholds input_A;
     input_quantiles := input_quantiles input_A;
     input_variables := input_variables input_A;
     input_obs := input_obs input_A;
     input_fcst := input_fcst input_A;
     input_ensemble := input_ensemble input_A;
     input_threshold_scores := input_threshold_scores input_A;
     input_quantile_scores := input_quantile_scores input_A |}.

(** [Data([A, B], lat_range=(65, 90))]: only the location at latitude
    70 is kept. *)
Definition north : option (float * float) := Some (of_int 65, of_int 90).

Definition build_north : result (Data * State) :=
  __init__ [input_A; input_B] None None None north None None None "subtract" None
    true Obs Fcst.

Definition data_north : Data := fst (built build_north).
Definition state_north : State := snd (built build_north).

(** The state of the dataset [A, B] after its observations have been
    asked for. *)
Definition obs_call : result (nd3 float * State) := _get_score data_AB Obs 0 state_AB.
Definition state_AB_after_obs : State := after_call obs_call.

(** A stand-in for [verif.util.convert_times]: the times as floats. *)
Definition plain_dates (times0 : list Z) : list float := map of_int times0.


(** Two inputs without a common time that both list the location 1
    twice. *)
Definition input_X : Input :=
  {| input_name := "X";
     input_times := [100]%Z;
     input_offsets := [Q2Qc 0];
     input_locations := [loc_a; loc_a];
     input_thresholds := [];
     input_quantiles := [];
     input_variables := [Obs; Fcst];
     input_obs := array3 [ [ [rat 1 1; rat 2 1] ] ];
     input_fcst := array3 [ [ [rat 1 1; rat 1 1] ] ];
     input_ensemble := [];
     input_threshold_scores := [];
     input_quantile_scores := [] |}.

Definition input_Y : Input :=
  {| input_name := "Y";
     input_times := [200]%Z;
     input_offsets := [Q2Qc 0];
     input_locations := [loc_a; loc_a];
     input_thresholds := [];
     input_quantiles := [];
     input_variables := [Obs; Fcst];
     input_obs := array3 [ [ [rat 3 1; rat 4 1] ] ];
     input_fcst := array3 [ [ [rat 2 1; rat 2 1] ] ];
     input_ensemble := [];
     input_threshold_scores := [];
     input_quantile_scores := [] |}.

(** * Properties *)

(** ** Evaluations of the examples *)

Example build_A_B_times :
  match build [input_A; input_B] None with
  | Ok (d, _) => (times d, map loc_id (locations d), months d, years d, num_inputs d)
  | Err _ => ([], [], [], [], 0)
  end = ([200; 300]%Z, [1; 2]%Z, [200; 300]%Z, [200; 300]%Z, 2).
Proof. vm_compute. reflexivity. Qed.

Example months_2020 :
  _get_months [1579068000; 1584230400; 1580515200]%Z
  = Ok [1577858400; 1580515200; 1583020800]%Z.
Proof. vm_compute. reflexivity. Qed.

Example build_A_B : build [input_A; input_B] None = Ok (data_AB, state_AB).
Proof. reflexivity. Qed.

Example build_A_B_clim :
  build [input_A; input_B] (Some input_clim) = Ok (data_AB_clim, state_AB_clim).
Proof. reflexivity. Qed.

Example build_nan : build [input_nan] None = Ok (data_nan, state_nan).
Proof. reflexivity. Qed.

(** ** Facts about the numpy functions *)

Section Numpy1dFacts.
Context {A : Type} `{DimOrd A}.

Lemma contains_In (b : list A) (x : A) : contains b x = true <-> In x b.
Proof.
  unfold contains. rewrite existsb_exists. split.
  - intros [y [Hy Heq]]. apply deqb_eq in Heq. now subst.
  - intros Hx. exists x. split; [exact Hx | now apply deqb_eq].
Qed.

Lemma contains_false (b : list A) (x : A) : contains b x = false <-> ~ In x b.
Proof.
  rewrite <- contains_In. destruct (contains b x); split; congruence.
Qed.

Lemma deqb_refl (x : A) : deqb x x = true.
Proof. now apply deqb_eq. Qed.

Lemma deqb_neq (x y : A) : deqb x y = false <-> x <> y.
Proof.
  rewrite <- deqb_eq. destruct (deqb x y); split; congruence.
Qed.

Lemma insert_sorted_In (x y : A) (l : list A) :
  In y (insert_sorted x l) <-> y = x \/ In y l.
Proof.
  induction l as [| z l IH]; simpl.
  - intuition congruence.
  - destruct (dleb x z); simpl; rewrite ?IH; intuition congruence.
Qed.

Lemma np_sort_In (x : A) (l : list A) : In x (np_sort l) <-> In x l.
Proof.
  induction l as [| y l IH]; simpl.
  - reflexivity.
  - rewrite insert_sorted_In, IH. intuition congruence.
Qed.

Lemma insert_sorted_ascending (x : A) (l : list A) :
  ascending l -> ~ In x l -> ascending (insert_sorted x l).
Proof.
  unfold ascending. induction l as [| y l IH]; intros Hs Hx; simpl.
  - constructor; constructor.
  - apply StronglySorted_inv in Hs. destruct Hs as [Hl Hy].
    destruct (dleb x y) eqn:Hxy.
    + constructor.
      * constructor; assumption.
      * constructor.
        -- split; [exact Hxy |]. intros ->. apply Hx. now left.
        -- rewrite Forall_forall in *. intros z Hz. specialize (Hy z Hz).
           split.
           ++ apply dleb_trans with y; tauto.
           ++ intros ->. apply Hx. now right.
    + constructor.
      * apply IH; [exact Hl |]. intros Hin. apply Hx. now right.
      * rewrite Forall_forall in *. intros z Hz.
        apply insert_sorted_In in Hz. destruct Hz as [-> | Hz].
        -- split.
           ++ destruct (dleb_total x y) as [Hc | Hc]; congruence.
           ++ intros ->. apply Hx. now left.
        -- now apply Hy.
Qed.

Lemma np_sort_ascending (l : list A) : NoDup l -> ascending (np_sort l).
Proof.
  induction 1 as [| x l Hx Hl IH]; simpl.
  - constructor.
  - apply insert_sorted_ascending; [exact IH |]. now rewrite np_sort_In.
Qed.

Lemma ascending_NoDup (l : list A) : ascending l -> NoDup l.
Proof.
  unfold ascending. induction 1 as [| x l Hl IH Hx]; constructor.
  - intros Hin. rewrite Forall_forall in Hx. destruct (Hx x Hin) as [_ Hne].
    now apply Hne.
  - exact IH.
Qed.

(** Two ascending lists with the same values are the same list. *)
Lemma ascending_unique (l l' : list A) :
  ascending l -> ascending l' -> (forall x, In x l <-> In x l') -> l = l'.
Proof.
  unfold ascending. intros Hl. revert l'.
  induction Hl as [| x l Hl IH Hx]; intros l' Hl' Hin.
  - destruct l' as [| y l']; [reflexivity |].
    exfalso. apply (Hin y). now left.
  - destruct Hl' as [| y l' Hl' Hy].
    { exfalso. apply (Hin x). now left. }
    rewrite Forall_forall in Hx, Hy.
    assert (Hxy : x = y).
    { destruct (proj1 (Hin x) (or_introl eq_refl)) as [E | Hx'];
        [now symmetry |].
      destruct (proj2 (Hin y) (or_introl eq_refl)) as [E | Hy'];
        [exact E |].
      apply dleb_antisym; [apply Hx, Hy' | apply Hy, Hx']. }
    subst y. f_equal. apply IH; [exact Hl' |].
    intros z. split; intros Hz.
    + destruct (proj1 (Hin z) (or_intror Hz)) as [E | Hz']; [| exact Hz'].
      subst z. exfalso. now apply (Hx x Hz).
    + destruct (proj2 (Hin z) (or_intror Hz)) as [E | Hz']; [| exact Hz'].
      subst z. exfalso. now apply (Hy x Hz).
Qed.

Lemma drop_repeats_In (x : A) (l : list A) : In x (drop_repeats l) <-> In x l.
Proof.
  induction l as [| y l IH]; simpl.
  - reflexivity.
  - destruct (contains l y) eqn:Hc; simpl; rewrite IH.
    + apply contains_In in Hc. split; [tauto |].
      intros [-> | Hx]; assumption.
    + reflexivity.
Qed.

Lemma drop_repeats_NoDup (l : list A) : NoDup (drop_repeats l).
Proof.
  induction l as [| y l IH]; simpl.
  - constructor.
  - destruct (contains l y) eqn:Hc; [exact IH |].
    constructor; [| exact IH].
    rewrite drop_repeats_In. now apply contains_false.
Qed.

Lemma np_unique_In (x : A) (l : list A) : In x (np_unique l) <-> In x l.
Proof. unfold np_unique. now rewrite np_sort_In, drop_repeats_In. Qed.

Lemma np_unique_ascending (l : list A) : ascending (np_unique l).
Proof. apply np_sort_ascending, drop_repeats_NoDup. Qed.

Lemma np_intersect1d_In (x : A) (a b : list A) :
  In x (np_intersect1d a b) <-> In x a /\ In x b.
Proof.
  unfold np_intersect1d. now rewrite np_unique_In, filter_In, contains_In.
Qed.

Lemma np_intersect1d_ascending (a b : list A) : ascending (np_intersect1d a b).
Proof. apply np_unique_ascending. Qed.

End Numpy1dFacts.

Lemma bind_Ok {A B} (r : result A) (k : A -> result B) (b : B) :
  bind r k = Ok b -> exists a, r = Ok a /\ k a = Ok b.
Proof. destruct r as [a | e]; simpl; [eauto | discriminate]. Qed.

Lemma mapM_length {A B} (f : A -> result B) (l : list A) (bs : list B) :
  mapM f l = Ok bs -> length bs = length l.
Proof.
  revert bs. induction l as [| a l IH]; simpl; intros bs Hm.
  - now inversion Hm.
  - apply bind_Ok in Hm. destruct Hm as [b [_ Hm]].
    apply bind_Ok in Hm. destruct Hm as [bs' [Hbs Hm]].
    inversion Hm. simpl. f_equal. now apply IH.
Qed.

Lemma mapM_map_Ok {A B} (f : A -> result B) (g : A -> B) (l : list A) :
  (forall a, In a l -> f a = Ok (g a)) -> mapM f l = Ok (map g l).
Proof.
  induction l as [| a l IH]; simpl; intros Hf; [reflexivity |].
  rewrite Hf by now left. simpl. rewrite IH; [reflexivity |].
  intros b Hb. apply Hf. now right.
Qed.

Lemma mapM_nth_error {A B} (f : A -> result B) (l : list A) (bs : list B) (i : nat) (a : A) :
  mapM f l = Ok bs -> nth_error l i = Some a ->
  exists b, nth_error bs i = Some b /\ f a = Ok b.
Proof.
  revert bs i. induction l as [| x l IH]; simpl; intros bs i Hm Hi.
  - destruct i; discriminate.
  - apply bind_Ok in Hm. destruct Hm as [b [Hb Hm]].
    apply bind_Ok in Hm. destruct Hm as [bs' [Hbs Hm]].
    inversion Hm; subst bs. destruct i as [| i]; simpl in *.
    + inversion Hi; subst. eauto.
    + eapply IH; eauto.
Qed.

(** A loop over [range(len(l))] that reads [l[i]] is a loop over [l]. *)
Lemma mapM_range_getitem {A B} (F : A -> result B) (pre l : list A) :
  mapM (fun i => v <- getitem (pre ++ l) i ;; F v) (seq (length pre) (length l))
  = mapM F l.
Proof.
  revert pre. induction l as [| a l IH]; intros pre; simpl; [reflexivity |].
  unfold getitem at 1. rewrite nth_error_app2 by lia.
  rewrite Nat.sub_diag. simpl.
  replace (pre ++ a :: l) with ((pre ++ [a]) ++ l) by now rewrite <- app_assoc.
  specialize (IH (pre ++ [a])). rewrite length_app in IH. simpl in IH.
  rewrite Nat.add_1_r in IH. now rewrite IH.
Qed.

Lemma where_from_length (i : nat) (mask : list bool) :
  length (where_from i mask) = length (filter (fun b => b) mask).
Proof.
  revert i. induction mask as [| b mask IH]; intros i; simpl; [reflexivity |].
  destruct b; simpl; now rewrite IH.
Qed.

Lemma filter_map_length {A} (p : A -> bool) (l : list A) :
  length (filter (fun b => b) (map p l)) = length (filter p l).
Proof.
  induction l as [| a l IH]; simpl; [reflexivity |].
  destruct (p a); simpl; now rewrite IH.
Qed.

Section IntersectorFacts.
Context {A : Type} `{DimOrd A}.

Lemma where_from_absent (i : nat) (v : A) (temp : list A) :
  ~ In v temp -> where_from i (map (deqb v) temp) = [].
Proof.
  revert i. induction temp as [| x temp IH]; intros i Hv; simpl; [reflexivity |].
  assert (Hx : deqb v x = false).
  { apply deqb_neq. intros ->. apply Hv. now left. }
  rewrite Hx. apply IH. intros Hin. apply Hv. now right.
Qed.

Lemma where_from_single (i : nat) (v : A) (temp : list A) :
  NoDup temp -> In v temp ->
  exists j, where_from i (map (deqb v) temp) = [i + j]
            /\ nth_error temp j = Some v.
Proof.
  intros Hnd. revert i. induction Hnd as [| x temp Hx Hnd IH]; intros i Hv.
  - destruct Hv.
  - simpl. destruct (deqb v x) eqn:Hvx.
    + apply deqb_eq in Hvx. subst x. exists 0.
      rewrite where_from_absent by exact Hx. now rewrite Nat.add_0_r.
    + destruct Hv as [-> | Hv].
      { rewrite deqb_refl in Hvx. discriminate. }
      destruct (IH (S i) Hv) as [j [Hw Hj]]. exists (S j).
      rewrite Hw. split; [f_equal; lia | exact Hj].
Qed.

(** With duplicate-free data the index loop of one file succeeds, and
    reading the file's values at the indices gives the common values. *)
Lemma index_array_ok (values temp : list A) :
  NoDup temp -> NoDup values -> incl values temp ->
  exists II, index_array values temp = Ok II
             /\ mapM (getitem temp) II = Ok values.
Proof.
  intros Ht Hv Hincl. unfold index_array.
  assert (Hlen : length (np_where (np_in1d temp values)) = length values).
  { unfold np_where, np_in1d. rewrite where_from_length, filter_map_length.
    apply Permutation_length, NoDup_Permutation.
    - now apply NoDup_filter.
    - exact Hv.
    - intros x. rewrite filter_In, contains_In. split; [tauto |].
      intros Hx. split; [now apply Hincl | exact Hx]. }
  rewrite Hlen.
  rewrite (mapM_range_getitem
             (fun v => match np_where (map (deqb v) temp) with
                       | [j] => Ok j
                       | _ => Err ValueError
                       end) [] values).
  clear Hlen Hv. induction values as [| v values IH]; simpl.
  - exists []. split; reflexivity.
  - destruct IH as [II [HII Hget]].
    { intros x Hx. apply Hincl. now right. }
    destruct (@where_from_single 0 v temp Ht (Hincl v (or_introl eq_refl)))
      as [j [Hw Hj]].
    fold (np_where (map (deqb v) temp)) in Hw.
    rewrite Hw. simpl. rewrite HII. simpl.
    exists (j :: II). split; [reflexivity |].
    simpl. unfold getitem at 1. rewrite Hj. simpl. now rewrite Hget.
Qed.

(** What the first loop leaves in [values]. *)
Lemma fold_common_step_Some (raws : list (list A)) (v : list A) :
  exists w, fold_left common_step raws (Some v) = Some w
            /\ (forall x, In x w <-> In x v /\ forall r, In r raws -> In x r)
            /\ (NoDup v \/ raws <> [] -> NoDup w).
Proof.
  revert v. induction raws as [| r raws IH]; intros v; simpl.
  - exists v. split; [reflexivity |]. split.
    + intros x. split; [| tauto]. intros Hx. split; [exact Hx | tauto].
    + intros [Hv | Hne]; [exact Hv | congruence].
  - destruct (IH (np_intersect1d v r)) as [w [Hw [Hin Hnd]]].
    exists w. split; [exact Hw |]. split.
    + intros x. rewrite Hin, np_intersect1d_In. split.
      * intros [[Hv Hr] Hall]. split; [exact Hv |].
        intros r' [<- | Hr']; [exact Hr | now apply Hall].
      * intros [Hv Hall]. split; [split; [exact Hv |] |].
        -- apply Hall. now left.
        -- intros r' Hr'. apply Hall. now right.
    + intros _. apply Hnd. left.
      apply ascending_NoDup, np_intersect1d_ascending.
Qed.

Lemma common_values_ok (raws : list (list A)) (aux : option (list A)) :
  raws <> [] -> Forall (@NoDup A) raws ->
  exists values, common_values raws aux = Ok values
    /\ ascending values
    /\ (forall x, In x values <->
          (forall r, In r raws -> In x r)
          /\ (forall a, aux = Some a -> In x a)).
Proof.
  intros Hne Hnd. unfold common_values.
  destruct aux as [a |].
  - destruct (fold_common_step_Some raws a) as [w [Hw [Hin Hw_nd]]].
    rewrite Hw. exists (np_sort w). split; [reflexivity |]. split.
    + apply np_sort_ascending, Hw_nd. now right.
    + intros x. rewrite np_sort_In, Hin. split.
      * intros [Ha Hall]. split; [exact Hall |]. intros a' E.
        inversion E; subst a'. exact Ha.
      * intros [Hall Ha]. split; [now apply Ha | exact Hall].
  - destruct raws as [| r raws]; [congruence |]. simpl.
    destruct (fold_common_step_Some raws r) as [w [Hw [Hin Hw_nd]]].
    rewrite Hw. exists (np_sort w). split; [reflexivity |]. split.
    + apply np_sort_ascending, Hw_nd. left. now inversion Hnd.
    + intros x. rewrite np_sort_In, Hin. split.
      * intros [Hr Hall]. split; [| discriminate].
        intros r' [<- | Hr']; [exact Hr | now apply Hall].
      * intros [Hall _]. split.
        -- apply Hall. now left.
        -- intros r' Hr'. apply Hall. now right.
Qed.

Lemma common_indices_ok (raws : list (list A)) (aux : option (list A)) :
  raws <> [] -> Forall (@NoDup A) raws ->
  exists values indices,
    common_values raws aux = Ok values
    /\ common_indices raws aux = Ok indices
    /\ Forall2 (fun temp II => mapM (getitem temp) II = Ok values) raws indices.
Proof.
  intros Hne Hnd.
  destruct (common_values_ok aux Hne Hnd) as [values [Hv [Hasc Hin]]].
  exists values. unfold common_indices. rewrite Hv. simpl.
  assert (Hsub : forall r, In r raws -> incl values r).
  { intros r Hr x Hx. destruct (proj1 (Hin x) Hx) as [Hall _]. now apply Hall. }
  clear Hv Hin Hne. induction raws as [| r raws IH]; simpl.
  - exists []. repeat split; constructor.
  - inversion Hnd as [| ? ? Hr Hnd']; subst.
    destruct (@index_array_ok values r Hr (ascending_NoDup Hasc)) as [II [HII Hget]].
    { apply Hsub. now left. }
    destruct (IH Hnd') as [indices [_ [Hidx Hall]]].
    { intros r' Hr'. apply Hsub. now right. }
    rewrite HII. simpl. rewrite Hidx. simpl.
    exists (II :: indices). repeat split. now constructor.
Qed.

End IntersectorFacts.

(** ** The index intersector *)

Lemma get_common_indices_spec
    (files : list Input) (name : dim) (aux : option (list (dim_value name))) :
  files <> [] ->
  Forall (fun file => NoDup (raw_values name file)) files ->
  exists values indices,
    @common_values _ (dim_ord name) (map (raw_values name) files) aux = Ok values
    /\ @ascending _ (dim_ord name) values
    /\ (forall x, In x values <->
          (forall file, In file files -> In x (raw_values name file))
          /\ (forall a, aux = Some a -> In x a))
    /\ _get_common_indices files name aux = Ok indices
    /\ Forall2 (fun file II => mapM (getitem (raw_values name file)) II = Ok values)
               files indices.
Proof.
  intros Hne Hnd.
  assert (Hne' : map (raw_values name) files <> []).
  { destruct files; [congruence | discriminate]. }
  assert (Hnd' : Forall (@NoDup _) (map (raw_values name) files)).
  { rewrite Forall_forall in *. intros l Hl. apply in_map_iff in Hl.
    destruct Hl as [file [<- Hfile]]. now apply Hnd. }
  destruct (@common_values_ok _ (dim_ord name) _ aux Hne' Hnd')
    as [values [Hv [Hasc Hin]]].
  destruct (@common_indices_ok _ (dim_ord name) _ aux Hne' Hnd')
    as [values' [indices [Hv' [Hidx Hall]]]].
  rewrite Hv in Hv'. inversion Hv'; subst values'.
  exists values, indices.
  split; [exact Hv |]. split; [exact Hasc |]. split; [| split; [exact Hidx |]].
  - intros x. rewrite Hin. split; intros [Hall' Haux]; (split; [| exact Haux]).
    + intros file Hfile. apply Hall'. apply in_map, Hfile.
    + intros l Hl. apply in_map_iff in Hl. destruct Hl as [file [<- Hfile]].
      now apply Hall'.
  - clear -Hall. remember (map (raw_values name) files) as raws eqn:E.
    revert files E. induction Hall as [| l II raws indices Hl Hall IH];
      intros files E.
    + destruct files; [constructor | discriminate].
    + destruct files as [| file files]; [discriminate |].
      inversion E; subst. constructor; [exact Hl | now apply IH].
Qed.

(** C1.  For inputs whose raw values of a dimension hold no duplicates,
    [_get_common_indices] succeeds; the common values are exactly the
    values present in every input (and in [aux], when it is given), in
    strictly ascending order; and reading any input's raw values at its
    index array gives the common values, in their order. *)
Theorem get_common_indices_exact_intersection
    (files : list Input) (name : dim) (aux : option (list (dim_value name))) :
  files <> [] ->
  Forall (fun file => NoDup (raw_values name file)) files ->
  exists values indices,
    @common_values _ (dim_ord name) (map (raw_values name) files) aux = Ok values
    /\ @ascending _ (dim_ord name) values
    /\ (forall x, In x values <->
          (forall file, In file files -> In x (raw_values name file))
          /\ (forall a, aux = Some a -> In x a))
    /\ _get_common_indices files name aux = Ok indices
    /\ Forall2 (fun file II => mapM (getitem (raw_values name file)) II = Ok values)
               files indices.
Proof. apply get_common_indices_spec. Qed.

Lemma get_common_indices_exact_intersection_witness :
  exists values indices,
    @common_values _ (dim_ord DimTime) (map (raw_values DimTime) [input_A; input_B]) None
      = Ok values
    /\ @ascending _ (dim_ord DimTime) values
    /\ (forall x, In x values <->
          (forall file, In file [input_A; input_B] -> In x (raw_values DimTime file))
          /\ (forall a, None = Some a -> In x a))
    /\ _get_common_indices [input_A; input_B] DimTime None = Ok indices
    /\ Forall2 (fun file II => mapM (getitem (raw_values DimTime file)) II = Ok values)
               [input_A; input_B] indices.
Proof.
  apply (@get_common_indices_exact_intersection [input_A; input_B] DimTime None).
  - discriminate.
  - repeat constructor; simpl; intuition discriminate.
Defined.

Example common_times_A_B :
  _get_common_indices [input_A; input_B] DimTime None = Ok [[1; 2]; [2; 1]].
Proof. reflexivity. Qed.

(** ** Construction *)

(** For up to 256 inputs the legend check compares the two counts. *)
Lemma check_legend_small (inputs : list Input) (lg : list string) :
  length inputs <= 256 ->
  (check_legend inputs (Some lg) = Ok tt <-> length inputs = length lg).
Proof.
  intros Hsmall. unfold check_legend, int_is.
  destruct (Nat.eqb_spec (length inputs) (length lg)) as [E | E];
    destruct (Nat.leb_spec (length inputs) 256) as [L | L]; simpl;
    split; intros; try lia; try discriminate; try reflexivity.
Qed.

(** C9.  With 257 inputs and 257 legend entries the counts are equal,
    and construction still stops with the legend error: [len(inputs) is
    not len(legend)] compares the identity of two integer objects. *)
Theorem legend_check_rejects_equal_counts_above_256 :
  length (repeat input_A 257) = length (repeat "run"%string 257)
  /\ __init__ (repeat input_A 257) None None None None None None None
       "subtract" (Some (repeat "run"%string 257)) true Obs Fcst
     = Err (UtilError "Need one legend entry for each filename").
Proof. split; vm_compute; reflexivity. Qed.

(** Without an elevation range, the ids that pass the latitude and
    longitude ranges are those of the first input's locations inside
    both ranges; no other input is read. *)
Lemma latlon_filter_first_input_only
    (first : Input) (others others' : list Input) (locations : option (list Z))
    (lat_range lon_range : option (float * float)) :
  latlon_filter (first :: others) locations lat_range lon_range
  = latlon_filter (first :: others') locations lat_range lon_range.
Proof. unfold latlon_filter. destruct lat_range, lon_range; reflexivity. Qed.

Lemma latlon_filter_inside
    (first : Input) (others : list Input) (lat_range lon_range : option (float * float))
    (use : list Z) :
  lat_range <> None \/ lon_range <> None ->
  latlon_filter (first :: others) None lat_range lon_range = Ok use ->
  forall id, In id use <->
    exists loc, In loc (input_locations first) /\ loc_id loc = id
      /\ in_range (fst (match lat_range with Some rg => rg | None => (of_int (-90), of_int 90) end))
                  (snd (match lat_range with Some rg => rg | None => (of_int (-90), of_int 90) end))
                  (loc_lat loc) = true
      /\ in_range (fst (match lon_range with Some rg => rg | None => (of_int (-180), of_int 180) end))
                  (snd (match lon_range with Some rg => rg | None => (of_int (-180), of_int 180) end))
                  (loc_lon loc) = true.
Proof.
  intros Hgiven Hf id. unfold latlon_filter in Hf.
  assert (Hgen : forall la lo,
    (let '(min_lat, max_lat) := la in
     let '(min_lon, max_lon) := lo in
     if Nat.eqb (length (map loc_id (filter (fun loc =>
          in_range min_lat max_lat (loc_lat loc) && in_range min_lon max_lon (loc_lon loc))
          (input_locations first)))) 0
     then Err (UtilError "No available locations within lat/lon range")
     else Ok (map loc_id (filter (fun loc =>
          in_range min_lat max_lat (loc_lat loc) && in_range min_lon max_lon (loc_lon loc))
          (input_locations first)))) = Ok use ->
    In id use <-> exists loc, In loc (input_locations first) /\ loc_id loc = id
      /\ in_range (fst la) (snd la) (loc_lat loc) = true
      /\ in_range (fst lo) (snd lo) (loc_lon loc) = true).
  { intros [a b] [c d] Hu. simpl.
    destruct (Nat.eqb _ 0); [discriminate |]. inversion Hu; subst use.
    rewrite in_map_iff. split.
    - intros [loc [Hid Hloc]]. apply filter_In in Hloc.
      destruct Hloc as [Hloc Hin]. apply andb_true_iff in Hin.
      exists loc. tauto.
    - intros [loc [Hloc [Hid [Hla Hlo]]]]. exists loc. split; [exact Hid |].
      apply filter_In. split; [exact Hloc |]. now rewrite Hla, Hlo. }
  destruct lat_range as [la |], lon_range as [lo |]; simpl in Hf.
  - now apply (Hgen la lo).
  - now apply (Hgen la (of_int (-180), of_int 180)).
  - now apply (Hgen (of_int (-90), of_int 90) lo).
  - destruct Hgiven; congruence.
Qed.

(** C10.  With an elevation range and a first input that has a
    location, construction raises [TypeError]: the elevation loop calls
    [locations[i].elev()] and [locations[i].id()], while [elev] and [id]
    are plain attributes everywhere else in the class. *)
Theorem elevation_range_raises_TypeError :
  in_range (of_int 0) (of_int 1000) (loc_elev loc_a) = true
  /\ __init__ [input_A] None None None None None (Some (of_int 0, of_int 1000))
       None "subtract" None true Obs Fcst
     = Err TypeError.
Proof. split; vm_compute; reflexivity. Qed.

(** The same happens for every first input with at least one location. *)
Lemma elev_filter_raises (first : Input) (others : list Input) (use : list Z)
    (elev_range : float * float) :
  input_locations first <> [] ->
  elev_filter (first :: others) use (Some elev_range) = Err TypeError.
Proof.
  intros Hne. unfold elev_filter. destruct elev_range as [lo hi]. simpl.
  destruct (input_locations first) as [| loc locs]; [congruence |].
  simpl. assert (Hfold : forall l,
    fold_left (fun acc loc0 =>
       elev_locations <- acc ;;
       curr_elev <- call_float (loc_elev loc0) ;;
       id <- call_int (loc_id loc0) ;;
       (if in_range lo hi curr_elev then Ok (elev_locations ++ [id]) else Ok elev_locations))
      l (Err TypeError) = Err TypeError).
  { induction l as [| x l IH]; simpl; [reflexivity | exact IH]. }
  rewrite Hfold. reflexivity.
Qed.

Lemma get_common_indices_first
    (first : Input) (rest : list Input) (name : dim) (aux : option (list (dim_value name))) :
  Forall (fun file => NoDup (raw_values name file)) (first :: rest) ->
  exists values II idx,
    @common_values _ (dim_ord name) (map (raw_values name) (first :: rest)) aux = Ok values
    /\ _get_common_indices (first :: rest) name aux = Ok (II :: idx)
    /\ mapM (getitem (raw_values name first)) II = Ok values
    /\ Forall2 (fun file II' => mapM (getitem (raw_values name file)) II' = Ok values)
               rest idx.
Proof.
  intros Hnd.
  destruct (@get_common_indices_spec (first :: rest) name aux) as
    [values [indices [Hv [_ [_ [Hidx Hall]]]]]]; [discriminate | exact Hnd |].
  inversion Hall as [| ? II ? idx HII Hrest]; subst.
  exists values, II, idx. tauto.
Qed.

Lemma mapM_getitem_map {A B} (f : A -> B) (l : list A) (I : list nat) (bs : list B) :
  mapM (getitem (map f l)) I = Ok bs ->
  exists xs, mapM (getitem l) I = Ok xs /\ map f xs = bs.
Proof.
  revert bs. induction I as [| i I IH]; simpl; intros bs Hm.
  - inversion Hm. exists []. split; reflexivity.
  - apply bind_Ok in Hm. destruct Hm as [b [Hb Hm]].
    apply bind_Ok in Hm. destruct Hm as [bs' [Hbs Hm]]. inversion Hm; subst bs.
    destruct (IH bs' Hbs) as [xs [Hxs Hmap]].
    unfold getitem in Hb. rewrite nth_error_map in Hb.
    destruct (nth_error l i) as [a |] eqn:Ha; simpl in Hb; [| discriminate].
    inversion Hb; subst b. exists (a :: xs). split.
    + simpl. unfold getitem at 1. rewrite Ha. simpl. now rewrite Hxs.
    + simpl. now rewrite Hmap.
Qed.

Lemma mapM_total {A B} (f : A -> result B) (l : list A) :
  (forall a, In a l -> exists b, f a = Ok b) -> exists bs, mapM f l = Ok bs.
Proof.
  induction l as [| a l IH]; simpl; intros Hf.
  - exists []. reflexivity.
  - destruct (Hf a (or_introl eq_refl)) as [b Hb].
    destruct IH as [bs Hbs]. { intros x Hx. apply Hf. now right. }
    rewrite Hb. simpl. rewrite Hbs. simpl. eauto.
Qed.

Lemma sorted_common_total (raw : list Qc) (raws : list (list Qc)) :
  exists v, sorted_common (raw :: raws) = Ok v.
Proof.
  unfold sorted_common. simpl.
  assert (Hs : forall l a, exists w, fold_left set_step l (Some a) = Some w).
  { induction l as [| x l IH]; intros a; simpl; [eauto | apply IH]. }
  destruct (Hs raws raw) as [w Hw]. rewrite Hw. eauto.
Qed.

Lemma is_empty_first_values {A} (raw values : list A) (II : list nat) (idx : list (list nat)) :
  mapM (getitem raw) II = Ok values ->
  is_empty_first (II :: idx) = Ok (match values with [] => true | _ => false end).
Proof.
  intros Hm. apply mapM_length in Hm. unfold is_empty_first. simpl.
  destruct values, II; simpl in *; try discriminate; reflexivity.
Qed.

Lemma Qc_neq_by_eqb (x y : Qc) : Qc_eqb x y = false -> x <> y.
Proof. intros Hf E. apply Qc_eqb_eq in E. congruence. Qed.

(** Closes [NoDup l] for a literal list of integers or rationals. *)
Ltac literal_NoDup :=
  repeat constructor; simpl;
  repeat (let E := fresh "E" in intros [E | E]; [revert E | revert E]);
  try tauto;
  first [ discriminate | apply not_eq_sym, Qc_neq_by_eqb; reflexivity
        | apply Qc_neq_by_eqb; reflexivity ].

(** ** Order of floats *)

Lemma Qc_ltb_lt (x y : Qc) : Qc_ltb x y = true <-> (x < y)%Qc.
Proof.
  unfold Qc_ltb. rewrite negb_true_iff. split.
  - intros Hf. apply Qcnot_le_lt. intros Hle. apply Qc_leb_le in Hle. congruence.
  - intros Hlt. destruct (Qc_leb y x) eqn:E; [| reflexivity].
    apply Qc_leb_le in E. exfalso. exact (Qclt_not_le _ _ Hlt E).
Qed.

Lemma flt_not_nan (x y : float) : flt x y = true -> isnan x = false /\ isnan y = false.
Proof. destruct x, y; simpl; intros Hf; try discriminate; split; reflexivity. Qed.

Lemma flt_negb_fle (x y : float) :
  isnan x = false -> isnan y = false -> flt x y = negb (fle y x).
Proof. destruct x, y; simpl; intros; try discriminate; reflexivity. Qed.

Lemma flt_trans (x y z : float) : flt x y = true -> flt y z = true -> flt x z = true.
Proof.
  destruct x as [| [|] | a], y as [| [|] | b], z as [| [|] | c]; simpl;
    intros Hxy Hyz; try discriminate; try reflexivity.
  fold (Qc_ltb a b) in Hxy. fold (Qc_ltb b c) in Hyz. fold (Qc_ltb a c).
  rewrite Qc_ltb_lt in *. now apply Qclt_trans with b.
Qed.

(** ** The window transform *)

Lemma cumsum_from_ext (a b : nd3 float) (t o l n : nat) :
  (forall o', o <= o' -> item b t o' l = item a t o' l) ->
  cumsum_from b t o l n = cumsum_from a t o l n.
Proof.
  intros Hext. induction n as [| n IH]; simpl.
  - apply Hext. lia.
  - rewrite IH. f_equal. apply Hext. lia.
Qed.

Lemma window_index_ext (a b : nd3 float) (O t o l : nat) :
  (forall o', o <= o' -> item b t o' l = item a t o' l) ->
  window_index b O t o l = window_index a O t o l.
Proof.
  intros Hext. unfold window_index, count_below.
  rewrite (filter_ext _ (fun n => fle (cumsum_from a t o l n) half)); [reflexivity |].
  intros n. f_equal. apply cumsum_from_ext. exact Hext.
Qed.

Lemma window_index_lt (a : nd3 float) (O t o l : nat) :
  0 < O -> window_index a O t o l < O.
Proof.
  intros HO. unfold window_index.
  destruct (Nat.leb_spec O (count_below a O t o l + o)); lia.
Qed.

(** After the rounds for the offsets below [m], those offsets hold
    their window values and the others are untouched. *)
Lemma window_loop (a : nd3 float) (offsets : list Qc) (m : nat) :
  m <= dimO a -> dimO a <= length offsets ->
  exists b,
    fold_left (window_step offsets (dimO a)) (seq 0 m) (Ok a) = Ok b
    /\ shape b = shape a
    /\ forall t o l, item b t o l
         = if Nat.ltb o m then window_value a offsets t o l else item a t o l.
Proof.
  intros Hm Hlen. induction m as [| m IH].
  - exists a. simpl. repeat split.
  - destruct IH as [b [Hb [Hshape Hitem]]]; [lia |].
    rewrite seq_S, fold_left_app, Hb. simpl.
    assert (Hcheck :
      Nat.ltb m (length offsets)
      && forallb (fun t => forallb
           (fun l => Nat.ltb (window_index b (dimO a) t m l) (length offsets))
           (seq 0 (dimL b))) (seq 0 (dimT b)) = true).
    { apply andb_true_iff. split; [apply Nat.ltb_lt; lia |].
      apply forallb_forall. intros t _. apply forallb_forall. intros l _.
      apply Nat.ltb_lt.
      pose proof (window_index_lt b t m l (O:=dimO a)). lia. }
    rewrite Hcheck. eexists. split; [reflexivity |]. split; [exact Hshape |].
    intros t o l. simpl.
    destruct (Nat.eqb_spec o m) as [-> | Hne].
    + replace (Nat.ltb m (S m)) with true by (symmetry; apply Nat.ltb_lt; lia).
      unfold window_value. f_equal. f_equal. f_equal.
      apply window_index_ext. intros o' Ho'. rewrite Hitem.
      replace (Nat.ltb o' m) with false by (symmetry; apply Nat.ltb_ge; lia).
      reflexivity.
    + rewrite Hitem. destruct (Nat.ltb_spec o m), (Nat.ltb_spec o (S m));
        try lia; reflexivity.
Qed.

Lemma shape_eqb_refl (s : nat * nat * nat) : shape_eqb s s = true.
Proof. destruct s as [[t o] l]. simpl. now rewrite !Nat.eqb_refl. Qed.

Lemma shape_eqb_eq (s s' : nat * nat * nat) : shape_eqb s s' = true <-> s = s'.
Proof.
  destruct s as [[t o] l], s' as [[t' o'] l']. simpl.
  rewrite !andb_true_iff, !Nat.eqb_eq. split.
  - intros [[-> ->] ->]. reflexivity.
  - intros E. inversion E. tauto.
Qed.

(** What [_calculate_window] returns, item by item. *)
Lemma calculate_window_items (a : nd3 float) (offsets : list Qc) :
  dimO a <= length offsets ->
  exists out,
    _calculate_window a offsets = Ok out
    /\ shape out = shape a
    /\ forall t o l, item out t o l
         = if isnan (item a t o l) then NaN
           else if Nat.ltb o (dimO a) then window_value a offsets t o l
           else item a t o l.
Proof.
  intros Hlen.
  destruct (@window_loop a offsets (dimO a) (le_n _) Hlen) as [b [Hb [Hshape Hitem]]].
  unfold _calculate_window. rewrite Hb. simpl. unfold set_nan_where. simpl.
  rewrite Hshape, shape_eqb_refl.
  eexists. split; [reflexivity |]. split; [reflexivity |].
  intros t o l. simpl. now rewrite Hitem.
Qed.

Lemma filter_none {A} (p : A -> bool) (l : list A) :
  (forall x, In x l -> p x = false) -> filter p l = [].
Proof.
  induction l as [| x l IH]; simpl; intros Hp; [reflexivity |].
  rewrite Hp by now left. apply IH. intros y Hy. apply Hp. now right.
Qed.

Lemma filter_seq_prefix (p : nat -> bool) (k N : nat) :
  k <= N ->
  (forall n, n < k -> p n = true) ->
  (forall n, k <= n -> n < N -> p n = false) ->
  length (filter p (seq 0 N)) = k.
Proof.
  intros HkN Hlow Hhigh.
  replace N with (k + (N - k)) by lia.
  rewrite seq_app, filter_app, length_app.
  rewrite (forallb_filter_id p (seq 0 k)).
  - rewrite length_seq.
    assert (Hnil : filter p (seq (0 + k) (N - k)) = []).
    { apply filter_none. intros n Hn. apply in_seq in Hn. apply Hhigh; lia. }
    rewrite Hnil. simpl. lia.
  - apply forallb_forall. intros n Hn. apply in_seq in Hn. apply Hlow. lia.
Qed.

Lemma count_below_crossing (a : nd3 float) (t o l k : nat) :
  o + k <= dimO a ->
  isnan (item a t o l) = false ->
  (forall n, o + S n < dimO a ->
     flt (cumsum_from a t o l n) (cumsum_from a t o l (S n)) = true) ->
  (forall n, n < k -> flt half (cumsum_from a t o l n) = false) ->
  (o + k < dimO a -> flt half (cumsum_from a t o l k) = true) ->
  count_below a (dimO a) t o l = k.
Proof.
  intros Hk Hnan Hinc Hlow Hcross. unfold count_below.
  assert (Hnn : forall n, o + n < dimO a -> isnan (cumsum_from a t o l n) = false).
  { intros [| n] Hn; [exact Hnan |].
    apply (flt_not_nan (cumsum_from a t o l n)). apply Hinc. lia. }
  assert (Hhigh : forall n, k <= n -> o + n < dimO a ->
            flt half (cumsum_from a t o l n) = true).
  { intros n Hkn. induction Hkn as [| n Hkn IH]; intros Hn.
    - apply Hcross. exact Hn.
    - apply flt_trans with (cumsum_from a t o l n).
      + apply IH. lia.
      + apply Hinc. exact Hn. }
  apply filter_seq_prefix; [lia | |].
  - intros n Hn. specialize (Hlow n Hn).
    rewrite flt_negb_fle in Hlow; [| reflexivity | apply Hnn; lia].
    now apply negb_false_iff in Hlow.
  - intros n Hkn Hn. specialize (Hhigh n Hkn ltac:(lia)).
    rewrite flt_negb_fle in Hhigh; [| reflexivity | apply Hnn; lia].
    now apply negb_true_iff in Hhigh.
Qed.

(** The window at an origin whose running sums cross the threshold. *)
Lemma window_crossing_value (a : nd3 float) (offsets : list Qc) :
  dimO a <= length offsets ->
  exists out,
    _calculate_window a offsets = Ok out
    /\ shape out = shape a
    /\ (forall t o l, isnan (item a t o l) = true -> isnan (item out t o l) = true)
    /\ (forall t o l k,
          o < dimO a -> o + k <= dimO a ->
          isnan (item a t o l) = false ->
          (forall n, o + S n < dimO a ->
             flt (cumsum_from a t o l n) (cumsum_from a t o l (S n)) = true) ->
          (forall n, n < k -> flt half (cumsum_from a t o l n) = false) ->
          (o + k < dimO a -> flt half (cumsum_from a t o l k) = true) ->
          item out t o l
          = Fin (nth (Nat.min (o + k) (dimO a - 1)) offsets 0%Qc - nth o offsets 0%Qc)%Qc).
Proof.
  intros Hlen.
  destruct (calculate_window_items a offsets Hlen) as [out [Hout [Hshape Hitem]]].
  exists out. split; [exact Hout |]. split; [exact Hshape |]. split.
  - intros t o l Hnan. now rewrite Hitem, Hnan.
  - intros t o l k Ho Hk Hnan Hinc Hlow Hcross.
    rewrite Hitem, Hnan.
    replace (Nat.ltb o (dimO a)) with true by (symmetry; now apply Nat.ltb_lt).
    unfold window_value, window_index.
    rewrite (count_below_crossing a t o l Hk Hnan Hinc Hlow Hcross).
    f_equal. f_equal. f_equal.
    destruct (Nat.leb_spec (dimO a) (k + o)); lia.
Qed.

(** C4.  When [offsets] has an entry for every offset index of the
    array, the window transform returns an array of the same shape;
    every not-a-number item stays not-a-number; and at an origin [o]
    that is not missing, if the running sums from [o] (plain [np.cumsum],
    in which a missing item makes every later sum missing) increase
    strictly and first exceed 0.5 at step [k] (or never, [k] being the
    number of offsets left), the result at [o] is
    [offsets[min(o+k, O-1)] - offsets[o]]. *)
Theorem calculate_window_crossing (a : nd3 float) (offsets : list Qc) :
  dimO a <= length offsets ->
  exists out,
    _calculate_window a offsets = Ok out
    /\ shape out = shape a
    /\ (forall t o l, isnan (item a t o l) = true -> isnan (item out t o l) = true)
    /\ (forall t o l k,
          o < dimO a -> o + k <= dimO a ->
          isnan (item a t o l) = false ->
          (forall n, o + S n < dimO a ->
             flt (cumsum_from a t o l n) (cumsum_from a t o l (S n)) = true) ->
          (forall n, n < k -> flt half (cumsum_from a t o l n) = false) ->
          (o + k < dimO a -> flt half (cumsum_from a t o l k) = true) ->
          item out t o l
          = Fin (nth (Nat.min (o + k) (dimO a - 1)) offsets 0%Qc - nth o offsets 0%Qc)%Qc).
Proof. apply window_crossing_value. Qed.

Lemma calculate_window_crossing_witness :
  exists out,
    _calculate_window (input_obs input_A) (input_offsets input_A) = Ok out
    /\ shape out = shape (input_obs input_A)
    /\ (forall t o l, isnan (item (input_obs input_A) t o l) = true ->
                      isnan (item out t o l) = true)
    /\ (forall t o l k,
          o < dimO (input_obs input_A) -> o + k <= dimO (input_obs input_A) ->
          isnan (item (input_obs input_A) t o l) = false ->
          (forall n, o + S n < dimO (input_obs input_A) ->
             flt (cumsum_from (input_obs input_A) t o l n)
                 (cumsum_from (input_obs input_A) t o l (S n)) = true) ->
          (forall n, n < k -> flt half (cumsum_from (input_obs input_A) t o l n) = false) ->
          (o + k < dimO (input_obs input_A) ->
             flt half (cumsum_from (input_obs input_A) t o l k) = true) ->
          item out t o l
          = Fin (nth (Nat.min (o + k) (dimO (input_obs input_A) - 1))
                     (input_offsets input_A) 0%Qc
                 - nth o (input_offsets input_A) 0%Qc)%Qc).
Proof.
  apply (calculate_window_crossing (input_obs input_A) (input_offsets input_A)).
  vm_compute. lia.
Defined.

(** In input A at the last time and second location the observations
    are 1/2 then 3: the running sum first exceeds 0.5 at step 1, and the
    window is [offsets[1] - offsets[0]]. *)
Example window_of_input_A :
  exists out,
    _calculate_window (input_obs input_A) (input_offsets input_A) = Ok out
    /\ item out 2 0 1 = Fin (Q2Qc 1 - Q2Qc 0)%Qc.
Proof.
  destruct (@window_crossing_value (input_obs input_A) (input_offsets input_A))
    as [out [Hout [_ [_ Hcross]]]]; [vm_compute; lia |].
  exists out. split; [exact Hout |].
  change (dimO (input_obs input_A)) with 2 in Hcross.
  apply (Hcross 2 0 1 1).
  - lia.
  - lia.
  - reflexivity.
  - intros [| n] Hn; [reflexivity | lia].
  - intros n Hn. assert (n = 0) by lia. subst n. reflexivity.
  - intros _. reflexivity.
Qed.

(** C4, as stated, fails at an origin that is missing: skipping the
    missing value, the running sums 0, 3/10, 7/10 increase strictly and
    first exceed 0.5 at step 2, yet the result at the origin is
    not-a-number, not [offsets[2] - offsets[0]]. *)
Lemma window_nan_aware_counterexample :
  flt (nancumsum_from series_nan_first 0 0 0 0) (nancumsum_from series_nan_first 0 0 0 1) = true
  /\ flt (nancumsum_from series_nan_first 0 0 0 1) (nancumsum_from series_nan_first 0 0 0 2) = true
  /\ flt half (nancumsum_from series_nan_first 0 0 0 0) = false
  /\ flt half (nancumsum_from series_nan_first 0 0 0 1) = false
  /\ flt half (nancumsum_from series_nan_first 0 0 0 2) = true
  /\ exists out,
       _calculate_window series_nan_first offsets_012 = Ok out
       /\ item out 0 0 0 = NaN
       /\ item out 0 0 0
          <> Fin (nth (Nat.min (0 + 2) (dimO series_nan_first - 1)) offsets_012 0%Qc
                  - nth 0 offsets_012 0%Qc)%Qc.
Proof.
  repeat (split; [reflexivity |]).
  destruct (@calculate_window_items series_nan_first offsets_012)
    as [out [Hout [_ Hitem]]]; [vm_compute; lia |].
  exists out. split; [exact Hout |].
  rewrite Hitem. simpl. split; [reflexivity | discriminate].
Qed.

(** The plain running sum stops counting at a missing value inside the
    series: 3/10, missing, 2/5 gives a window of one step, where sums
    that skip the missing value would cross 0.5 only at step 2. *)
Example window_stops_at_missing_value :
  flt half (nancumsum_from series_nan_inside 0 0 0 1) = false
  /\ flt half (nancumsum_from series_nan_inside 0 0 0 2) = true
  /\ exists out,
       _calculate_window series_nan_inside offsets_012 = Ok out
       /\ item out 0 0 0 = Fin (Q2Qc 1 - Q2Qc 0)%Qc.
Proof.
  repeat (split; [reflexivity |]).
  destruct (@calculate_window_items series_nan_inside offsets_012)
    as [out [Hout [_ Hitem]]]; [vm_compute; lia |].
  exists out. split; [exact Hout |].
  rewrite Hitem. reflexivity.
Qed.

(** ** Dictionaries and lists *)

Lemma field_eqb_eq (f g : Field) : field_eqb f g = true <-> f = g.
Proof.
  destruct f, g; simpl; split; intros E; try discriminate; try reflexivity;
    try (apply Nat.eqb_eq in E; now subst);
    try (apply Qc_eqb_eq in E; now subst);
    inversion E; subst; try apply Nat.eqb_refl; now apply Qc_eqb_eq.
Qed.

Lemma field_eqb_refl (f : Field) : field_eqb f f = true.
Proof. now apply field_eqb_eq. Qed.

Lemma field_eqb_neq (f g : Field) : field_eqb f g = false <-> f <> g.
Proof.
  rewrite <- field_eqb_eq. destruct (field_eqb f g); split; congruence.
Qed.

Lemma dict_get_set_same (f : Field) (a : nd3 float) (c : list (Field * nd3 float)) :
  dict_get f (dict_set f a c) = Some a.
Proof. unfold dict_get, dict_set. simpl. now rewrite field_eqb_refl. Qed.

Lemma dict_get_set_other (f g : Field) (a : nd3 float) (c : list (Field * nd3 float)) :
  g <> f -> dict_get g (dict_set f a c) = dict_get g c.
Proof.
  intros Hne. unfold dict_get, dict_set. simpl.
  rewrite (proj2 (field_eqb_neq g f) Hne).
  induction c as [| [h b] c IH]; simpl; [reflexivity |].
  destruct (field_eqb f h) eqn:Efh; simpl.
  - apply field_eqb_eq in Efh. subst h.
    rewrite (proj2 (field_eqb_neq g f) Hne). exact IH.
  - destruct (field_eqb g h); [reflexivity | exact IH].
Qed.

Lemma length_set_nth {A} (i : nat) (x : A) (l : list A) :
  length (set_nth i x l) = length l.
Proof.
  revert i. induction l as [| y l IH]; intros [| i]; simpl; try reflexivity.
  now rewrite IH.
Qed.

Lemma nth_error_set_nth_same {A} (i : nat) (x : A) (l : list A) :
  i < length l -> nth_error (set_nth i x l) i = Some x.
Proof.
  revert i. induction l as [| y l IH]; intros [| i] Hi; simpl in *; try lia.
  - reflexivity.
  - apply IH. lia.
Qed.

Lemma nth_error_set_nth_other {A} (i j : nat) (x : A) (l : list A) :
  j <> i -> nth_error (set_nth i x l) j = nth_error l j.
Proof.
  revert i j. induction l as [| y l IH]; intros [| i] [| j] Hne; simpl;
    try reflexivity; try congruence.
  apply IH. congruence.
Qed.

Lemma getitem_Ok {A} (l : list A) (i : nat) (a : A) :
  getitem l i = Ok a <-> nth_error l i = Some a.
Proof.
  unfold getitem. destruct (nth_error l i); split; intros E;
    inversion E; reflexivity.
Qed.

Lemma getitem_lt {A} (l : list A) (i : nat) (a : A) :
  getitem l i = Ok a -> i < length l.
Proof.
  intros E. apply getitem_Ok in E. apply nth_error_Some. congruence.
Qed.

Lemma getitem_In {A} (l : list A) (i : nat) (a : A) :
  getitem l i = Ok a -> In a l.
Proof. intros E. apply getitem_Ok in E. eapply nth_error_In, E. Qed.

Lemma getitem_total {A} (l : list A) (i : nat) :
  i < length l -> exists a, getitem l i = Ok a.
Proof.
  intros Hi. unfold getitem. destruct (nth_error l i) eqn:E; [eauto |].
  apply nth_error_None in E. lia.
Qed.

(** Reading the cache after one entry was stored. *)
Lemma cached_store_same (st : State) (inputs' : list Input) (i : nat) (f : Field)
    (a : nd3 float) (c : list (Field * nd3 float)) :
  i < length (_cache st) ->
  cached {| _inputs := inputs'; _cache := set_nth i (dict_set f a c) (_cache st) |} i f
  = Ok a.
Proof.
  intros Hi. unfold cached. simpl. unfold getitem.
  rewrite nth_error_set_nth_same by exact Hi. simpl.
  unfold dict_getitem. now rewrite dict_get_set_same.
Qed.

Lemma cached_store_other (st : State) (inputs' : list Input) (i j : nat) (f g : Field)
    (a : nd3 float) (c : list (Field * nd3 float)) :
  getitem (_cache st) i = Ok c ->
  j <> i \/ g <> f ->
  cached {| _inputs := inputs'; _cache := set_nth i (dict_set f a c) (_cache st) |} j g
  = cached st j g.
Proof.
  intros Hc Hne. unfold cached. simpl.
  destruct (Nat.eq_dec j i) as [-> | Hji].
  - destruct Hne as [Hne | Hne]; [congruence |].
    unfold getitem at 1. rewrite nth_error_set_nth_same by (eapply getitem_lt, Hc).
    rewrite Hc. simpl. unfold dict_getitem. now rewrite dict_get_set_other.
  - unfold getitem. now rewrite nth_error_set_nth_other.
Qed.

(** ** Loading a field into the caches *)

Lemma trim_shape (d : Data) (i : nat) (temp a : nd3 float) :
  trim d i temp = Ok a ->
  exists It Io Il,
    getitem (_timesI d) i = Ok It /\ getitem (_offsetsI d) i = Ok Io
    /\ getitem (_locationsI d) i = Ok Il
    /\ shape a = (length It, length Io, length Il).
Proof.
  unfold trim. intros Ht.
  apply bind_Ok in Ht. destruct Ht as [It [HIt Ht]].
  apply bind_Ok in Ht. destruct Ht as [Io [HIo Ht]].
  apply bind_Ok in Ht. destruct Ht as [Il [HIl Ht]].
  apply bind_Ok in Ht. destruct Ht as [a1 [Ha1 Ht]].
  apply bind_Ok in Ht. destruct Ht as [a2 [Ha2 Ha3]].
  exists It, Io, Il. repeat (split; [assumption |]).
  unfold take_times in Ha1. destruct (index_ok _ It); [| discriminate].
  inversion Ha1; subst a1; clear Ha1.
  unfold take_offsets in Ha2. destruct (index_ok _ Io); [| discriminate].
  inversion Ha2; subst a2; clear Ha2.
  unfold take_locations in Ha3. destruct (index_ok _ Il); [| discriminate].
  inversion Ha3; subst a; clear Ha3. reflexivity.
Qed.

Lemma load_input_spec (d : Data) (f : Field) (st st' : State) (i : nat) :
  load_input d f (Ok st) i = Ok st' ->
  length (_cache st') = length (_cache st)
  /\ length (_inputs st') = length (_inputs st)
  /\ (exists a, cached st' i f = Ok a)
  /\ (forall j g, j <> i \/ g <> f -> cached st' j g = cached st j g)
  /\ (forall a, cached st' i f = Ok a ->
        cached st i f = Ok a
        \/ exists It Io Il,
             getitem (_timesI d) i = Ok It /\ getitem (_offsetsI d) i = Ok Io
             /\ getitem (_locationsI d) i = Ok Il
             /\ shape a = (length It, length Io, length Il)).
Proof.
  unfold load_input. cbn [bind]. intros Hl.
  destruct (getitem (_cache st) i) as [c |] eqn:Hc; [| discriminate]. cbn [bind] in Hl.
  destruct (dict_get f c) as [a0 |] eqn:Hf.
  - inversion Hl; subst st'. repeat split; try reflexivity.
    + exists a0. unfold cached. rewrite Hc. simpl. unfold dict_getitem. now rewrite Hf.
    + intros a Ha. now left.
  - destruct (getitem (_inputs st) i) as [input |] eqn:Hin; [| discriminate].
    cbn [bind] in Hl.
    destruct (negb _); [discriminate |].
    destruct (select_array f input) as [[temp input'] |] eqn:Hsel; [| discriminate].
    cbn [bind] in Hl.
    destruct (trim d i temp) as [a1 |] eqn:Htrim; [| discriminate].
    cbn [bind] in Hl. inversion Hl; subst st'; clear Hl.
    pose proof (getitem_lt _ _ Hc) as Hi.
    split; [simpl; apply length_set_nth |].
    split; [simpl; apply length_set_nth |].
    split; [exists a1; now apply cached_store_same |].
    split.
    + intros j g Hne. now apply cached_store_other.
    + intros a Ha. right. rewrite cached_store_same in Ha by exact Hi.
      inversion Ha; subst a. eapply trim_shape, Htrim.
Qed.

Lemma load_prefix (d : Data) (f : Field) (st : State) (m : nat) (st_m : State) :
  fold_left (load_input d f) (seq 0 m) (Ok st) = Ok st_m ->
  length (_cache st_m) = length (_cache st)
  /\ length (_inputs st_m) = length (_inputs st)
  /\ (forall j, j < m -> exists a, cached st_m j f = Ok a)
  /\ (forall j g, m <= j \/ g <> f -> cached st_m j g = cached st j g)
  /\ (forall j a, cached st_m j f = Ok a ->
        cached st j f = Ok a
        \/ exists It Io Il,
             getitem (_timesI d) j = Ok It /\ getitem (_offsetsI d) j = Ok Io
             /\ getitem (_locationsI d) j = Ok Il
             /\ shape a = (length It, length Io, length Il)).
Proof.
  revert st_m. induction m as [| m IH]; intros st_m Hfold.
  - simpl in Hfold. inversion Hfold; subst st_m.
    repeat split; try reflexivity; try lia. intros j a Ha. now left.
  - rewrite seq_S, fold_left_app in Hfold. simpl in Hfold.
    destruct (fold_left (load_input d f) (seq 0 m) (Ok st)) as [st0 | e] eqn:Hpre;
      [| discriminate].
    destruct (IH st0 eq_refl) as [Hc0 [Hi0 [Hex0 [Hfr0 Hsh0]]]].
    destruct (load_input_spec _ _ _ _ Hfold) as [Hc1 [Hi1 [Hex1 [Hfr1 Hsh1]]]].
    split; [congruence |]. split; [congruence |]. split; [| split].
    + intros j Hj. destruct (Nat.eq_dec j m) as [-> | Hne]; [exact Hex1 |].
      rewrite Hfr1 by now left. apply Hex0. lia.
    + intros j g Hjg. rewrite Hfr1.
      * apply Hfr0. destruct Hjg; [left; lia | now right].
      * destruct Hjg; [left; lia | now right].
    + intros j a Ha. destruct (Nat.eq_dec j m) as [-> | Hne].
      * destruct (Hsh1 a Ha) as [Hold | Hnew]; [now apply Hsh0 | now right].
      * rewrite Hfr1 in Ha by now left. now apply Hsh0.
Qed.

Lemma aligned_shape (d : Data) (i : nat) (It Io Il : list nat) :
  aligned d ->
  getitem (_timesI d) i = Ok It -> getitem (_offsetsI d) i = Ok Io ->
  getitem (_locationsI d) i = Ok Il ->
  (length It, length Io, length Il) = canonical_shape d.
Proof.
  intros [Ht [Ho Hl]] HIt HIo HIl. unfold canonical_shape.
  rewrite Forall_forall in Ht, Ho, Hl.
  rewrite (Ht It), (Ho Io), (Hl Il); [reflexivity | | |]; eapply getitem_In; eassumption.
Qed.

(** Loading keeps the caches well formed and leaves every input with
    the field in its cache. *)
Lemma load_all_wf (d : Data) (f : Field) (st st1 : State) :
  aligned d -> cache_wf d st -> load_all d f st = Ok st1 ->
  cache_wf d st1
  /\ length (_inputs st1) = length (_inputs st)
  /\ (forall j, j < length (_inputs st) -> exists a, cached st1 j f = Ok a)
  /\ (forall j g, g <> f -> cached st1 j g = cached st j g).
Proof.
  intros Hal [Hlen Hwf] Hload. unfold load_all in Hload.
  destruct (load_prefix _ _ _ _ Hload) as [Hc [Hi [Hex [Hfr Hsh]]]].
  split; [split |]; [congruence | | split; [exact Hi | split; [exact Hex |]]].
  - intros i g a Ha. destruct (field_eqb g f) eqn:Egf.
    + apply field_eqb_eq in Egf. subst g.
      destruct (Hsh i a Ha) as [Hold | [It [Io [Il [HIt [HIo [HIl Hs]]]]]]].
      * eapply Hwf, Hold.
      * rewrite Hs. eapply aligned_shape; eassumption.
    + apply field_eqb_neq in Egf. rewrite Hfr in Ha by now right.
      eapply Hwf, Ha.
  - intros j g Hg. apply Hfr. now right.
Qed.

(** ** Propagation of missing values *)

Lemma broadcast_dim_same (n : nat) : broadcast_dim n n = Ok n.
Proof. unfold broadcast_dim. now rewrite Nat.eqb_refl. Qed.

Lemma bidx_inside (n i : nat) : i < n -> bidx n i = i.
Proof. unfold bidx. destruct (Nat.eqb_spec n 1); lia. Qed.

Lemma nd3_map2_same_shape {A B C} (f : A -> B -> C) (a : nd3 A) (b : nd3 B) :
  shape b = shape a ->
  exists c, nd3_map2 f a b = Ok c
    /\ shape c = shape a
    /\ forall t o l, inside (shape a) t o l ->
         item c t o l = f (item a t o l) (item b t o l).
Proof.
  intros Hs. unfold nd3_map2, dimT, dimO, dimL. rewrite Hs.
  rewrite !broadcast_dim_same. cbn [bind].
  eexists. split; [reflexivity |]. split.
  - simpl. now destruct (shape a) as [[t o] l].
  - intros t o l [Ht [Ho Hl]]. simpl. now rewrite !bidx_inside.
Qed.

Lemma firstn_snoc {A} (l : list A) (k : nat) (b : A) :
  nth_error l k = Some b -> firstn (S k) l = firstn k l ++ [b].
Proof.
  revert k. induction l as [| x l IH]; intros [| k] Hk; simpl in *; try discriminate.
  - now inversion Hk.
  - f_equal. now apply IH.
Qed.

Lemma mapM_range_nth {B} (F : nat -> result B) (n : nat) (bs : list B) (i : nat) :
  mapM F (seq 0 n) = Ok bs -> i < n ->
  exists b, nth_error bs i = Some b /\ F i = Ok b.
Proof.
  intros Hm Hi. apply (mapM_nth_error _ _ i Hm).
  rewrite nth_error_nth' with (d := 0) by now rewrite length_seq.
  now rewrite seq_nth.
Qed.

Section Missingness.
Variable st : State.
Variable f : Field.
Variable before : list (nd3 float).
Variable S0 : nat * nat * nat.
Hypothesis Hbefore :
  mapM (fun i => cached st i f) (seq 0 (length (_inputs st))) = Ok before.
Hypothesis Hshape : Forall (fun b => shape b = S0) before.

Let any_missing (t o l : nat) : bool :=
  existsb (fun b => isnan (item b t o l)) before.

Lemma before_length : length before = length (_inputs st).
Proof. rewrite (mapM_length _ _ Hbefore). apply length_seq. Qed.

Lemma before_nth (i : nat) :
  i < length (_inputs st) ->
  exists b, nth_error before i = Some b /\ cached st i f = Ok b /\ shape b = S0.
Proof.
  intros Hi. destruct (mapM_range_nth _ Hbefore Hi) as [b [Hb Hc]].
  exists b. repeat split; try assumption.
  rewrite Forall_forall in Hshape. eapply Hshape, nth_error_In, Hb.
Qed.

Lemma missing_prefix (k : nat) (a0 : nd3 float) :
  nth_error before 0 = Some a0 ->
  S k <= length (_inputs st) ->
  exists m,
    fold_left (missing_step st f) (seq 1 k) (Ok (nd3_map isnan a0)) = Ok m
    /\ shape m = S0
    /\ forall t o l, inside S0 t o l ->
         item m t o l = existsb (fun b => isnan (item b t o l)) (firstn (S k) before).
Proof.
  intros Ha0. induction k as [| k IH]; intros Hk.
  - exists (nd3_map isnan a0). split; [reflexivity |]. split.
    + simpl. rewrite Forall_forall in Hshape. eapply Hshape, nth_error_In, Ha0.
    + intros t o l _. destruct before as [| b0 bs]; [discriminate |].
      simpl in Ha0. inversion Ha0; subst b0. simpl. now rewrite orb_false_r.
  - destruct IH as [m [Hm [Hsm Him]]]; [lia |].
    destruct (@before_nth (S k)) as [b [Hb [Hcb Hsb]]]; [lia |].
    rewrite seq_S, fold_left_app, Hm. cbn [fold_left Nat.add].
    unfold missing_step. cbn [bind]. rewrite Hcb. cbn [bind].
    destruct (@nd3_map2_same_shape _ _ _ orb m (nd3_map isnan b)) as [c [Hc [Hsc Hic]]].
    { simpl. congruence. }
    rewrite Hc. exists c. split; [reflexivity |]. split; [congruence |].
    intros t o l Hin. rewrite Hic by (rewrite Hsm; exact Hin).
    rewrite Him by exact Hin. rewrite (@firstn_snoc _ before (S k) b Hb).
    rewrite existsb_app. simpl. now rewrite orb_false_r.
Qed.

Lemma is_missing_all_spec :
  0 < length (_inputs st) ->
  exists m,
    is_missing_all st f = Ok m
    /\ shape m = S0
    /\ forall t o l, inside S0 t o l -> item m t o l = any_missing t o l.
Proof.
  intros Hn. destruct (@before_nth 0 Hn) as [a0 [Ha0 [Hc0 _]]].
  destruct (@missing_prefix (length (_inputs st) - 1) a0 Ha0) as [m [Hm [Hsm Him]]];
    [lia |].
  unfold is_missing_all. rewrite Hc0. cbn [bind]. rewrite Hm.
  exists m. split; [reflexivity |]. split; [exact Hsm |].
  intros t o l Hin. rewrite Him by exact Hin. unfold any_missing.
  rewrite firstn_all2; [reflexivity |]. rewrite before_length. lia.
Qed.

Lemma blank_prefix (is_missing : nd3 bool) (k : nat) :
  length (_cache st) = length (_inputs st) ->
  shape is_missing = S0 ->
  k <= length (_inputs st) ->
  exists st_k,
    fold_left (blank_step f is_missing) (seq 0 k) (Ok st) = Ok st_k
    /\ _inputs st_k = _inputs st
    /\ length (_cache st_k) = length (_cache st)
    /\ (forall j g, k <= j \/ g <> f -> cached st_k j g = cached st j g)
    /\ (forall j b, j < k -> nth_error before j = Some b ->
          exists x, cached st_k j f = Ok x /\ shape x = S0
            /\ forall t o l, item x t o l
                 = if item is_missing t o l then NaN else item b t o l).
Proof.
  intros Hlen Hsm. induction k as [| k IH]; intros Hk.
  - exists st. repeat split; try reflexivity. intros j b Hj. lia.
  - destruct IH as [st_k [Hfold [Hin [Hcl [Hfr Hdone]]]]]; [lia |].
    destruct (@before_nth k) as [b [Hb [Hcb Hsb]]]; [lia |].
    rewrite seq_S, fold_left_app, Hfold. cbn [fold_left Nat.add].
    unfold blank_step. cbn [bind].
    assert (Hck : cached st_k k f = Ok b) by (rewrite Hfr; [exact Hcb | left; lia]).
    unfold cached in Hck. apply bind_Ok in Hck. destruct Hck as [c [Hc Hget]].
    rewrite Hc. cbn [bind]. rewrite Hget. cbn [bind].
    unfold set_nan_where. rewrite Hsm, Hsb, shape_eqb_refl. cbn [bind].
    eexists. split; [reflexivity |].
    pose proof (getitem_lt _ _ Hc) as Hklt.
    split; [simpl; exact Hin |]. split; [simpl; rewrite length_set_nth; exact Hcl |].
    split.
    + intros j g Hjg. rewrite cached_store_other.
      * apply Hfr. destruct Hjg; [left; lia | now right].
      * exact Hc.
      * destruct Hjg; [left; lia | now right].
    + intros j b' Hj Hb'. destruct (Nat.eq_dec j k) as [-> | Hne].
      * rewrite Hb in Hb'. inversion Hb'; subst b'.
        rewrite cached_store_same by exact Hklt.
        eexists. split; [reflexivity |]. split; [reflexivity |].
        intros t o l. reflexivity.
      * rewrite cached_store_other; [| exact Hc | now left].
        apply Hdone; [lia | exact Hb'].
Qed.

(** [remove_missing] succeeds on arrays of one shape; afterwards every
    input's array is missing exactly where some input's array was. *)
Lemma remove_missing_spec :
  length (_cache st) = length (_inputs st) ->
  0 < length (_inputs st) ->
  exists st',
    remove_missing f st = Ok st'
    /\ _inputs st' = _inputs st
    /\ length (_cache st') = length (_cache st)
    /\ (forall j g, g <> f -> cached st' j g = cached st j g)
    /\ (forall j b, nth_error before j = Some b ->
          exists x, cached st' j f = Ok x /\ shape x = S0
            /\ forall t o l, inside S0 t o l ->
                 item x t o l = if any_missing t o l then NaN else item b t o l).
Proof.
  intros Hlen Hn.
  destruct (is_missing_all_spec Hn) as [m [Hm [Hsm Him]]].
  destruct (@blank_prefix m (length (_inputs st)) Hlen Hsm (le_n _))
    as [st' [Hfold [Hin [Hcl [Hfr Hdone]]]]].
  unfold remove_missing. rewrite Hm. cbn [bind]. rewrite Hfold.
  exists st'. split; [reflexivity |]. split; [exact Hin |]. split; [exact Hcl |].
  split.
  - intros j g Hg. apply Hfr. now right.
  - intros j b Hb.
    assert (Hj : j < length (_inputs st)).
    { rewrite <- before_length. apply nth_error_Some. congruence. }
    destruct (Hdone j b Hj Hb) as [x [Hx [Hsx Hix]]].
    exists x. split; [exact Hx |]. split; [exact Hsx |].
    intros t o l Hpos. now rewrite Hix, Him.
Qed.

End Missingness.

Lemma mapM_In {A B} (F : A -> result B) (l : list A) (bs : list B) (b : B) :
  mapM F l = Ok bs -> In b bs -> exists a, In a l /\ F a = Ok b.
Proof.
  revert bs. induction l as [| x l IH]; simpl; intros bs Hm Hb.
  - inversion Hm; subst. destruct Hb.
  - apply bind_Ok in Hm. destruct Hm as [y [Hy Hm]].
    apply bind_Ok in Hm. destruct Hm as [bs' [Hbs Hm]]. inversion Hm; subst bs.
    destruct Hb as [<- | Hb]; [eauto |].
    destruct (IH bs' Hbs Hb) as [a [Ha Hfa]]. eauto.
Qed.

Lemma existsb_false_In {A} (p : A -> bool) (l : list A) (x : A) :
  existsb p l = false -> In x l -> p x = false.
Proof.
  intros He Hx. destruct (p x) eqn:E; [| reflexivity].
  assert (existsb p l = true) by (apply existsb_exists; eauto). congruence.
Qed.

(** The arrays every input holds for a field once it has been loaded. *)
Lemma loaded_arrays (d : Data) (f : Field) (st st1 : State) :
  aligned d -> cache_wf d st -> load_all d f st = Ok st1 ->
  cache_wf d st1
  /\ length (_inputs st1) = length (_inputs st)
  /\ (forall j g, g <> f -> cached st1 j g = cached st j g)
  /\ exists before,
       mapM (fun i => cached st1 i f) (seq 0 (length (_inputs st1))) = Ok before
       /\ Forall (fun b => shape b = canonical_shape d) before.
Proof.
  intros Hal Hwf Hload.
  destruct (@load_all_wf d f st st1 Hal Hwf Hload) as [Hwf1 [Hlen [Hex Hfr]]].
  split; [exact Hwf1 |]. split; [exact Hlen |]. split; [exact Hfr |].
  destruct (mapM_total (fun i => cached st1 i f) (seq 0 (length (_inputs st1))))
    as [before Hbefore].
  { intros i Hi. apply in_seq in Hi. apply Hex. lia. }
  exists before. split; [exact Hbefore |].
  apply Forall_forall. intros b Hb.
  destruct (@mapM_In _ _ _ _ before b Hbefore Hb) as [i [_ Hi]].
  destruct Hwf1 as [_ Hsh]. eapply Hsh, Hi.
Qed.

(** A cache miss with propagation switched on: the call succeeds, and
    every input's array for the field is missing exactly where some
    input's array was missing after loading. *)
Lemma get_score_propagates (d : Data) (field : Field) (k : nat) (st st1 : State)
    (c : list (Field * nd3 float)) :
  _remove_missing_across_all d = true ->
  aligned d -> cache_wf d st ->
  getitem (_cache st) k = Ok c -> dict_get field c = None ->
  load_all d (alias d field) st = Ok st1 ->
  exists before a st',
    mapM (fun i => cached st1 i (alias d field)) (seq 0 (length (_inputs st1))) = Ok before
    /\ _get_score d field k st = Ok (a, st')
    /\ cache_wf d st'
    /\ length (_inputs st') = length (_inputs st)
    /\ cached st' k (alias d field) = Ok a
    /\ forall i b, nth_error before i = Some b ->
         exists x, cached st' i (alias d field) = Ok x
           /\ shape x = canonical_shape d
           /\ forall t o l, inside (canonical_shape d) t o l ->
                isnan (item x t o l)
                = existsb (fun b' => isnan (item b' t o l)) before.
Proof.
  intros Hflag Hal Hwf Hc Hmiss Hload.
  destruct (@loaded_arrays d (alias d field) st st1 Hal Hwf Hload) as [Hwf1 [Hlen1 [Hfr1 [before [Hbefore Hshape]]]]].
  pose proof Hwf as [Hcl _]. pose proof Hwf1 as [Hcl1 Hsh1].
  assert (Hk : k < length (_inputs st1)).
  { rewrite Hlen1, <- Hcl. eapply getitem_lt, Hc. }
  destruct (@remove_missing_spec st1 (alias d field) before _ Hbefore Hshape Hcl1 ltac:(lia))
    as [st' [Hrm [Hin' [Hcl' [Hfr' Hdone]]]]].
  assert (Hbl : length before = length (_inputs st1)).
  { rewrite (mapM_length _ _ Hbefore). apply length_seq. }
  destruct (nth_error before k) as [bk |] eqn:Hbk;
    [| apply nth_error_None in Hbk; lia].
  destruct (Hdone k bk Hbk) as [a [Ha _]].
  exists before, a, st'. split; [exact Hbefore |]. split.
  { unfold _get_score. rewrite Hc. cbn [bind]. rewrite Hmiss, Hload. cbn [bind].
    rewrite Hflag, Hrm. cbn [bind]. rewrite Ha. reflexivity. }
  split.
  { split; [congruence |]. intros i g x Hx.
    destruct (field_eqb g (alias d field)) eqn:Eg.
    - apply field_eqb_eq in Eg. subst g.
      assert (Hi : i < length before).
      { rewrite Hbl, <- Hcl1, <- Hcl'. unfold cached in Hx.
        apply bind_Ok in Hx. destruct Hx as [ci [Hci _]]. eapply getitem_lt, Hci. }
      destruct (nth_error before i) as [bi |] eqn:Hbi;
        [| apply nth_error_None in Hbi; lia].
      destruct (Hdone i bi Hbi) as [y [Hy [Hsy _]]]. congruence.
    - apply field_eqb_neq in Eg. rewrite Hfr' in Hx by exact Eg. eapply Hsh1, Hx. }
  split; [congruence |]. split; [exact Ha |].
  intros i b Hb. destruct (Hdone i b Hb) as [x [Hx [Hsx Hix]]].
  exists x. split; [exact Hx |]. split; [exact Hsx |].
  intros t o l Hpos. rewrite Hix by exact Hpos.
  destruct (existsb _ before) eqn:Hany; [reflexivity |].
  apply (@existsb_false_In _ _ before b Hany). eapply nth_error_In, Hb.
Qed.

(** C3.  With propagation of missing values switched on, a call of
    [_get_score] that finds the field missing from the cache and loads
    it for every input returns, and afterwards every input's cached
    array for the field is not-a-number at exactly the positions where
    at least one input's trimmed array was not-a-number after loading:
    the masks of all inputs are the same. *)
Theorem missingness_is_shared (d : Data) (field : Field) (k : nat) (st st1 : State)
    (c : list (Field * nd3 float)) :
  _remove_missing_across_all d = true ->
  aligned d -> cache_wf d st ->
  getitem (_cache st) k = Ok c -> dict_get field c = None ->
  load_all d (alias d field) st = Ok st1 ->
  exists before a st',
    mapM (fun i => cached st1 i (alias d field)) (seq 0 (length (_inputs st1))) = Ok before
    /\ _get_score d field k st = Ok (a, st')
    /\ forall i b, nth_error before i = Some b ->
         exists x, cached st' i (alias d field) = Ok x
           /\ shape x = canonical_shape d
           /\ forall t o l, inside (canonical_shape d) t o l ->
                isnan (item x t o l)
                = existsb (fun b' => isnan (item b' t o l)) before.
Proof.
  intros Hflag Hal Hwf Hc Hmiss Hload.
  destruct (@get_score_propagates d field k st st1 c Hflag Hal Hwf Hc Hmiss Hload)
    as [before [a [st' [Hbefore [Hget [_ [_ [_ Hmask]]]]]]]].
  exists before, a, st'. auto.
Qed.

(** [_get_score] keeps the caches well formed, and what it returns has
    the canonical shape. *)
Lemma get_score_wf (d : Data) (field : Field) (k : nat) (st st' : State) (a : nd3 float) :
  aligned d -> cache_wf d st ->
  _get_score d field k st = Ok (a, st') ->
  cache_wf d st'
  /\ length (_inputs st') = length (_inputs st)
  /\ shape a = canonical_shape d.
Proof.
  intros Hal Hwf Hget. pose proof Hget as Hget0. unfold _get_score in Hget.
  destruct (getitem (_cache st) k) as [c |] eqn:Hc; [| discriminate]. cbn [bind] in Hget.
  destruct (dict_get field c) as [a0 |] eqn:Hd.
  - inversion Hget; subst a0 st'. split; [exact Hwf |]. split; [reflexivity |].
    destruct Hwf as [_ Hsh]. apply (Hsh k field). unfold cached.
    rewrite Hc. cbn [bind]. unfold dict_getitem. now rewrite Hd.
  - destruct (load_all d (alias d field) st) as [st1 |] eqn:Hload; [| discriminate].
    cbn [bind] in Hget.
    destruct (_remove_missing_across_all d) eqn:Hflag.
    + destruct (@get_score_propagates d field k st st1 c Hflag Hal Hwf Hc Hd Hload)
        as [before [a2 [st2 [_ [Hget2 [Hwf2 [Hlen2 [Hc2 _]]]]]]]].
      rewrite Hget0 in Hget2. inversion Hget2; subst a2 st2.
      split; [exact Hwf2 |]. split; [exact Hlen2 |].
      destruct Hwf2 as [_ Hsh]. eapply Hsh, Hc2.
    + cbn [bind] in Hget.
      destruct (cached st1 k (alias d field)) as [a1 |] eqn:Hc1; [| discriminate].
      cbn [bind] in Hget. inversion Hget; subst a1 st1.
      destruct (@loaded_arrays d (alias d field) st st' Hal Hwf Hload)
        as [Hwf1 [Hlen1 _]].
      split; [exact Hwf1 |]. split; [exact Hlen1 |].
      destruct Hwf1 as [_ Hsh]. eapply Hsh, Hc1.
Qed.

Lemma Forall2_mapM_length {A B} (raws : list (list A)) (idx : list (list nat))
    (values : list A) (g : B -> list A) (files : list B) :
  Forall2 (fun file II => mapM (getitem (g file)) II = Ok values) files idx ->
  Forall (fun II => length II = length values) idx.
Proof.
  induction 1 as [| file II files idx HII Hrest IH]; constructor.
  - apply mapM_length in HII. congruence.
  - exact IH.
Qed.

(** A dataset that [__init__] returns for inputs without duplicate
    dimension values satisfies the invariants. *)
Lemma init_invariants
    (inputs : list Input) (times0 : option (list Z)) (offsets0 : option (list Qc))
    (locations0 : option (list Z))
    (lat_range lon_range elev_range : option (float * float))
    (clim : option Input) (clim_type : string)
    (legend : option (list string)) (remove_missing_across_all : bool)
    (obs_field fcst_field : Field) (d : Data) (st : State) :
  __init__ inputs times0 offsets0 locations0 lat_range lon_range elev_range
    clim clim_type legend remove_missing_across_all obs_field fcst_field
  = Ok (d, st) ->
  (forall name, Forall (fun file => NoDup (raw_values name file)) (_inputs st)) ->
  aligned d /\ cache_wf d st.
Proof.
  unfold __init__. intros Hinit Hnd.
  apply bind_Ok in Hinit. destruct Hinit as [[] [_ Hinit]].
  apply bind_Ok in Hinit. destruct Hinit as [self_inputs [_ Hinit]].
  apply bind_Ok in Hinit. destruct Hinit as [use0 [_ Hinit]].
  apply bind_Ok in Hinit. destruct Hinit as [use [_ Hinit]].
  apply bind_Ok in Hinit. destruct Hinit as [timesI [HtI Hinit]].
  apply bind_Ok in Hinit. destruct Hinit as [offsetsI [HoI Hinit]].
  apply bind_Ok in Hinit. destruct Hinit as [locationsI [HlI Hinit]].
  apply bind_Ok in Hinit. destruct Hinit as [[|] [_ Hinit]]; [discriminate |].
  apply bind_Ok in Hinit. destruct Hinit as [[|] [_ Hinit]]; [discriminate |].
  apply bind_Ok in Hinit. destruct Hinit as [[|] [_ Hinit]]; [discriminate |].
  apply bind_Ok in Hinit. destruct Hinit as [first [Hfirst Hinit]].
  apply bind_Ok in Hinit. destruct Hinit as [self_times [Hst Hinit]].
  apply bind_Ok in Hinit. destruct Hinit as [self_offsets [Hso Hinit]].
  apply bind_Ok in Hinit. destruct Hinit as [self_locations [Hsl Hinit]].
  apply bind_Ok in Hinit. destruct Hinit as [self_thresholds [_ Hinit]].
  apply bind_Ok in Hinit. destruct Hinit as [self_quantiles [_ Hinit]].
  apply bind_Ok in Hinit. destruct Hinit as [self_months [_ Hinit]].
  apply bind_Ok in Hinit. destruct Hinit as [self_years [_ Hinit]].
  inversion Hinit; subst d st; clear Hinit. simpl in Hnd.
  destruct self_inputs as [| first' rest]; [discriminate |].
  simpl in Hfirst. inversion Hfirst; subst first'; clear Hfirst.
  destruct (@get_common_indices_first first rest DimTime times0 (Hnd DimTime))
    as [vt [It [idxt [_ [Hit [Hgt Hrt]]]]]].
  destruct (@get_common_indices_first first rest DimOffset offsets0 (Hnd DimOffset))
    as [vo [Io [idxo [_ [Hio [Hgo Hro]]]]]].
  destruct (@get_common_indices_first first rest DimLocation (Some use) (Hnd DimLocation))
    as [vl [Il [idxl [_ [Hil [Hgl Hrl]]]]]].
  rewrite Hit in HtI. inversion HtI; subst timesI; clear HtI.
  rewrite Hio in HoI. inversion HoI; subst offsetsI; clear HoI.
  rewrite Hil in HlI. inversion HlI; subst locationsI; clear HlI.
  unfold first_values in Hst, Hso, Hsl. cbn [bind getitem nth_error] in Hst, Hso, Hsl.
  cbv beta iota delta [raw_values dim_value] in Hgt, Hgo, Hgl.
  rewrite Hgt in Hst. inversion Hst; subst self_times; clear Hst.
  rewrite Hgo in Hso. inversion Hso; subst self_offsets; clear Hso.
  pose proof (mapM_length _ _ Hsl) as Hll.
  pose proof (mapM_length _ _ Hgl) as Hlv.
  pose proof (mapM_length _ _ Hgt) as Htv.
  pose proof (mapM_length _ _ Hgo) as Hov.
  apply (@Forall2_mapM_length _ _ (map (raw_values DimTime) rest)) in Hrt.
  apply (@Forall2_mapM_length _ _ (map (raw_values DimOffset) rest)) in Hro.
  apply (@Forall2_mapM_length _ _ (map (raw_values DimLocation) rest)) in Hrl.
  split.
  - unfold aligned. simpl. repeat split; constructor; try assumption; try congruence.
    eapply Forall_impl; [| exact Hrl]. simpl. intros II HII. congruence.
  - split; [simpl; now rewrite length_map |].
    intros i field a Hc. exfalso. unfold cached in Hc. simpl in Hc.
    apply bind_Ok in Hc. destruct Hc as [c [Hc Hget]].
    assert (c = []).
    { apply getitem_In in Hc.
      change ([] :: map (fun _ : Input => []) rest)
        with (map (fun _ : Input => @nil (Field * nd3 float)) (first :: rest)) in Hc.
      apply in_map_iff in Hc. destruct Hc as [x [Hx _]]. now symmetry. }
    subst c. discriminate.
Qed.

(** ** Flat arrays *)

Lemma length_zip_with {A B C} (f : A -> B -> C) (x : list A) (y : list B) :
  length x = length y -> length (zip_with f x y) = length x.
Proof.
  intros E. unfold zip_with. rewrite length_map, length_combine. lia.
Qed.

Lemma nth_zip_with {A B C} (f : A -> B -> C) (x : list A) (y : list B)
    (p : nat) (da : A) (db : B) (dc : C) :
  p < length x -> length x = length y ->
  nth p (zip_with f x y) dc = f (nth p x da) (nth p y db).
Proof.
  revert y p. induction x as [| a x IH]; intros [| b y] [| p] Hp E; simpl in *;
    try lia; try reflexivity.
  apply IH; lia.
Qed.

Lemma broadcast1_same_length {A B C} (f : A -> B -> C) (x : list A) (y : list B) :
  length x = length y -> broadcast1 f x y = Ok (zip_with f x y).
Proof. intros E. unfold broadcast1. now rewrite E, Nat.eqb_refl. Qed.

Lemma map_nth_range {A} (l : list A) (d : A) :
  map (fun p => nth p l d) (seq 0 (length l)) = l.
Proof.
  induction l as [| a l IH]; simpl; [reflexivity |].
  f_equal. rewrite <- seq_shift, map_map. exact IH.
Qed.

Lemma length_concat_const {A} (l : list (list A)) (m : nat) :
  Forall (fun x => length x = m) l -> length (concat l) = length l * m.
Proof.
  induction 1 as [| x l Hx Hl IH]; simpl; [reflexivity |].
  rewrite length_app, IH, Hx. reflexivity.
Qed.

Lemma length_flat_map_const {A B} (g : A -> list B) (l : list A) (m : nat) :
  (forall x, length (g x) = m) -> length (flat_map g l) = length l * m.
Proof.
  intros Hg. rewrite flat_map_concat_map, length_concat_const with (m := m).
  - now rewrite length_map.
  - apply Forall_forall. intros x Hx. apply in_map_iff in Hx.
    destruct Hx as [y [<- _]]. apply Hg.
Qed.

Lemma length_row {A} (a : nd3 A) (t o : nat) : length (row a t o) = dimL a.
Proof. unfold row. now rewrite length_map, length_seq. Qed.

Lemma length_plane_concat {A} (a : nd3 A) (t : nat) :
  length (concat (plane a t)) = dimO a * dimL a.
Proof.
  unfold plane. rewrite <- flat_map_concat_map.
  rewrite length_flat_map_const with (m := dimL a); [| intros; apply length_row].
  now rewrite length_seq.
Qed.

Lemma length_flatten {A} (a : nd3 A) :
  length (flatten a) = dimT a * (dimO a * dimL a).
Proof.
  unfold flatten, tolist.
  rewrite length_concat_const with (m := dimL a).
  - rewrite length_concat_const with (m := dimO a).
    + rewrite length_map, length_seq. lia.
    + apply Forall_forall. intros pl Hpl. apply in_map_iff in Hpl.
      destruct Hpl as [t [<- _]]. unfold plane. now rewrite length_map, length_seq.
  - apply Forall_forall. intros x Hx. apply in_concat in Hx.
    destruct Hx as [pl [Hpl Hx]]. apply in_map_iff in Hpl.
    destruct Hpl as [t [<- _]]. unfold plane in Hx. apply in_map_iff in Hx.
    destruct Hx as [o [<- _]]. apply length_row.
Qed.

(** ** The axis ladder *)

Lemma axis_slice_flat (d : Data) (axis : Axis) (idx : nat) (a : nd3 float)
    (x : ndarray float) :
  axis <> AxisAll -> axis_slice d axis idx a = Ok (Some x) -> exists v, x = A1 v.
Proof.
  intros Hax Hs. destruct axis; simpl in Hs; try congruence;
    try (destruct (Nat.ltb idx _); [inversion Hs; eauto | discriminate]);
    try (inversion Hs; eauto; fail).
  - apply bind_Ok in Hs. destruct Hs as [I [_ Hs]].
    apply bind_Ok in Hs. destruct Hs as [a' [_ Hs]]. inversion Hs; eauto.
  - apply bind_Ok in Hs. destruct Hs as [I [_ Hs]].
    apply bind_Ok in Hs. destruct Hs as [a' [_ Hs]]. inversion Hs; eauto.
Qed.

Lemma take_times_flatten_length (a b a' b' : nd3 float) (I : list nat) :
  shape a = shape b ->
  take_times a I = Ok a' -> take_times b I = Ok b' ->
  length (flatten a') = length (flatten b').
Proof.
  intros Hs Ha Hb. unfold take_times in Ha, Hb.
  destruct (index_ok (dimT a) I); [| discriminate].
  destruct (index_ok (dimT b) I); [| discriminate].
  inversion Ha; subst a'. inversion Hb; subst b'.
  rewrite !length_flatten. unfold dimT, dimO, dimL. simpl. now rewrite Hs.
Qed.

(** Arrays of one shape give slices of one length. *)
Lemma axis_slice_length (d : Data) (axis : Axis) (idx : nat) (a b : nd3 float)
    (u v : list float) :
  shape a = shape b ->
  axis_slice d axis idx a = Ok (Some (A1 u)) ->
  axis_slice d axis idx b = Ok (Some (A1 v)) ->
  length u = length v.
Proof.
  intros Hs Ha Hb.
  assert (HT : dimT a = dimT b) by (unfold dimT; now rewrite Hs).
  assert (HO : dimO a = dimO b) by (unfold dimO; now rewrite Hs).
  assert (HL : dimL a = dimL b) by (unfold dimL; now rewrite Hs).
  destruct axis; simpl in Ha, Hb; try discriminate;
    try (destruct (Nat.ltb idx _); [| discriminate];
         destruct (Nat.ltb idx _); [| discriminate];
         inversion Ha; inversion Hb; subst u v;
         first [ rewrite !length_plane_concat; congruence
               | rewrite !length_flat_map_const with (m := dimL a)
                   by (intros; rewrite ?length_row; congruence);
                 rewrite !length_seq; congruence
               | rewrite length_flat_map_const with (m := dimO a)
                   by (intros; now rewrite length_map, length_seq);
                 rewrite length_flat_map_const with (m := dimO a)
                   by (intros; rewrite length_map, length_seq; congruence);
                 rewrite !length_seq; congruence ]).
  - destruct (bucket d (months d) idx) as [I |]; [| discriminate]. cbn [bind] in Ha, Hb.
    destruct (take_times a I) as [a' |] eqn:Ea; [| discriminate].
    destruct (take_times b I) as [b' |] eqn:Eb; [| discriminate].
    cbn [bind] in Ha, Hb. inversion Ha; inversion Hb; subst u v.
    eapply take_times_flatten_length; eassumption.
  - destruct (bucket d (years d) idx) as [I |]; [| discriminate]. cbn [bind] in Ha, Hb.
    destruct (take_times a I) as [a' |] eqn:Ea; [| discriminate].
    destruct (take_times b I) as [b' |] eqn:Eb; [| discriminate].
    cbn [bind] in Ha, Hb. inversion Ha; inversion Hb; subst u v.
    eapply take_times_flatten_length; eassumption.
  - inversion Ha; inversion Hb; subst u v. rewrite !length_flatten. congruence.
  - inversion Ha; inversion Hb; subst u v. rewrite !length_flatten. congruence.
Qed.

(** ** The loop over the fields *)

Lemma scores_loop (d : Data) (clim : option (list float)) (i : nat) (axis : Axis)
    (idx n : nat) :
  aligned d -> axis <> AxisAll ->
  (forall a s, shape a = canonical_shape d ->
               axis_slice d axis idx a = Ok (Some (A1 s)) -> length s = n) ->
  (forall cs, clim = Some cs -> length cs = n) ->
  forall fields st slices st' scores0 valid0,
    cache_wf d st ->
    load_slices d i axis idx fields st = Ok (slices, st') ->
    (forall m, valid0 = Some m -> length m = n) ->
    fold_left (score_field d (match clim with Some _ => true | None => false end)
                 (option_map A1 clim) i axis idx)
              fields (Ok (scores0, option_map A1 valid0, st))
    = Ok (scores0 ++ map (fun v => (A1 v, None)) (adjusted_all d clim fields slices),
          option_map A1 (fold_left (fun acc v => Some (and_mask acc v))
                                   (adjusted_all d clim fields slices) valid0),
          st')
    /\ cache_wf d st'
    /\ Forall (fun v => length v = n) (adjusted_all d clim fields slices)
    /\ Forall (fun v => length v = n) slices
    /\ length slices = length fields.
Proof.
  intros Hal Hax Hn Hclim. induction fields as [| f fields IH];
    intros st slices st' scores0 valid0 Hwf Hload Hvalid.
  - simpl in Hload. inversion Hload; subst slices st'.
    unfold adjusted_all. simpl. rewrite app_nil_r.
    split; [reflexivity |]. split; [exact Hwf |]. repeat constructor.
  - simpl in Hload.
    destruct (_get_score d f i st) as [[temp st1] |] eqn:Hget; [| discriminate].
    cbn [bind] in Hload.
    destruct (axis_slice d axis idx temp) as [[[s | a3] |] |] eqn:Hslice;
      try discriminate.
    cbn [bind] in Hload.
    destruct (load_slices d i axis idx fields st1) as [[ss st2] |] eqn:Hrest;
      [| discriminate].
    cbn [bind] in Hload. inversion Hload; subst slices st2; clear Hload.
    destruct (@get_score_wf d f i st st1 temp Hal Hwf Hget) as [Hwf1 [_ Hshape]].
    pose proof (Hn temp s Hshape Hslice) as Hs.
    set (v := adjusted d clim f s).
    assert (Hv : length v = n).
    { unfold v, adjusted. destruct clim as [cs |]; [| exact Hs].
      destruct (is_obs_or_fcst f); [| exact Hs].
      rewrite length_zip_with; [exact Hs |]. rewrite (Hclim cs eq_refl). exact Hs. }
    assert (Hstep :
      score_field d (match clim with Some _ => true | None => false end)
        (option_map A1 clim) i axis idx (Ok (scores0, option_map A1 valid0, st)) f
      = Ok (scores0 ++ [(A1 v, None)], option_map A1 (Some (and_mask valid0 v)), st1)).
    { unfold score_field. cbn [bind]. rewrite Hget. cbn [bind].
      rewrite Hslice. cbn [bind].
      assert (Hadj :
        (if (match clim with Some _ => true | None => false end)
            && (field_eqb f Fcst || field_eqb f Obs)
         then match option_map A1 clim with
              | Some clim0 =>
                  curr <- (if String.eqb (_clim_type d) "subtract"
                           then nd_map2 fsub (A1 s) clim0
                           else nd_map2 fdiv (A1 s) clim0) ;;
                  Ok (curr, @None Field)
              | None => Err NameError
              end
         else Ok (A1 s, @None Field)) = Ok (A1 v, None)).
      { unfold v, adjusted. fold (is_obs_or_fcst f).
        destruct clim as [cs |]; simpl; [| reflexivity].
        destruct (is_obs_or_fcst f); [| reflexivity].
        assert (Hcs : length s = length cs) by (rewrite (Hclim cs eq_refl); exact Hs).
        destruct (String.eqb (_clim_type d) "subtract");
          rewrite broadcast1_same_length by exact Hcs; reflexivity. }
      rewrite Hadj. cbn [bind nd_map].
      destruct valid0 as [m |]; simpl.
      - rewrite broadcast1_same_length; [reflexivity |].
        rewrite length_map, Hv. now apply Hvalid.
      - reflexivity. }
    cbn [fold_left]. rewrite Hstep.
    destruct (IH st1 ss st' (scores0 ++ [(A1 v, None)]) (Some (and_mask valid0 v))
                 Hwf1 Hrest) as [Hfold [Hwf' [Hall [Hsl Hlen]]]].
    { intros m Em. inversion Em; subst m. unfold and_mask.
      destruct valid0 as [m0 |].
      - rewrite length_zip_with; [now apply Hvalid |].
        rewrite length_map, Hv. now apply Hvalid.
      - now rewrite length_map. }
    rewrite Hfold. unfold adjusted_all. simpl. fold v.
    rewrite <- app_assoc. simpl.
    split; [reflexivity |]. split; [exact Hwf' |].
    split; [constructor; [exact Hv | exact Hall] |].
    split; [constructor; [exact Hs | exact Hsl] |]. now rewrite Hlen.
Qed.

(** ** Joint validity and the removal of invalid entries *)

Lemma and_masks_from (vs : list (list float)) (n : nat) (m : list bool) :
  length m = n -> Forall (fun v => length v = n) vs ->
  fold_left (fun acc v => Some (and_mask acc v)) vs (Some m)
  = Some (map (fun p => nth p m false
                        && forallb (fun s => is_valid (nth p s NaN)) vs)
              (seq 0 n)).
Proof.
  intros Hm Hvs. revert m Hm. induction Hvs as [| v vs Hv Hvs IH]; intros m Hm.
  - simpl. f_equal. rewrite <- (map_nth_range m false) at 1. rewrite Hm.
    apply map_ext. intros p. now rewrite andb_true_r.
  - cbn [fold_left and_mask]. rewrite IH.
    + f_equal. apply map_ext_in. intros p Hp. apply in_seq in Hp.
      rewrite (nth_zip_with andb m (map is_valid v) false false false)
        by (rewrite ?length_map; lia).
      change false with (is_valid NaN) at 2. rewrite map_nth.
      simpl. now rewrite andb_assoc.
    + rewrite length_zip_with; [exact Hm |]. rewrite length_map. lia.
Qed.

Lemma and_masks_joint (v : list float) (vs : list (list float)) (n : nat) :
  Forall (fun v => length v = n) (v :: vs) ->
  fold_left (fun acc v => Some (and_mask acc v)) (v :: vs) None
  = Some (joint_mask (v :: vs) n).
Proof.
  intros Hall. inversion Hall as [| ? ? Hv Hvs]; subst.
  cbn [fold_left and_mask]. rewrite and_masks_from with (n := length v).
  - f_equal. unfold joint_mask. apply map_ext. intros p. simpl.
    change false with (is_valid NaN). now rewrite map_nth.
  - now rewrite length_map.
  - exact Hvs.
Qed.

Lemma select_keep_from (pre : list float) (m : list bool) (v : list float) :
  length m = length v ->
  mapM (getitem (pre ++ v)) (where_from (length pre) m) = Ok (keep m v).
Proof.
  revert pre v. induction m as [| b m IH]; intros pre [| x v] Hlen;
    simpl in Hlen; try discriminate.
  - reflexivity.
  - assert (Hrest : mapM (getitem (pre ++ x :: v)) (where_from (S (length pre)) m)
                    = Ok (keep m v)).
    { replace (pre ++ x :: v) with ((pre ++ [x]) ++ v) by now rewrite <- app_assoc.
      replace (S (length pre)) with (length (pre ++ [x]))
        by (rewrite length_app; simpl; lia).
      apply IH. lia. }
    destruct b; cbn [where_from].
    + cbn [mapM]. unfold getitem at 1. rewrite nth_error_app2 by lia.
      rewrite Nat.sub_diag. cbn [nth_error bind]. rewrite Hrest. reflexivity.
    + exact Hrest.
Qed.

Lemma select_keep (m : list bool) (v : list float) :
  length m = length v -> mapM (getitem v) (np_where m) = Ok (keep m v).
Proof. intros Hlen. apply (select_keep_from [] m v Hlen). Qed.

Lemma length_keep (m : list bool) (v : list float) :
  length m = length v -> length (keep m v) = count_true m.
Proof.
  revert v. induction m as [| b m IH]; intros [| x v] Hlen; simpl in Hlen;
    try discriminate; [reflexivity |].
  unfold keep, count_true in *. simpl. destruct b; simpl; rewrite IH; lia.
Qed.

Lemma length_joint_mask (scores : list (list float)) (n : nat) :
  length (joint_mask scores n) = n.
Proof. unfold joint_mask. now rewrite length_map, length_seq. Qed.

Lemma map_const_same_length {A B C} (c : C) (l : list A) (l' : list B) :
  length l = length l' -> map (fun _ => c) l = map (fun _ => c) l'.
Proof.
  revert l'. induction l as [| a l IH]; intros [| b l'] Hlen; simpl in *;
    try discriminate; [reflexivity |]. f_equal. apply IH. lia.
Qed.

Lemma is_not_All_aggregating (b : bool) (axis : Axis) :
  axis <> AxisAll -> is_not_All b axis = true.
Proof.
  intros Hax. unfold is_not_All. destruct axis; try congruence;
    simpl; now rewrite andb_false_r.
Qed.

(** What [finish_scores] does with flat arrays of one length. *)
Lemma finish_scores_flat (b : bool) (fields : list Field) (i : nat) (axis : Axis)
    (v : list float) (vs : list (list float)) (n : nat) (st : State) :
  axis <> AxisAll ->
  Forall (fun x => length x = n) (v :: vs) ->
  length (v :: vs) = length fields ->
  finish_scores b fields i axis (map (fun x => (A1 x, None)) (v :: vs))
    (Some (A1 (joint_mask (v :: vs) n))) st
  = Ok (map A1 (if Nat.eqb (count_true (joint_mask (v :: vs) n)) 0
                then map (fun _ => [NaN]) (v :: vs)
                else map (keep (joint_mask (v :: vs) n)) (v :: vs)), st).
Proof.
  intros Hax Hall Hlen. set (scores := v :: vs) in *.
  set (mask := joint_mask scores n).
  unfold finish_scores. cbn [bind]. rewrite (is_not_All_aggregating b Hax).
  assert (Hsel : mapM (fun s : ndarray float * option Field => select_valid (A1 mask) (fst s))
                   (map (fun x => (A1 x, @None Field)) scores)
                 = Ok (map (fun x => A1 (keep mask x)) scores)).
  { rewrite <- (map_map (fun x => (A1 x, @None Field)) (fun s => A1 (keep mask match fst s with A1 x => x | A3 _ => [] end))).
    apply mapM_map_Ok. intros s Hs. apply in_map_iff in Hs.
    destruct Hs as [x [<- Hx]]. simpl.
    rewrite Forall_forall in Hall.
    rewrite select_keep; [reflexivity |].
    unfold mask. rewrite length_joint_mask. symmetry. now apply Hall. }
  rewrite Hsel. cbn [bind]. unfold scores at 1. cbn [map getitem nth_error bind shape0].
  rewrite length_keep.
  - fold mask. destruct (Nat.eqb (count_true mask) 0).
    + f_equal. f_equal. rewrite map_map.
      apply (@map_const_same_length _ _ _ (A1 [NaN]) fields scores). now symmetry.
    + now rewrite map_map.
  - unfold mask. rewrite length_joint_mask. inversion Hall. now symmetry.
Qed.

(** ** What [get_scores] returns for an aggregating axis *)

(** When the climatology (if wanted) and every requested field load and
    slice, the slices have one length, and [get_scores] returns the
    adjusted slices restricted to the jointly valid positions, or one
    not-a-number per field when there is no such position. *)
Lemma get_scores_spec (b : bool) (d : Data) (fields : list Field) (i : nat)
    (axis : Axis) (idx : nat) (st st1 st' : State)
    (clim : option (list float)) (slices : list (list float)) :
  aligned d -> cache_wf d st -> axis <> AxisAll ->
  i < num_inputs d -> fields <> [] ->
  load_clim d fields axis idx st = Ok (clim, st1) ->
  load_slices d i axis idx fields st1 = Ok (slices, st') ->
  exists n,
    Forall (fun v => length v = n) slices
    /\ (forall cs, clim = Some cs -> length cs = n)
    /\ Forall (fun v => length v = n) (adjusted_all d clim fields slices)
    /\ length (adjusted_all d clim fields slices) = length fields
    /\ cache_wf d st'
    /\ get_scores b d fields i axis idx st
       = Ok (map A1
               (if Nat.eqb (count_true (joint_mask (adjusted_all d clim fields slices) n)) 0
                then map (fun _ => [NaN]) (adjusted_all d clim fields slices)
                else map (keep (joint_mask (adjusted_all d clim fields slices) n))
                         (adjusted_all d clim fields slices)),
             st').
Proof.
  intros Hal Hwf Hax Hi Hne Hclim Hload.
  (* the climatology stage *)
  assert (Hstage :
    cache_wf d st1
    /\ (forall cs, clim = Some cs ->
          exists cl, shape cl = canonical_shape d
                     /\ axis_slice d axis idx cl = Ok (Some (A1 cs)))
    /\ wants_clim d fields = match clim with Some _ => true | None => false end
    /\ (if wants_clim d fields then
          '(temp, st0) <- _get_score d Fcst (length (_inputs st) - 1) st ;;
          cl <- axis_slice d axis idx temp ;; Ok (cl, st0)
        else Ok (None, st)) = Ok (option_map A1 clim, st1)).
  { unfold load_clim in Hclim. destruct (wants_clim d fields).
    - destruct (_get_score d Fcst (length (_inputs st) - 1) st) as [[cl st0] |] eqn:Hget;
        [| discriminate].
      cbn [bind] in Hclim |- *.
      destruct (axis_slice d axis idx cl) as [[[cs | a3] |] |] eqn:Hsl; try discriminate.
      inversion Hclim; subst clim st0.
      destruct (@get_score_wf d Fcst _ st st1 cl Hal Hwf Hget) as [Hwf1 [_ Hshape]].
      split; [exact Hwf1 |]. split; [| split; reflexivity].
      intros cs' E. inversion E; subst cs'. eauto.
    - inversion Hclim; subst clim st1.
      split; [exact Hwf |]. split; [| split; reflexivity]. intros cs E. discriminate. }
  destruct Hstage as [Hwf1 [Hcl [Hwants Hstage]]].
  (* the common length: that of the first slice *)
  destruct fields as [| f fields']; [congruence |].
  assert (Hfirst : exists a0 s0, shape a0 = canonical_shape d
                      /\ axis_slice d axis idx a0 = Ok (Some (A1 s0))).
  { simpl in Hload.
    destruct (_get_score d f i st1) as [[a0 st2] |] eqn:Hget; [| discriminate].
    cbn [bind] in Hload.
    destruct (axis_slice d axis idx a0) as [[[s0 | a3] |] |] eqn:Hsl; try discriminate.
    destruct (@get_score_wf d f i st1 st2 a0 Hal Hwf1 Hget) as [_ [_ Hshape]].
    eauto. }
  destruct Hfirst as [a0 [s0 [Hs0 Hsl0]]].
  assert (Hn : forall a s, shape a = canonical_shape d ->
                 axis_slice d axis idx a = Ok (Some (A1 s)) -> length s = length s0).
  { intros a s Hs Hsl. eapply axis_slice_length; [| exact Hsl | exact Hsl0]. congruence. }
  assert (Hcn : forall cs, clim = Some cs -> length cs = length s0).
  { intros cs E. destruct (Hcl cs E) as [cl [Hshape Hsl]]. eapply Hn; eassumption. }
  destruct (@scores_loop d clim i axis idx (length s0) Hal Hax Hn Hcn
              (f :: fields') st1 slices st' [] None Hwf1 Hload)
    as [Hfold [Hwf' [Hall [Hsl Hlen]]]]; [discriminate |].
  exists (length s0).
  split; [exact Hsl |]. split; [exact Hcn |]. split; [exact Hall |].
  assert (Hlen' : length (adjusted_all d clim (f :: fields') slices) = length (f :: fields')).
  { unfold adjusted_all. rewrite length_map, length_combine. lia. }
  split; [exact Hlen' |]. split; [exact Hwf' |].
  unfold get_scores, get_scores_unmasked.
  replace (negb (Nat.ltb i (num_inputs d))) with false
    by (symmetry; apply negb_false_iff, Nat.ltb_lt; exact Hi).
  fold (wants_clim d (f :: fields')). cbv zeta.
  rewrite Hstage. cbn [bind]. rewrite Hwants. simpl option_map in Hfold.
  rewrite Hfold. cbn [bind app].
  destruct (adjusted_all d clim (f :: fields') slices) as [| v vs] eqn:Hadj;
    [simpl in Hlen'; discriminate |].
  rewrite (@and_masks_joint v vs (length s0) Hall).
  apply finish_scores_flat; assumption.
Qed.

Lemma count_true_joint_mask_zero (scores : list (list float)) (n : nat) :
  (forall p, exists v, In v scores /\ is_valid (nth p v NaN) = false) ->
  count_true (joint_mask scores n) = 0.
Proof.
  intros Hno. unfold count_true, joint_mask. rewrite filter_none; [reflexivity |].
  intros x Hx. apply in_map_iff in Hx. destruct Hx as [p [<- _]].
  destruct (Hno p) as [v [Hv Hinv]].
  destruct (forallb _ scores) eqn:E; [| reflexivity].
  rewrite forallb_forall in E. specialize (E v Hv). congruence.
Qed.

Lemma load_clim_wanted (d : Data) (fields : list Field) (axis : Axis) (idx : nat)
    (st st1 : State) (cl : nd3 float) (cs : list float) :
  _clim d = true ->
  existsb (field_eqb Obs) fields || existsb (field_eqb Fcst) fields = true ->
  _get_score d Fcst (length (_inputs st) - 1) st = Ok (cl, st1) ->
  axis_slice d axis idx cl = Ok (Some (A1 cs)) ->
  load_clim d fields axis idx st = Ok (Some cs, st1).
Proof.
  intros Hc Hf Hget Hsl. unfold load_clim, wants_clim.
  rewrite Hc, Hf. simpl. rewrite Hget. cbn [bind]. now rewrite Hsl.
Qed.

(** C6.  For a call on an aggregating axis whose climatology (when
    wanted) and fields load: all slices have one length [n]; when at
    least one position is valid in every field (finite, after the
    climatology adjustment), each returned array is the field's adjusted
    slice restricted to the jointly valid positions, and its length is
    the number of those positions; when no position is jointly valid,
    every returned array is the one-element not-a-number placeholder. *)
Theorem scores_are_the_jointly_valid_entries (b : bool) (d : Data)
    (fields : list Field) (i : nat) (axis : Axis) (idx : nat) (st st1 st' : State)
    (clim : option (list float)) (slices : list (list float)) :
  aligned d -> cache_wf d st -> axis <> AxisAll ->
  i < num_inputs d -> fields <> [] ->
  load_clim d fields axis idx st = Ok (clim, st1) ->
  load_slices d i axis idx fields st1 = Ok (slices, st') ->
  exists n,
    Forall (fun v => length v = n) (adjusted_all d clim fields slices)
    /\ length (adjusted_all d clim fields slices) = length fields
    /\ (0 < count_true (joint_mask (adjusted_all d clim fields slices) n) ->
        get_scores b d fields i axis idx st
        = Ok (map (fun v => A1 (keep (joint_mask (adjusted_all d clim fields slices) n) v))
                  (adjusted_all d clim fields slices), st')
        /\ Forall (fun v =>
                     length (keep (joint_mask (adjusted_all d clim fields slices) n) v)
                     = count_true (joint_mask (adjusted_all d clim fields slices) n))
                  (adjusted_all d clim fields slices))
    /\ (count_true (joint_mask (adjusted_all d clim fields slices) n) = 0 ->
        get_scores b d fields i axis idx st
        = Ok (map (fun _ => A1 [NaN]) fields, st')).
Proof.
  intros Hal Hwf Hax Hi Hne Hclim Hload.
  destruct (@get_scores_spec b d fields i axis idx st st1 st' clim slices
              Hal Hwf Hax Hi Hne Hclim Hload)
    as [n [_ [_ [Hall [Hlen [_ Hget]]]]]].
  exists n. split; [exact Hall |]. split; [exact Hlen |]. split.
  - intros Hpos. rewrite Hget.
    destruct (Nat.eqb_spec (count_true (joint_mask (adjusted_all d clim fields slices) n)) 0)
      as [E | E]; [lia |].
    split; [now rewrite map_map |].
    rewrite Forall_forall in *. intros v Hv. apply length_keep.
    rewrite length_joint_mask. symmetry. now apply Hall.
  - intros Hzero. rewrite Hget, Hzero. simpl. f_equal. f_equal.
    rewrite map_map. apply map_const_same_length. exact Hlen.
Qed.

(** C8.  For a call on an aggregating axis whose climatology (when
    wanted) and fields load, if no position is valid in every requested
    field, the result holds, for each requested field, the one-element
    array [nan]. *)
Theorem no_valid_position_gives_placeholders (b : bool) (d : Data)
    (fields : list Field) (i : nat) (axis : Axis) (idx : nat) (st st1 st' : State)
    (clim : option (list float)) (slices : list (list float)) :
  aligned d -> cache_wf d st -> axis <> AxisAll ->
  i < num_inputs d -> fields <> [] ->
  load_clim d fields axis idx st = Ok (clim, st1) ->
  load_slices d i axis idx fields st1 = Ok (slices, st') ->
  (forall p, exists v, In v (adjusted_all d clim fields slices)
                       /\ is_valid (nth p v NaN) = false) ->
  get_scores b d fields i axis idx st = Ok (map (fun _ => A1 [NaN]) fields, st').
Proof.
  intros Hal Hwf Hax Hi Hne Hclim Hload Hno.
  destruct (@get_scores_spec b d fields i axis idx st st1 st' clim slices
              Hal Hwf Hax Hi Hne Hclim Hload)
    as [n [_ [_ [_ [Hlen [_ Hget]]]]]].
  rewrite Hget, (count_true_joint_mask_zero _ n Hno). simpl. f_equal. f_equal.
  rewrite map_map. apply map_const_same_length. exact Hlen.
Qed.

(** C7.  With a climatology configured in "subtract" mode, for a call on
    an aggregating axis that requests Obs or Fcst and whose loads
    succeed: the array of each Obs or Fcst field is its slice minus the
    slice of the climatology's forecast, item by item; the array of any
    other field is its slice; and the call returns these arrays
    restricted to the jointly valid positions (or the placeholder when
    there is none). *)
Theorem climatology_is_subtracted (b : bool) (d : Data)
    (fields : list Field) (i : nat) (axis : Axis) (idx : nat) (st st1 st' : State)
    (cl : nd3 float) (cs : list float) (slices : list (list float)) :
  aligned d -> cache_wf d st -> axis <> AxisAll ->
  i < num_inputs d ->
  _clim d = true -> _clim_type d = "subtract"%string ->
  existsb (field_eqb Obs) fields || existsb (field_eqb Fcst) fields = true ->
  _get_score d Fcst (length (_inputs st) - 1) st = Ok (cl, st1) ->
  axis_slice d axis idx cl = Ok (Some (A1 cs)) ->
  load_slices d i axis idx fields st1 = Ok (slices, st') ->
  exists n scores,
    scores = map (fun p => if is_obs_or_fcst (fst p)
                           then zip_with fsub (snd p) cs
                           else snd p)
                 (combine fields slices)
    /\ length cs = n
    /\ Forall (fun v => length v = n) slices
    /\ get_scores b d fields i axis idx st
       = Ok (map A1 (if Nat.eqb (count_true (joint_mask scores n)) 0
                     then map (fun _ => [NaN]) scores
                     else map (keep (joint_mask scores n)) scores), st').
Proof.
  intros Hal Hwf Hax Hi Hc Hsub Hf Hget Hsl Hload.
  assert (Hne : fields <> []).
  { intros ->. discriminate. }
  pose proof (load_clim_wanted d fields axis idx st Hc Hf Hget Hsl) as Hclim.
  destruct (@get_scores_spec b d fields i axis idx st st1 st' (Some cs) slices
              Hal Hwf Hax Hi Hne Hclim Hload)
    as [n [Hslices [Hcs [_ [_ [_ Hres]]]]]].
  exists n, (adjusted_all d (Some cs) fields slices).
  split.
  { unfold adjusted_all, adjusted. rewrite Hsub. reflexivity. }
  split; [now apply Hcs |]. split; [exact Hslices |]. exact Hres.
Qed.

(** ** Fields other than the windows leave the inputs alone *)

Lemma set_nth_same {A} (i : nat) (x : A) (l : list A) :
  nth_error l i = Some x -> set_nth i x l = l.
Proof.
  revert i. induction l as [| y l IH]; intros [| i] Hi; simpl in *; try discriminate.
  - now inversion Hi.
  - f_equal. now apply IH.
Qed.

Lemma fold_left_Err {A B} (step : result A -> B -> result A) (l : list B) (e : exn) :
  (forall x, step (Err e) x = Err e) -> fold_left step l (Err e) = Err e.
Proof.
  intros Hstep. induction l as [| x l IH]; simpl; [reflexivity |].
  now rewrite Hstep.
Qed.

Lemma select_array_keeps_input (field : Field) (input input' : Input) (temp : nd3 float) :
  is_window field = false ->
  select_array field input = Ok (temp, input') -> input' = input.
Proof.
  intros Hw Hsel. destruct field; simpl in *; try discriminate.
  - now inversion Hsel.
  - now inversion Hsel.
  - apply bind_Ok in Hsel. destruct Hsel as [x [_ Hsel]]. now inversion Hsel.
  - destruct (np_where _) as [| ix [| ? ?]]; try discriminate.
    apply bind_Ok in Hsel. destruct Hsel as [x [_ Hsel]]. now inversion Hsel.
  - destruct (np_where _) as [| ix [| ? ?]]; try discriminate.
    apply bind_Ok in Hsel. destruct Hsel as [x [_ Hsel]]. now inversion Hsel.
Qed.

Lemma load_fold_keeps_inputs (d : Data) (f : Field) (l : list nat) (st st' : State) :
  is_window f = false ->
  fold_left (load_input d f) l (Ok st) = Ok st' -> _inputs st' = _inputs st.
Proof.
  intros Hw. revert st. induction l as [| i l IH]; intros st Hfold; cbn [fold_left] in Hfold.
  - now inversion Hfold.
  - destruct (load_input d f (Ok st) i) as [st1 | e] eqn:Hstep.
    + rewrite (IH st1 Hfold). unfold load_input in Hstep. cbn [bind] in Hstep.
      destruct (getitem (_cache st) i) as [c |]; [| discriminate]. cbn [bind] in Hstep.
      destruct (dict_get f c); [now inversion Hstep |].
      destruct (getitem (_inputs st) i) as [input |] eqn:Hin; [| discriminate].
      cbn [bind] in Hstep. destruct (negb _); [discriminate |].
      destruct (select_array f input) as [[temp input'] |] eqn:Hsel; [| discriminate].
      cbn [bind] in Hstep. destruct (trim d i temp); [| discriminate].
      cbn [bind] in Hstep. inversion Hstep; subst st1. simpl.
      rewrite (@select_array_keeps_input f input input' temp Hw Hsel).
      apply set_nth_same. now apply getitem_Ok.
    + rewrite fold_left_Err in Hfold; [discriminate |]. reflexivity.
Qed.

Lemma blank_fold_keeps_inputs (f : Field) (m : nd3 bool) (l : list nat) (st st' : State) :
  fold_left (blank_step f m) l (Ok st) = Ok st' -> _inputs st' = _inputs st.
Proof.
  revert st. induction l as [| i l IH]; intros st Hfold; cbn [fold_left] in Hfold.
  - now inversion Hfold.
  - destruct (blank_step f m (Ok st) i) as [st1 | e] eqn:Hstep.
    + rewrite (IH st1 Hfold). unfold blank_step in Hstep. cbn [bind] in Hstep.
      destruct (getitem (_cache st) i) as [c |]; [| discriminate]. cbn [bind] in Hstep.
      destruct (dict_getitem f c) as [a |]; [| discriminate]. cbn [bind] in Hstep.
      destruct (set_nan_where a m); [| discriminate]. cbn [bind] in Hstep.
      now inversion Hstep.
    + rewrite fold_left_Err in Hfold; [discriminate |]. reflexivity.
Qed.

(** Loading any field other than ObsWindow and FcstWindow leaves every
    input, and so its [obs] and [fcst] arrays, as it was. *)
Lemma get_score_keeps_inputs (d : Data) (field : Field) (k : nat) (st st' : State)
    (a : nd3 float) :
  is_window (alias d field) = false ->
  _get_score d field k st = Ok (a, st') -> _inputs st' = _inputs st.
Proof.
  intros Hw Hget. unfold _get_score in Hget.
  destruct (getitem (_cache st) k) as [c |]; [| discriminate]. cbn [bind] in Hget.
  destruct (dict_get field c); [now inversion Hget |].
  destruct (load_all d (alias d field) st) as [st1 |] eqn:Hload; [| discriminate].
  cbn [bind] in Hget. unfold load_all in Hload.
  pose proof (@load_fold_keeps_inputs d (alias d field) _ st st1 Hw Hload) as H1.
  destruct (_remove_missing_across_all d).
  - destruct (remove_missing (alias d field) st1) as [st2 |] eqn:Hrm; [| discriminate].
    cbn [bind] in Hget. destruct (cached st2 k (alias d field)); [| discriminate].
    cbn [bind] in Hget. inversion Hget; subst st2.
    unfold remove_missing in Hrm.
    destruct (is_missing_all st1 (alias d field)) as [m |]; [| discriminate].
    cbn [bind] in Hrm. rewrite (@blank_fold_keeps_inputs _ _ _ st1 st' Hrm). exact H1.
  - cbn [bind] in Hget. destruct (cached st1 k (alias d field)); [| discriminate].
    cbn [bind] in Hget. inversion Hget; subst st1. exact H1.
Qed.

(** ** The example datasets satisfy the invariants *)

Lemma inputs_A_B_NoDup (name : dim) :
  Forall (fun file => NoDup (raw_values name file)) [input_A; input_B].
Proof. destruct name; repeat constructor; literal_NoDup. Qed.

Lemma inputs_A_B_clim_NoDup (name : dim) :
  Forall (fun file => NoDup (raw_values name file)) [input_A; input_B; input_clim].
Proof. destruct name; repeat constructor; literal_NoDup. Qed.

Lemma input_nan_NoDup (name : dim) :
  Forall (fun file => NoDup (raw_values name file)) [input_nan].
Proof. destruct name; repeat constructor; literal_NoDup. Qed.

Lemma data_AB_invariants : aligned data_AB /\ cache_wf data_AB state_AB.
Proof.
  apply (@init_invariants [input_A; input_B] None None None None None None None
           "subtract" None true Obs Fcst data_AB state_AB build_A_B).
  exact inputs_A_B_NoDup.
Qed.

Lemma data_AB_clim_invariants : aligned data_AB_clim /\ cache_wf data_AB_clim state_AB_clim.
Proof.
  apply (@init_invariants [input_A; input_B] None None None None None None
           (Some input_clim) "subtract" None true Obs Fcst
           data_AB_clim state_AB_clim build_A_B_clim).
  exact inputs_A_B_clim_NoDup.
Qed.

Lemma data_nan_invariants : aligned data_nan /\ cache_wf data_nan state_nan.
Proof.
  apply (@init_invariants [input_nan] None None None None None None None
           "subtract" None true Obs Fcst data_nan state_nan build_nan).
  exact input_nan_NoDup.
Qed.

(** ** Witnesses and evaluations on the example datasets *)

Lemma missingness_is_shared_witness :
  exists before a st',
    mapM (fun i => cached state_AB_obs_loaded i (alias data_AB Obs))
         (seq 0 (length (_inputs state_AB_obs_loaded))) = Ok before
    /\ _get_score data_AB Obs 0 state_AB = Ok (a, st')
    /\ forall i b, nth_error before i = Some b ->
         exists x, cached st' i (alias data_AB Obs) = Ok x
           /\ shape x = canonical_shape data_AB
           /\ forall t o l, inside (canonical_shape data_AB) t o l ->
                isnan (item x t o l)
                = existsb (fun b' => isnan (item b' t o l)) before.
Proof.
  apply (@missingness_is_shared data_AB Obs 0 state_AB state_AB_obs_loaded []).
  - reflexivity.
  - exact (proj1 data_AB_invariants).
  - exact (proj2 data_AB_invariants).
  - reflexivity.
  - reflexivity.
  - vm_compute. reflexivity.
Defined.

(** In the dataset [A, B] the observation of A at the first common
    time, first offset and second location is missing; after the load,
    B's cached observation is missing there too. *)
Example missing_value_reaches_input_B :
  match _get_score data_AB Obs 1 state_AB with
  | Ok (a, _) => (isnan (item a 0 0 1), isnan (item a 0 0 0))
  | Err _ => (false, false)
  end = (true, false).
Proof. vm_compute. reflexivity. Qed.

(** C2.  Loading the ObsWindow field overwrites the observations held
    by the inputs: before the call the observations of A and B at
    (time 2, offset 0, location 1) are 1/2 and 5; after it they are the
    window values 1 and 0. *)
Theorem window_load_overwrites_input_obs :
  map (fun input => finite_value (item (input_obs input) 2 0 1)) (_inputs state_AB)
  = [Some (1 # 2)%Q; Some (5 # 1)%Q]
  /\ map (fun input => finite_value (item (input_obs input) 2 0 1))
         (_inputs (after_call (_get_score data_AB ObsWindow 0 state_AB)))
     = [Some (1 # 1)%Q; Some (0 # 1)%Q]
  /\ values_of (_get_score data_AB ObsWindow 0 state_AB)
     = Ok (value_of (array3 []) (_get_score data_AB ObsWindow 0 state_AB)).
Proof. repeat split; vm_compute; reflexivity. Qed.

Lemma scores_are_the_jointly_valid_entries_witness :
  exists n,
    Forall (fun v => length v = n)
           (adjusted_all data_AB None [Fcst; Obs] (value_of [] slices_AB_call))
    /\ length (adjusted_all data_AB None [Fcst; Obs] (value_of [] slices_AB_call))
       = length [Fcst; Obs]
    /\ (0 < count_true (joint_mask
               (adjusted_all data_AB None [Fcst; Obs] (value_of [] slices_AB_call)) n) ->
        get_scores false data_AB [Fcst; Obs] 0 AxisTime 0 state_AB
        = Ok (map (fun v => A1 (keep (joint_mask
                      (adjusted_all data_AB None [Fcst; Obs] (value_of [] slices_AB_call)) n) v))
                  (adjusted_all data_AB None [Fcst; Obs] (value_of [] slices_AB_call)),
              after_call slices_AB_call)
        /\ Forall (fun v =>
                     length (keep (joint_mask
                        (adjusted_all data_AB None [Fcst; Obs] (value_of [] slices_AB_call)) n) v)
                     = count_true (joint_mask
                        (adjusted_all data_AB None [Fcst; Obs] (value_of [] slices_AB_call)) n))
                  (adjusted_all data_AB None [Fcst; Obs] (value_of [] slices_AB_call)))
    /\ (count_true (joint_mask
               (adjusted_all data_AB None [Fcst; Obs] (value_of [] slices_AB_call)) n) = 0 ->
        get_scores false data_AB [Fcst; Obs] 0 AxisTime 0 state_AB
        = Ok (map (fun _ => A1 [NaN]) [Fcst; Obs], after_call slices_AB_call)).
Proof.
  apply (@scores_are_the_jointly_valid_entries false data_AB [Fcst; Obs] 0 AxisTime 0
           state_AB state_AB (after_call slices_AB_call) None (value_of [] slices_AB_call)).
  - exact (proj1 data_AB_invariants).
  - exact (proj2 data_AB_invariants).
  - discriminate.
  - vm_compute. lia.
  - discriminate.
  - reflexivity.
  - vm_compute. reflexivity.
Defined.

(** The same call, evaluated: the forecasts 6, 7, 8, 9 of A at the first
    common time and its observations 5, nan, 7, 8; B's forecast is
    missing at the third position, so the second and third positions
    are dropped from both arrays. *)
Example scores_of_A_at_first_time :
  match get_scores false data_AB [Fcst; Obs] 0 AxisTime 0 state_AB with
  | Ok (l, _) => map flat_values l
  | Err _ => []
  end = [[Some (6 # 1)%Q; Some (9 # 1)%Q]; [Some (5 # 1)%Q; Some (8 # 1)%Q]].
Proof. vm_compute. reflexivity. Qed.

(** C6, as stated, fails when no position is jointly valid: the one
    requested slice is [nan], it has no valid position, and the returned
    array has length one, not zero. *)
Lemma placeholder_length_counterexample :
  values_of slices_nan_call = Ok [[NaN]]
  /\ count_true (joint_mask [[NaN]] 1) = 0
  /\ values_of (get_scores false data_nan [Obs] 0 AxisTime 0 state_nan) = Ok [A1 [NaN]]
  /\ map shape0 [A1 [NaN]] = [1].
Proof. repeat split; vm_compute; reflexivity. Qed.

Lemma no_valid_position_gives_placeholders_witness :
  get_scores false data_nan [Obs] 0 AxisTime 0 state_nan
  = Ok (map (fun _ => A1 [NaN]) [Obs], after_call slices_nan_call).
Proof.
  apply (@no_valid_position_gives_placeholders false data_nan [Obs] 0 AxisTime 0
           state_nan state_nan (after_call slices_nan_call) None
           (value_of [] slices_nan_call)).
  - exact (proj1 data_nan_invariants).
  - exact (proj2 data_nan_invariants).
  - discriminate.
  - vm_compute. lia.
  - discriminate.
  - reflexivity.
  - vm_compute. reflexivity.
  - intros p. exists [NaN]. split.
    + vm_compute. left. reflexivity.
    + destruct p as [| [| p]]; reflexivity.
Defined.

Lemma climatology_is_subtracted_witness :
  exists n scores,
    scores = map (fun p => if is_obs_or_fcst (fst p)
                           then zip_with fsub (snd p) clim_slice
                           else snd p)
                 (combine [Fcst] (value_of [] slices_clim_call))
    /\ length clim_slice = n
    /\ Forall (fun v => length v = n) (value_of [] slices_clim_call)
    /\ get_scores false data_AB_clim [Fcst] 0 AxisTime 0 state_AB_clim
       = Ok (map A1 (if Nat.eqb (count_true (joint_mask scores n)) 0
                     then map (fun _ => [NaN]) scores
                     else map (keep (joint_mask scores n)) scores),
             after_call slices_clim_call).
Proof.
  apply (@climatology_is_subtracted false data_AB_clim [Fcst] 0 AxisTime 0
           state_AB_clim state_after_clim (after_call slices_clim_call)
           clim_array clim_slice (value_of [] slices_clim_call)).
  - exact (proj1 data_AB_clim_invariants).
  - exact (proj2 data_AB_clim_invariants).
  - discriminate.
  - vm_compute. lia.
  - reflexivity.
  - reflexivity.
  - reflexivity.
  - vm_compute. reflexivity.
  - vm_compute. reflexivity.
  - vm_compute. reflexivity.
Defined.

(** The same call, evaluated: A's forecasts 6, 7, 8, 9 at the first
    common time minus the climatology's 1, 1, 2, 2; the third position
    is missing in B's forecast and is dropped. *)
Example anomaly_of_A_at_first_time :
  map finite_value clim_slice = [Some (1 # 1)%Q; Some (1 # 1)%Q; None; Some (2 # 1)%Q]
  /\ match get_scores false data_AB_clim [Fcst] 0 AxisTime 0 state_AB_clim with
     | Ok (l, _) => map flat_values l
     | Err _ => []
     end = [[Some (5 # 1)%Q; Some (6 # 1)%Q; Some (7 # 1)%Q]].
Proof. split; vm_compute; reflexivity. Qed.

(** * Further properties of the class *)

(** ** Positions that [np.where] reports *)

Lemma where_from_In (i p : nat) (mask : list bool) :
  In p (where_from i mask) <-> exists k, p = i + k /\ nth_error mask k = Some true.
Proof.
  revert i. induction mask as [| b mask IH]; intros i; simpl.
  - split; [tauto |]. intros [k [_ Hk]]. destruct k; discriminate.
  - assert (Hrest : In p (where_from (S i) mask) <->
                    exists k, p = i + S k /\ nth_error mask k = Some true).
    { rewrite IH. split; intros [k [E Hk]]; exists k; split; try assumption; lia. }
    destruct b; simpl; rewrite Hrest; split.
    + intros [<- | [k [E Hk]]].
      * exists 0. split; [lia | reflexivity].
      * exists (S k). split; assumption.
    + intros [[| k] [E Hk]].
      * left. lia.
      * right. exists k. split; assumption.
    + intros [k [E Hk]]. exists (S k). split; assumption.
    + intros [[| k] [E Hk]]; [discriminate |]. exists k. split; assumption.
Qed.

Lemma np_where_In (p : nat) (mask : list bool) :
  In p (np_where mask) <-> nth_error mask p = Some true.
Proof.
  unfold np_where. rewrite where_from_In. split.
  - intros [k [-> Hk]]. exact Hk.
  - intros Hp. exists p. split; [reflexivity | exact Hp].
Qed.

Lemma mapM_getitem_pointwise {A} (temp : list A) (II : list nat) (vs : list A) :
  length II = length vs ->
  (forall i j, nth_error II i = Some j -> nth_error temp j = nth_error vs i) ->
  mapM (getitem temp) II = Ok vs.
Proof.
  revert vs. induction II as [| j II IH]; intros [| v vs] Hlen Hpt;
    simpl in Hlen; try discriminate; [reflexivity |].
  simpl. unfold getitem at 1. rewrite (Hpt 0 j eq_refl). simpl.
  rewrite (IH vs); [reflexivity | lia |].
  intros i j' Hi. apply (Hpt (S i) j' Hi).
Qed.

Lemma mapM_getitem_nth {A} (temp : list A) (II : list nat) (vs : list A) (i j : nat) :
  mapM (getitem temp) II = Ok vs -> nth_error II i = Some j ->
  nth_error temp j = nth_error vs i /\ j < length temp.
Proof.
  intros Hm Hi.
  destruct (mapM_nth_error _ _ _ Hm Hi) as [b [Hb Hg]].
  unfold getitem in Hg. destruct (nth_error temp j) as [x |] eqn:Hx; [| discriminate].
  inversion Hg; subst b. split; [now symmetry |].
  apply nth_error_Some. congruence.
Qed.

Lemma mapM_Forall2 {A B} (F : A -> result B) (l : list A) (bs : list B) :
  mapM F l = Ok bs -> Forall2 (fun a b => F a = Ok b) l bs.
Proof.
  revert bs. induction l as [| a l IH]; simpl; intros bs Hm.
  - inversion Hm. constructor.
  - apply bind_Ok in Hm. destruct Hm as [b [Hb Hm]].
    apply bind_Ok in Hm. destruct Hm as [bs' [Hbs Hm]]. inversion Hm; subst bs.
    constructor; [exact Hb | now apply IH].
Qed.

(** The first exception of a loop over a range. *)
Lemma mapM_range_first_error {B} (F : nat -> result B) (s n : nat) (e : exn) :
  mapM F (seq s n) = Err e ->
  exists i, s <= i < s + n /\ F i = Err e
            /\ forall i', s <= i' < i -> exists b, F i' = Ok b.
Proof.
  revert s. induction n as [| n IH]; intros s Hm; simpl in Hm; [discriminate |].
  destruct (F s) as [b | e'] eqn:Hs; simpl in Hm.
  - destruct (mapM F (seq (S s) n)) as [bs | e''] eqn:Hl; simpl in Hm; [discriminate |].
    inversion Hm; subst e''. destruct (IH (S s) Hl) as [i [Hi [Hfi Hpre]]].
    exists i. split; [lia |]. split; [exact Hfi |].
    intros i' Hi'. destruct (Nat.eq_dec i' s) as [-> | Hne]; [eauto |].
    apply Hpre. lia.
  - inversion Hm; subst e'. exists s. split; [lia |]. split; [exact Hs |].
    intros i' Hi'. lia.
Qed.

Lemma mapM_Ok_or {A B} (F : A -> result B) (l : list A) (e : exn) :
  (forall a, In a l -> (exists b, F a = Ok b) \/ F a = Err e) ->
  (exists bs, mapM F l = Ok bs) \/ mapM F l = Err e.
Proof.
  induction l as [| a l IH]; intros Hf; simpl; [eauto |].
  destruct (Hf a (or_introl eq_refl)) as [[b Hb] | Hb]; rewrite Hb; cbn [bind];
    [| now right].
  destruct IH as [[bs Hbs] | Hbs]; [intros x Hx; apply Hf; now right | |];
    rewrite Hbs; cbn [bind]; eauto.
Qed.

Lemma once_tail {A} (x y : A) (l : list A) : once x (y :: l) -> once x l.
Proof.
  intros Ho j j' Hj Hj'. specialize (Ho (S j) (S j') Hj Hj'). lia.
Qed.

Lemma once_head_absent {A} (x : A) (l : list A) : once x (x :: l) -> ~ In x l.
Proof.
  intros Ho Hin. apply In_nth_error in Hin. destruct Hin as [k Hk].
  specialize (Ho 0 (S k) eq_refl Hk). discriminate.
Qed.

Lemma NoDup_once {A} (x : A) (l : list A) : NoDup l -> once x l.
Proof.
  intros Hnd j j' Hj Hj'. rewrite NoDup_nth_error in Hnd. apply Hnd.
  - apply nth_error_Some. congruence.
  - congruence.
Qed.

Lemma once_all_NoDup {A} (l : list A) : (forall x, In x l -> once x l) -> NoDup l.
Proof.
  intros Ho. apply NoDup_nth_error. intros i j Hi E.
  apply nth_error_Some in Hi.
  destruct (nth_error l i) as [x |] eqn:Hx; [| congruence].
  apply (Ho x); [eapply nth_error_In, Hx | exact Hx | now symmetry].
Qed.

(** The items that pass a test are without repeats when each of them is
    held once. *)
Lemma filter_once_NoDup {A} (p : A -> bool) (l : list A) :
  (forall x, In x l -> p x = true -> once x l) -> NoDup (filter p l).
Proof.
  induction l as [| y l IH]; intros Ho; simpl; [constructor |].
  assert (Hl : NoDup (filter p l)).
  { apply IH. intros x Hx Hp. eapply once_tail, Ho; [now right | exact Hp]. }
  destruct (p y) eqn:Hy; [| exact Hl].
  constructor; [| exact Hl].
  intros Hin. apply filter_In in Hin. destruct Hin as [Hin _].
  eapply once_head_absent; [| exact Hin]. apply Ho; [now left | exact Hy].
Qed.

Lemma filter_all {A} (p : A -> bool) (l : list A) :
  (forall x, In x l -> p x = true) -> filter p l = l.
Proof.
  induction l as [| y l IH]; intros Hp; simpl; [reflexivity |].
  rewrite (Hp y) by now left. f_equal. apply IH. intros x Hx. apply Hp. now right.
Qed.

(** ** The index loop of [_get_common_indices] without assumptions on
    the data *)

Section IndexLoop.
Context {A : Type} `{DimOrd A}.

Lemma insert_sorted_length (x : A) (l : list A) :
  length (insert_sorted x l) = S (length l).
Proof.
  induction l as [| y l IH]; simpl; [reflexivity |].
  destruct (dleb x y); simpl; [reflexivity | now rewrite IH].
Qed.

Lemma np_sort_length (l : list A) : length (np_sort l) = length l.
Proof.
  induction l as [| x l IH]; simpl; [reflexivity |].
  now rewrite insert_sorted_length, IH.
Qed.

(** [np.where(v == temp)[0]] holding exactly [j]: [v] is at position
    [j] of [temp] and nowhere else. *)
Lemma where_single_position (v : A) (temp : list A) (j : nat) :
  np_where (map (deqb v) temp) = [j] ->
  nth_error temp j = Some v /\ once v temp.
Proof.
  intros Hw.
  assert (Hpos : forall p, nth_error temp p = Some v <-> p = j).
  { intros p.
    assert (Hp : In p (np_where (map (deqb v) temp)) <-> nth_error temp p = Some v).
    { rewrite np_where_In, nth_error_map.
      destruct (nth_error temp p) as [x |]; simpl; [| split; discriminate].
      split.
      - intros E. inversion E as [E']. apply deqb_eq in E'. now subst.
      - intros E. inversion E. now rewrite deqb_refl. }
    rewrite <- Hp, Hw. simpl. intuition congruence. }
  split.
  - now apply Hpos.
  - intros p p' Hp Hp'. apply Hpos in Hp, Hp'. congruence.
Qed.

(** A value held once has one position, which [np.where] reports. *)
Lemma where_of_once (v : A) (temp : list A) :
  In v temp -> once v temp -> exists j, np_where (map (deqb v) temp) = [j].
Proof.
  unfold np_where. generalize 0 as i.
  induction temp as [| x temp IH]; intros i Hin Ho; [destruct Hin |].
  simpl. destruct (deqb v x) eqn:Hvx.
  - apply deqb_eq in Hvx. subst x. exists i.
    rewrite where_from_absent; [reflexivity |]. now apply once_head_absent.
  - destruct Hin as [-> | Hin]; [rewrite deqb_refl in Hvx; discriminate |].
    apply (IH (S i) Hin). eapply once_tail, Ho.
Qed.

Lemma rounds_filter (values temp : list A) :
  rounds values temp = length (filter (contains values) temp).
Proof.
  unfold rounds, np_where, np_in1d. now rewrite where_from_length, filter_map_length.
Qed.

(** What a successful index loop has established at each round. *)
Lemma index_array_rounds (values temp : list A) (II : list nat) :
  index_array values temp = Ok II ->
  length II = rounds values temp
  /\ forall i, i < rounds values temp ->
       exists v j, nth_error values i = Some v /\ nth_error II i = Some j
                   /\ nth_error temp j = Some v /\ once v temp.
Proof.
  unfold index_array. fold (rounds values temp). intros Hm. split.
  - apply mapM_length in Hm. now rewrite length_seq in Hm.
  - intros i Hi.
    assert (Hseq : nth_error (seq 0 (rounds values temp)) i = Some i).
    { rewrite nth_error_seq.
      destruct (Nat.ltb_spec i (rounds values temp)); [reflexivity | lia]. }
    destruct (mapM_nth_error _ _ _ Hm Hseq) as [j [Hj Hstep]].
    apply bind_Ok in Hstep. destruct Hstep as [v [Hv Hstep]].
    destruct (np_where (map (deqb v) temp)) as [| j0 [| ? ?]] eqn:Hw; try discriminate.
    inversion Hstep; subst j0.
    destruct (where_single_position _ _ Hw) as [Hpos Honce].
    exists v, j. split; [now apply getitem_Ok |]. repeat split; assumption.
Qed.

(** When the values are without repeats and all held by the file, the
    loop runs at least once for each value. *)
Lemma rounds_at_least (values temp : list A) :
  NoDup values -> incl values temp -> length values <= rounds values temp.
Proof.
  intros Hnd Hincl. rewrite rounds_filter. apply NoDup_incl_length; [exact Hnd |].
  intros x Hx. apply filter_In. split; [now apply Hincl | now apply contains_In].
Qed.

Lemma rounds_at_most (values temp : list A) :
  (forall v, In v values -> once v temp) -> rounds values temp <= length values.
Proof.
  intros Ho. rewrite rounds_filter. apply NoDup_incl_length.
  - apply filter_once_NoDup. intros x _ Hx. apply Ho. now apply contains_In.
  - intros x Hx. apply filter_In in Hx. now apply contains_In.
Qed.

(** A successful loop over values without repeats that the file holds:
    the index array reads the values back, and the file holds each of
    them once. *)
Lemma index_array_success (values temp : list A) (II : list nat) :
  NoDup values -> incl values temp ->
  index_array values temp = Ok II ->
  mapM (getitem temp) II = Ok values
  /\ forall v, In v values -> once v temp.
Proof.
  intros Hnd Hincl Hm.
  destruct (index_array_rounds _ _ Hm) as [Hlen Hround].
  pose proof (rounds_at_least Hnd Hincl) as Hge.
  assert (Honce : forall v, In v values -> once v temp).
  { intros v Hv. apply In_nth_error in Hv. destruct Hv as [i Hi].
    assert (Hlt : i < length values) by (apply nth_error_Some; congruence).
    destruct (Hround i) as [v' [j [Hv' [_ [_ Ho]]]]]; [lia |].
    assert (v' = v) by congruence. now subst v'. }
  split; [| exact Honce].
  pose proof (@rounds_at_most values temp Honce) as Hle.
  apply mapM_getitem_pointwise; [lia |].
  intros i j Hi.
  assert (Hlt : i < rounds values temp).
  { rewrite <- Hlen. apply nth_error_Some. congruence. }
  destruct (Hround i Hlt) as [v [j' [Hv [Hj' [Hpos _]]]]]. congruence.
Qed.

(** The only exception the loop can stop with is [ValueError]: a value
    is read past the end of [values] only after every value has been
    found held once, and then the loop has no round left. *)
Lemma index_array_Ok_or_ValueError (values temp : list A) :
  (exists II, index_array values temp = Ok II)
  \/ index_array values temp = Err ValueError.
Proof.
  destruct (index_array values temp) as [II | e] eqn:Hm; [eauto |]. right.
  unfold index_array in Hm. fold (rounds values temp) in Hm.
  destruct (mapM_range_first_error _ _ _ Hm) as [i [Hi [Hfi Hpre]]].
  destruct (nth_error values i) as [v |] eqn:Hv.
  - unfold getitem in Hfi. rewrite Hv in Hfi. cbn [bind] in Hfi.
    destruct (np_where (map (deqb v) temp)) as [| j [| ? ?]]; congruence.
  - exfalso. apply nth_error_None in Hv.
    assert (Honce : forall v, In v values -> once v temp).
    { intros v Hin. apply In_nth_error in Hin. destruct Hin as [k Hk].
      assert (Hlt : k < length values) by (apply nth_error_Some; congruence).
      destruct (Hpre k) as [j Hj]; [lia |].
      unfold getitem in Hj. rewrite Hk in Hj. cbn [bind] in Hj.
      destruct (np_where (map (deqb v) temp)) as [| j0 [| ? ?]] eqn:Hw; try discriminate.
      now destruct (where_single_position _ _ Hw). }
    pose proof (@rounds_at_most values temp Honce). lia.
Qed.

Lemma index_array_once_Ok (values temp : list A) :
  incl values temp -> (forall v, In v values -> once v temp) ->
  exists II, index_array values temp = Ok II.
Proof.
  intros Hincl Honce. unfold index_array. apply mapM_total. intros i Hi.
  apply in_seq in Hi. fold (rounds values temp) in Hi.
  pose proof (@rounds_at_most values temp Honce) as Hle.
  destruct (nth_error values i) as [v |] eqn:Hv.
  - unfold getitem. rewrite Hv. cbn [bind].
    destruct (@where_of_once v temp) as [j Hj].
    + eapply Hincl, nth_error_In, Hv.
    + eapply Honce, nth_error_In, Hv.
    + rewrite Hj. eauto.
  - apply nth_error_None in Hv. lia.
Qed.

Lemma index_array_twice_ValueError (values temp : list A) :
  length values <= rounds values temp ->
  (exists v, In v values /\ ~ once v temp) ->
  index_array values temp = Err ValueError.
Proof.
  intros Hge [v [Hv Hno]].
  destruct (index_array_Ok_or_ValueError values temp) as [[II Hm] | Herr];
    [| exact Herr].
  exfalso. apply Hno. destruct (index_array_rounds _ _ Hm) as [_ Hround].
  apply In_nth_error in Hv. destruct Hv as [i Hi].
  assert (Hlt : i < length values) by (apply nth_error_Some; congruence).
  destruct (Hround i) as [v' [j [Hv' [_ [_ Ho]]]]]; [lia |].
    assert (v' = v) by congruence. now subst v'.
Qed.

(** A single file and no [aux]: the values are the file's own items,
    sorted, and the loop succeeds only if the file holds no repeats. *)
Lemma index_array_self_NoDup (temp : list A) (II : list nat) :
  index_array (np_sort temp) temp = Ok II -> NoDup temp.
Proof.
  intros Hm. destruct (index_array_rounds _ _ Hm) as [_ Hround].
  assert (Hr : rounds (np_sort temp) temp = length temp).
  { rewrite rounds_filter, filter_all; [reflexivity |].
    intros x Hx. apply contains_In. now apply np_sort_In. }
  apply once_all_NoDup. intros x Hx.
  apply np_sort_In in Hx. apply In_nth_error in Hx. destruct Hx as [i Hi].
  assert (Hlt : i < length (np_sort temp)) by (apply nth_error_Some; congruence).
  rewrite np_sort_length in Hlt.
  destruct (Hround i) as [v' [j [Hv' [_ [_ Ho]]]]]; [lia |].
  assert (v' = x) by congruence. now subst v'.
Qed.

Lemma rounds_self (temp : list A) : rounds (np_sort temp) temp = length (np_sort temp).
Proof.
  rewrite rounds_filter, np_sort_length, filter_all; [reflexivity |].
  intros x Hx. apply contains_In. now apply np_sort_In.
Qed.

(** What the first loop has collected before the sort: the values of
    [aux] (when given) that every file holds. *)
Lemma fold_common_step_total (raws : list (list A)) (aux : option (list A)) :
  raws <> [] ->
  exists w, fold_left common_step raws aux = Some w
    /\ (forall x, In x w <->
          (forall r, In r raws -> In x r) /\ (forall a, aux = Some a -> In x a))
    /\ (NoDup w \/ exists r, raws = [r] /\ aux = None /\ w = r).
Proof.
  intros Hne. destruct aux as [a |].
  - destruct (fold_common_step_Some raws a) as [w [Hw [Hin Hnd]]].
    exists w. split; [exact Hw |]. split.
    + intros x. rewrite Hin. split.
      * intros [Ha Hall]. split; [exact Hall |]. intros a' E. now inversion E; subst.
      * intros [Hall Ha]. split; [now apply Ha | exact Hall].
    + left. apply Hnd. now right.
  - destruct raws as [| r raws]; [congruence |]. simpl.
    destruct (fold_common_step_Some raws r) as [w [Hw [Hin Hnd]]].
    exists w. split; [exact Hw |]. split.
    + intros x. rewrite Hin. split.
      * intros [Hr Hall]. split; [| discriminate].
        intros r' [<- | Hr']; [exact Hr | now apply Hall].
      * intros [Hall _]. split; [apply Hall; now left |].
        intros r' Hr'. apply Hall. now right.
    + destruct raws as [| r' raws].
      * right. exists r. simpl in Hw. inversion Hw. repeat split.
      * left. apply Hnd. right. discriminate.
Qed.

(** What a successful run of the two loops has established. *)
Lemma common_indices_success (raws : list (list A)) (aux : option (list A))
    (indices : list (list nat)) :
  raws <> [] ->
  common_indices raws aux = Ok indices ->
  exists values,
    common_values raws aux = Ok values
    /\ ascending values
    /\ (forall x, In x values <->
          (forall r, In r raws -> In x r) /\ (forall a, aux = Some a -> In x a))
    /\ Forall2 (fun temp II => mapM (getitem temp) II = Ok values) raws indices
    /\ (forall r v, In r raws -> In v values -> once v r).
Proof.
  intros Hne Hci. unfold common_indices in Hci.
  apply bind_Ok in Hci. destruct Hci as [values [Hv Hm]].
  exists values. split; [exact Hv |].
  unfold common_values in Hv.
  destruct (fold_common_step_total aux Hne) as [w [Hw [Hin Hshape]]].
  rewrite Hw in Hv. inversion Hv; subst values; clear Hv.
  assert (Hnd : NoDup w).
  { destruct Hshape as [Hnd | [r [-> [-> ->]]]]; [exact Hnd |].
    simpl in Hm. apply bind_Ok in Hm. destruct Hm as [II [HII _]].
    eapply index_array_self_NoDup, HII. }
  assert (Hasc : ascending (np_sort w)) by now apply np_sort_ascending.
  assert (Hsub : forall r, In r raws -> incl (np_sort w) r).
  { intros r Hr x Hx. rewrite np_sort_In in Hx. apply Hin in Hx.
    destruct Hx as [Hall _]. now apply Hall. }
  split; [exact Hasc |]. split.
  { intros x. now rewrite np_sort_In. }
  apply mapM_Forall2 in Hm.
  clear Hw Hin Hshape Hne. split.
  - induction Hm as [| r II raws indices HII Hrest IH]; constructor.
    + eapply index_array_success; [apply ascending_NoDup, Hasc | | exact HII].
      apply Hsub. now left.
    + apply IH. intros r' Hr'. apply Hsub. now right.
  - intros r v Hr Hv.
    induction Hm as [| r0 II raws indices HII Hrest IH]; [destruct Hr |].
    destruct Hr as [-> | Hr].
    + destruct (@index_array_success (np_sort w) r II) as [_ Ho];
        [apply ascending_NoDup, Hasc | apply Hsub; now left | exact HII |].
      now apply Ho.
    + apply IH; [| exact Hr]. intros r' Hr'. apply Hsub. now right.
Qed.

(** The two loops either succeed or stop with [ValueError], and they
    succeed exactly when no file holds a common value twice. *)
Lemma common_indices_outcome (raws : list (list A)) (aux : option (list A)) :
  raws <> [] ->
  exists values,
    common_values raws aux = Ok values
    /\ ((forall r v, In r raws -> In v values -> once v r) ->
        exists indices, common_indices raws aux = Ok indices)
    /\ ((exists r v, In r raws /\ In v values /\ ~ once v r) ->
        common_indices raws aux = Err ValueError).
Proof.
  intros Hne. unfold common_indices, common_values.
  destruct (fold_common_step_total aux Hne) as [w [Hw [Hin Hshape]]].
  rewrite Hw. exists (np_sort w). split; [reflexivity |]. cbn [bind].
  assert (Hsub : forall r, In r raws -> incl (np_sort w) r).
  { intros r Hr x Hx. rewrite np_sort_In in Hx. apply Hin in Hx.
    destruct Hx as [Hall _]. now apply Hall. }
  assert (Hge : forall r, In r raws -> length (np_sort w) <= rounds (np_sort w) r).
  { intros r Hr. destruct Hshape as [Hnd | [r0 [-> [_ ->]]]].
    - apply rounds_at_least; [| now apply Hsub].
      apply ascending_NoDup. now apply np_sort_ascending.
    - destruct Hr as [<- | []]. now rewrite rounds_self. }
  clear Hw Hin Hshape Hne. split.
  - intros Honce. apply mapM_total. intros r Hr.
    apply index_array_once_Ok; [now apply Hsub |].
    intros v Hv. now apply Honce.
  - intros [r [v [Hr [Hv Hno]]]].
    induction raws as [| r0 raws IH]; [destruct Hr |]. simpl.
    destruct (index_array_Ok_or_ValueError (np_sort w) r0) as [[II HII] | Herr];
      [| now rewrite Herr].
    rewrite HII. cbn [bind].
    destruct Hr as [-> | Hr].
    + rewrite index_array_twice_ValueError in HII; [discriminate | | eauto].
      apply Hge. now left.
    + rewrite IH; [reflexivity | | | exact Hr].
      * intros r' Hr'. apply Hsub. now right.
      * intros r' Hr'. apply Hge. now right.
Qed.

End IndexLoop.

(** ** What [_get_common_indices] does for any list of files *)

Lemma Forall2_map_left {A B C} (R : B -> C -> Prop) (g : A -> B) (l : list A) (l' : list C) :
  Forall2 R (map g l) l' -> Forall2 (fun a c => R (g a) c) l l'.
Proof.
  revert l'. induction l as [| a l IH]; intros l' Hf; inversion Hf; subst; constructor.
  - assumption.
  - now apply IH.
Qed.

Lemma Forall2_nth_error {A B} (R : A -> B -> Prop) (l : list A) (l' : list B)
    (i : nat) (a : A) :
  Forall2 R l l' -> nth_error l i = Some a ->
  exists b, nth_error l' i = Some b /\ R a b.
Proof.
  intros Hf. revert i. induction Hf as [| x y l l' Hxy Hf IH]; intros i Hi.
  - destruct i; discriminate.
  - destruct i as [| i]; simpl in *.
    + inversion Hi; subst. eauto.
    + now apply IH.
Qed.

Lemma get_common_indices_success
    (files : list Input) (name : dim) (aux : option (list (dim_value name)))
    (indices : list (list nat)) :
  files <> [] ->
  _get_common_indices files name aux = Ok indices ->
  exists values,
    @common_values _ (dim_ord name) (map (raw_values name) files) aux = Ok values
    /\ @ascending _ (dim_ord name) values
    /\ (forall x, In x values <->
          (forall file, In file files -> In x (raw_values name file))
          /\ (forall a, aux = Some a -> In x a))
    /\ Forall2 (fun file II => read_at (raw_values name file) II = Ok values)
               files indices
    /\ (forall file v, In file files -> In v values -> once v (raw_values name file)).
Proof.
  intros Hne Hidx. unfold _get_common_indices in Hidx.
  assert (Hne' : map (raw_values name) files <> []).
  { destruct files; [congruence | discriminate]. }
  destruct (@common_indices_success _ (dim_ord name) _ aux indices Hne' Hidx)
    as [values [Hv [Hasc [Hin [Hall Honce]]]]].
  exists values. split; [exact Hv |]. split; [exact Hasc |].
  split; [| split].
  - intros x. rewrite Hin. split; intros [Hall' Haux]; (split; [| exact Haux]).
    + intros file Hfile. apply Hall'. apply in_map, Hfile.
    + intros l Hl. apply in_map_iff in Hl. destruct Hl as [file [<- Hfile]].
      now apply Hall'.
  - apply Forall2_map_left in Hall. exact Hall.
  - intros file v Hfile Hv'. apply Honce; [| exact Hv']. apply in_map, Hfile.
Qed.

(** X1.  For a non-empty list of files [_get_common_indices] either
    returns or raises [ValueError], never another exception; and it
    returns exactly when every file holds each common value at one
    position only. *)
Theorem get_common_indices_returns_or_raises_ValueError
    (files : list Input) (name : dim) (aux : option (list (dim_value name))) :
  files <> [] ->
  exists values,
    @common_values _ (dim_ord name) (map (raw_values name) files) aux = Ok values
    /\ ((exists indices, _get_common_indices files name aux = Ok indices)
        \/ _get_common_indices files name aux = Err ValueError)
    /\ ((exists indices, _get_common_indices files name aux = Ok indices) <->
        (forall file v, In file files -> In v values -> once v (raw_values name file))).
Proof.
  intros Hne.
  assert (Hne' : map (raw_values name) files <> []).
  { destruct files; [congruence | discriminate]. }
  destruct (@common_indices_outcome _ (dim_ord name) _ aux Hne')
    as [values [Hv [Hok Hbad]]].
  exists values. split; [exact Hv |]. split.
  - unfold _get_common_indices, common_indices. rewrite Hv. cbn [bind].
    apply mapM_Ok_or. intros r _. apply index_array_Ok_or_ValueError.
  - split.
    + intros [indices Hidx].
      destruct (@get_common_indices_success files name aux indices Hne Hidx)
        as [values' [Hv' [_ [_ [_ Honce]]]]].
      rewrite Hv in Hv'. inversion Hv'; subst values'. exact Honce.
    + intros Honce. apply Hok. intros r v Hr Hin.
      apply in_map_iff in Hr. destruct Hr as [file [<- Hfile]]. now apply Honce.
Qed.

(** ** Construction and the empty common sets *)

Lemma NoDup_held_once (files : list Input) (name : dim)
    (aux : option (list (dim_value name))) :
  Forall (fun file => NoDup (raw_values name file)) files -> held_once files name aux.
Proof.
  intros Hnd values file v _ Hfile _. apply NoDup_once.
  rewrite Forall_forall in Hnd. now apply Hnd.
Qed.

(** When no file holds a common value twice, the index arrays are
    computed, and the first file read at its own gives the common
    values. *)
Lemma get_common_indices_first_once
    (first : Input) (rest : list Input) (name : dim) (aux : option (list (dim_value name))) :
  held_once (first :: rest) name aux ->
  exists values II idx,
    @common_values _ (dim_ord name) (map (raw_values name) (first :: rest)) aux = Ok values
    /\ _get_common_indices (first :: rest) name aux = Ok (II :: idx)
    /\ mapM (getitem (raw_values name first)) II = Ok values.
Proof.
  intros Honce.
  assert (Hne : first :: rest <> []) by discriminate.
  assert (Hne' : map (raw_values name) (first :: rest) <> []) by discriminate.
  destruct (@common_indices_outcome _ (dim_ord name) _ aux Hne') as [values [Hv [Hok _]]].
  destruct Hok as [indices Hidx].
  { intros r v Hr Hin. apply in_map_iff in Hr. destruct Hr as [file [<- Hfile]].
    exact (Honce values file v Hv Hfile Hin). }
  destruct (@get_common_indices_success (first :: rest) name aux indices Hne Hidx)
    as [values' [Hv' [_ [_ [Hall _]]]]].
  rewrite Hv in Hv'. inversion Hv'; subst values'.
  inversion Hall as [| ? II ? idx HII Hrest]; subst.
  exists values, II, idx. split; [exact Hv |]. split; [exact Hidx | exact HII].
Qed.

(** C5.  Once the earlier steps of construction have passed,
    and when no input holds a value of the common times, offsets or
    location ids at more than one position: if the common times,
    offsets or locations are empty, construction stops with
    [verif.util.error]; and if none is empty (and the common times are
    timestamps [datetime] accepts), construction returns a dataset
    whose times, offsets and location ids are those non-empty common
    sets. *)
Theorem construction_fails_exactly_on_empty_common_set
    (inputs : list Input) (times0 : option (list Z)) (offsets0 : option (list Qc))
    (locations0 : option (list Z))
    (lat_range lon_range elev_range : option (float * float))
    (clim : option Input) (clim_type : string)
    (legend : option (list string)) (remove_missing_across_all : bool)
    (obs_field fcst_field : Field)
    (self_inputs : list Input) (use0 use : list Z) :
  inputs <> [] ->
  check_legend inputs legend = Ok tt ->
  organize_inputs inputs clim clim_type = Ok self_inputs ->
  latlon_filter self_inputs locations0 lat_range lon_range = Ok use0 ->
  elev_filter self_inputs use0 elev_range = Ok use ->
  held_once self_inputs DimTime times0 ->
  held_once self_inputs DimOffset offsets0 ->
  held_once self_inputs DimLocation (Some use) ->
  exists vt vo vl,
    @common_values _ (dim_ord DimTime) (map (raw_values DimTime) self_inputs) times0 = Ok vt
    /\ @common_values _ (dim_ord DimOffset) (map (raw_values DimOffset) self_inputs) offsets0 = Ok vo
    /\ @common_values _ (dim_ord DimLocation) (map (raw_values DimLocation) self_inputs) (Some use) = Ok vl
    /\ (vt = [] \/ vo = [] \/ vl = [] ->
        exists msg,
          __init__ inputs times0 offsets0 locations0 lat_range lon_range elev_range
            clim clim_type legend remove_missing_across_all obs_field fcst_field
          = Err (UtilError msg))
    /\ (vt <> [] -> vo <> [] -> vl <> [] ->
        (forall t, In t vt -> exists dt, utcfromtimestamp t = Ok dt) ->
        exists d st,
          __init__ inputs times0 offsets0 locations0 lat_range lon_range elev_range
            clim clim_type legend remove_missing_across_all obs_field fcst_field
          = Ok (d, st)
          /\ times d = vt /\ offsets d = vo
          /\ map loc_id (locations d) = vl).
Proof.
  intros Hne Hleg Horg Hlat Helev Honcet Honceo Honcel.
  assert (Hself : exists first rest, self_inputs = first :: rest).
  { unfold organize_inputs in Horg. destruct clim as [c |].
    - destruct (negb _); [discriminate |]. inversion Horg.
      destruct inputs as [| i0 inputs']; [congruence |]. simpl. eauto.
    - inversion Horg; subst. destruct self_inputs; [congruence | eauto]. }
  destruct Hself as [first [rest ->]].
  destruct (@get_common_indices_first_once first rest DimTime times0 Honcet)
    as [vt [It [idxt [Hvt [Hit Hgt]]]]].
  destruct (@get_common_indices_first_once first rest DimOffset offsets0 Honceo)
    as [vo [Io [idxo [Hvo [Hio Hgo]]]]].
  destruct (@get_common_indices_first_once first rest DimLocation (Some use) Honcel)
    as [vl [Il [idxl [Hvl [Hil Hgl]]]]].
  exists vt, vo, vl. split; [exact Hvt |]. split; [exact Hvo |]. split; [exact Hvl |].
  unfold __init__. rewrite Hleg, Horg. cbn [bind]. rewrite Hlat. cbn [bind].
  rewrite Helev. cbn [bind]. rewrite Hit, Hio, Hil. cbn [bind].
  rewrite (is_empty_first_values _ _ idxt Hgt). cbn [bind].
  split.
  - intros Hempty. destruct vt as [| t vt]; [eauto |].
    rewrite (is_empty_first_values _ _ idxo Hgo). cbn [bind].
    destruct vo as [| o vo]; [eauto |].
    rewrite (is_empty_first_values _ _ idxl Hgl). cbn [bind].
    destruct vl as [| l vl]; [eauto |].
    destruct Hempty as [E | [E | E]]; discriminate.
  - intros Ht Ho Hl Hdt.
    destruct vt as [| t vt']; [congruence |].
    rewrite (is_empty_first_values _ _ idxo Hgo). cbn [bind].
    destruct vo as [| o vo']; [congruence |].
    rewrite (is_empty_first_values _ _ idxl Hgl). cbn [bind].
    destruct vl as [| l vl']; [congruence |].
    unfold first_values. cbn [bind getitem nth_error].
    cbv beta iota delta [raw_values dim_value] in Hgt, Hgo, Hgl.
    rewrite Hgt, Hgo. cbn [bind].
    destruct (mapM_getitem_map _ _ _ Hgl) as [ls [Hls Hmap]].
    rewrite Hls. cbn [bind].
    destruct (sorted_common_total (input_thresholds first) (map input_thresholds rest))
      as [th Hth].
    destruct (sorted_common_total (input_quantiles first) (map input_quantiles rest))
      as [qu Hqu].
    cbn [map]. rewrite Hth, Hqu. cbn [bind].
    destruct (mapM_total utcfromtimestamp (t :: vt') Hdt) as [dts Hdts].
    cbv beta iota delta [dim_value] in Hdts.
    unfold _get_months, _get_years. rewrite Hdts. cbn [bind].
    eexists. eexists. split; [reflexivity |]. simpl. tauto.
Qed.

(** Closes [once v l] for a literal list [l] of up to six integers. *)
Ltac literal_once :=
  let j := fresh "j" in
  let j' := fresh "j'" in
  let Hj := fresh "Hj" in
  let Hj' := fresh "Hj'" in
  intros j j' Hj Hj';
  do 7 (try (destruct j as [| j]; simpl in Hj; try discriminate Hj));
  do 7 (try (destruct j' as [| j']; simpl in Hj'; try discriminate Hj'));
  reflexivity.

(** The inputs [B] and [D] have one common time, 200; [D] holds the
    time 100 twice, which no check meets. *)
Lemma construction_fails_exactly_on_empty_common_set_witness :
  exists vt vo vl,
    @common_values _ (dim_ord DimTime) (map (raw_values DimTime) [input_B; input_dup]) None = Ok vt
    /\ @common_values _ (dim_ord DimOffset) (map (raw_values DimOffset) [input_B; input_dup]) None = Ok vo
    /\ @common_values _ (dim_ord DimLocation) (map (raw_values DimLocation) [input_B; input_dup])
         (Some [2; 1]%Z) = Ok vl
    /\ (vt = [] \/ vo = [] \/ vl = [] ->
        exists msg,
          __init__ [input_B; input_dup] None None None None None None
            None "subtract" None true Obs Fcst
          = Err (UtilError msg))
    /\ (vt <> [] -> vo <> [] -> vl <> [] ->
        (forall t, In t vt -> exists dt, utcfromtimestamp t = Ok dt) ->
        exists d st,
          __init__ [input_B; input_dup] None None None None None None
            None "subtract" None true Obs Fcst
          = Ok (d, st)
          /\ times d = vt /\ offsets d = vo
          /\ map loc_id (locations d) = vl).
Proof.
  apply (@construction_fails_exactly_on_empty_common_set
           [input_B; input_dup] None None None None None None None "subtract"
           None true Obs Fcst [input_B; input_dup] [2; 1]%Z [2; 1]%Z).
  - discriminate.
  - reflexivity.
  - reflexivity.
  - reflexivity.
  - reflexivity.
  - intros values file v Hv Hfile Hin.
    vm_compute in Hv. inversion Hv; subst values; clear Hv.
    destruct Hin as [<- | []].
    destruct Hfile as [<- | [<- | []]]; literal_once.
  - apply NoDup_held_once. repeat constructor; literal_NoDup.
  - apply NoDup_held_once. repeat constructor; literal_NoDup.
Defined.

Example empty_common_times_stop_construction :
  __init__ [input_A; input_B] (Some [999]%Z) None None None None None
    None "subtract" None true Obs Fcst
  = Err (UtilError "No valid times selected").
Proof. vm_compute. reflexivity. Qed.

Example harmless_repeat_constructs :
  match build [input_B; input_dup] None with
  | Ok (d, _) => Some (times d)
  | Err _ => None
  end = Some [200%Z].
Proof. vm_compute. reflexivity. Qed.

(** C5, as stated, fails for inputs that repeat a common location: the
    inputs [X] and [Y] have no time in common, so the common set of
    times is empty, and the index arrays of the times and the offsets
    are computed; but both list the location 1 twice, the index loop of
    the locations raises [ValueError] (line 586), and the test of line
    138 is never reached: construction ends with [ValueError], which is
    not the error of [verif.util.error]. *)
Lemma repeated_location_hides_empty_times_counterexample :
  @common_values _ (dim_ord DimTime) (map (raw_values DimTime) [input_X; input_Y]) None = Ok []
  /\ _get_common_indices [input_X; input_Y] DimTime None = Ok [[]; []]
  /\ _get_common_indices [input_X; input_Y] DimOffset None = Ok [[0]; [0]]
  /\ latlon_filter [input_X; input_Y] None None None = Ok [1; 1]%Z
  /\ _get_common_indices [input_X; input_Y] DimLocation (Some [1; 1]%Z) = Err ValueError
  /\ __init__ [input_X; input_Y] None None None None None None
       None "subtract" None true Obs Fcst
     = Err ValueError
  /\ is_ConfigurationError ValueError = false.
Proof. repeat split; vm_compute; reflexivity. Qed.

(** ** What a successful construction has gone through *)

Section Construction.

Variables (inputs : list Input) (times0 : option (list Z)) (offsets0 : option (list Qc))
  (locations0 : option (list Z))
  (lat_range lon_range elev_range : option (float * float))
  (clim : option Input) (clim_type : string)
  (legend : option (list string)) (remove_missing_across_all : bool)
  (obs_field fcst_field : Field) (d : Data) (st : State).

Hypothesis Hinit :
  __init__ inputs times0 offsets0 locations0 lat_range lon_range elev_range
    clim clim_type legend remove_missing_across_all obs_field fcst_field
  = Ok (d, st).

(** The steps of [__init__], read off a successful run. *)
Lemma init_steps :
  exists use0 use first,
    check_legend inputs legend = Ok tt
    /\ organize_inputs inputs clim clim_type = Ok (_inputs st)
    /\ _cache st = map (fun _ => []) (_inputs st)
    /\ latlon_filter (_inputs st) locations0 lat_range lon_range = Ok use0
    /\ elev_filter (_inputs st) use0 elev_range = Ok use
    /\ _get_common_indices (_inputs st) DimTime times0 = Ok (_timesI d)
    /\ _get_common_indices (_inputs st) DimOffset offsets0 = Ok (_offsetsI d)
    /\ _get_common_indices (_inputs st) DimLocation (Some use) = Ok (_locationsI d)
    /\ is_empty_first (_timesI d) = Ok false
    /\ is_empty_first (_offsetsI d) = Ok false
    /\ is_empty_first (_locationsI d) = Ok false
    /\ getitem (_inputs st) 0 = Ok first
    /\ first_values (input_times first) (_timesI d) = Ok (times d)
    /\ first_values (input_offsets first) (_offsetsI d) = Ok (offsets d)
    /\ first_values (input_locations first) (_locationsI d) = Ok (locations d)
    /\ sorted_common (map input_thresholds (_inputs st)) = Ok (thresholds d)
    /\ sorted_common (map input_quantiles (_inputs st)) = Ok (quantiles d)
    /\ _get_months (times d) = Ok (months d)
    /\ _get_years (times d) = Ok (years d)
    /\ _legend d = legend
    /\ _clim d = match clim with Some _ => true | None => false end
    /\ _clim_type d = clim_type
    /\ num_inputs d = length (_inputs st) - match clim with Some _ => 1 | None => 0 end
    /\ _remove_missing_across_all d = remove_missing_across_all
    /\ _obs_field d = obs_field
    /\ _fcst_field d = fcst_field.
Proof.
  pose proof Hinit as H. unfold __init__ in H.
  apply bind_Ok in H. destruct H as [[] [Hleg H]].
  apply bind_Ok in H. destruct H as [self_inputs [Horg H]].
  apply bind_Ok in H. destruct H as [use0 [Hlatlon H]].
  apply bind_Ok in H. destruct H as [use [Helev H]].
  apply bind_Ok in H. destruct H as [timesI [HtI H]].
  apply bind_Ok in H. destruct H as [offsetsI [HoI H]].
  apply bind_Ok in H. destruct H as [locationsI [HlI H]].
  apply bind_Ok in H. destruct H as [[|] [Het H]]; [discriminate |].
  apply bind_Ok in H. destruct H as [[|] [Heo H]]; [discriminate |].
  apply bind_Ok in H. destruct H as [[|] [Hel H]]; [discriminate |].
  apply bind_Ok in H. destruct H as [first [Hfirst H]].
  apply bind_Ok in H. destruct H as [self_times [Hst H]].
  apply bind_Ok in H. destruct H as [self_offsets [Hso H]].
  apply bind_Ok in H. destruct H as [self_locations [Hsl H]].
  apply bind_Ok in H. destruct H as [self_thresholds [Hth H]].
  apply bind_Ok in H. destruct H as [self_quantiles [Hqu H]].
  apply bind_Ok in H. destruct H as [self_months [Hmo H]].
  apply bind_Ok in H. destruct H as [self_years [Hye H]].
  inversion H; subst d st; clear H. simpl.
  exists use0, use, first. repeat (split; [first [assumption | reflexivity] |]).
  reflexivity.
Qed.

End Construction.

Lemma organize_inputs_shape (inputs self_inputs : list Input) (clim : option Input)
    (clim_type : string) :
  organize_inputs inputs clim clim_type = Ok self_inputs ->
  self_inputs = inputs ++ match clim with Some c => [c] | None => [] end.
Proof.
  unfold organize_inputs. destruct clim as [c |].
  - destruct (negb _); [discriminate |]. now inversion 1.
  - inversion 1. now rewrite app_nil_r.
Qed.

Lemma Forall2_read_length {A} (g : Input -> list A) (files : list Input)
    (idx : list (list nat)) (values : list A) :
  Forall2 (fun file II => read_at (g file) II = Ok values) files idx ->
  Forall (fun II => length II = length values) idx.
Proof.
  induction 1 as [| file II files idx HII Hrest IH]; constructor.
  - apply mapM_length in HII. congruence.
  - exact IH.
Qed.

Lemma first_values_read {A} (raw : list A) (II : list nat) (idx : list (list nat))
    (values xs : list A) :
  read_at raw II = Ok values -> first_values raw (II :: idx) = Ok xs -> xs = values.
Proof.
  unfold first_values, read_at. cbn [getitem nth_error bind]. congruence.
Qed.

Section Construction.

Variables (inputs : list Input) (times0 : option (list Z)) (offsets0 : option (list Qc))
  (locations0 : option (list Z))
  (lat_range lon_range elev_range : option (float * float))
  (clim : option Input) (clim_type : string)
  (legend : option (list string)) (remove_missing_across_all : bool)
  (obs_field fcst_field : Field) (d : Data) (st : State).

Hypothesis Hinit :
  __init__ inputs times0 offsets0 locations0 lat_range lon_range elev_range
    clim clim_type legend remove_missing_across_all obs_field fcst_field
  = Ok (d, st).

(** The dataset's axes after a successful construction, with no
    assumption on the inputs: they are the common values, in strictly
    ascending order, and every input's index arrays read them back. *)
Lemma init_alignment :
  exists use0 use,
    latlon_filter (_inputs st) locations0 lat_range lon_range = Ok use0
    /\ elev_filter (_inputs st) use0 elev_range = Ok use
    /\ _inputs st <> []
    /\ @ascending _ DimOrd_Z (times d)
    /\ @ascending _ DimOrd_Qc (offsets d)
    /\ @ascending _ DimOrd_Z (get_location_ids d)
    /\ (forall t, In t (times d) <->
          (forall input, In input (_inputs st) -> In t (input_times input))
          /\ (forall a, times0 = Some a -> In t a))
    /\ (forall o, In o (offsets d) <->
          (forall input, In input (_inputs st) -> In o (input_offsets input))
          /\ (forall a, offsets0 = Some a -> In o a))
    /\ (forall l, In l (get_location_ids d) <->
          (forall input, In input (_inputs st) -> In l (map loc_id (input_locations input)))
          /\ In l use)
    /\ Forall2 (fun input II => read_at (input_times input) II = Ok (times d))
               (_inputs st) (_timesI d)
    /\ Forall2 (fun input II => read_at (input_offsets input) II = Ok (offsets d))
               (_inputs st) (_offsetsI d)
    /\ Forall2 (fun input II => read_at (map loc_id (input_locations input)) II
                                = Ok (get_location_ids d))
               (_inputs st) (_locationsI d)
    /\ (forall input, In input (_inputs st) ->
          (forall t, In t (times d) -> once t (input_times input))
          /\ (forall o, In o (offsets d) -> once o (input_offsets input))
          /\ (forall l, In l (get_location_ids d) ->
                once l (map loc_id (input_locations input)))).
Proof.
  pose proof Hinit as Hsteps. apply init_steps in Hsteps.
  destruct Hsteps as [use0 [use [first [_ [_ [_ [Hll [Hel
    [HtI [HoI [HlI [_ [_ [_ [Hfirst [Hst [Hso [Hsl _]]]]]]]]]]]]]]]]]].
  exists use0, use. split; [exact Hll |]. split; [exact Hel |].
  assert (Hne : _inputs st <> []).
  { intros E. rewrite E in Hfirst. discriminate. }
  split; [exact Hne |].
  destruct (@get_common_indices_success _ DimTime times0 _ Hne HtI)
    as [vt [_ [Hat [Hint [Hrt Hot]]]]].
  destruct (@get_common_indices_success _ DimOffset offsets0 _ Hne HoI)
    as [vo [_ [Hao [Hino [Hro Hoo]]]]].
  destruct (@get_common_indices_success _ DimLocation (Some use) _ Hne HlI)
    as [vl [_ [Hal [Hinl [Hrl Hol]]]]].
  cbv beta iota delta [raw_values dim_value dim_ord] in *.
  destruct (_inputs st) as [| first' rest] eqn:Einputs; [congruence |].
  cbn [getitem nth_error] in Hfirst. inversion Hfirst; subst first'; clear Hfirst.
  inversion Hrt as [| ? It ? idxt Hgt Hrt' Et1 Et2]; subst.
  inversion Hro as [| ? Io ? idxo Hgo Hro' Eo1 Eo2]; subst.
  inversion Hrl as [| ? Il ? idxl Hgl Hrl' El1 El2]; subst.
  rewrite <- Et2 in Hst. rewrite <- Eo2 in Hso. rewrite <- El2 in Hsl.
  pose proof (@first_values_read _ _ _ _ _ _ Hgt Hst) as Etimes.
  pose proof (@first_values_read _ _ _ _ _ _ Hgo Hso) as Eoffsets.
  assert (Eids : get_location_ids d = vl).
  { unfold first_values in Hsl. cbn [getitem nth_error bind] in Hsl.
    unfold read_at in Hgl.
    destruct (mapM_getitem_map _ _ _ Hgl) as [xs [Hxs Hmap]].
    unfold get_location_ids. congruence. }
  rewrite Etimes, Eoffsets, Eids.
  split; [exact Hat |]. split; [exact Hao |]. split; [exact Hal |].
  split; [exact Hint |]. split; [exact Hino |]. split.
  { intros l. rewrite Hinl. split.
    - intros [Hall Huse]. split; [exact Hall | now apply Huse].
    - intros [Hall Huse]. split; [exact Hall |]. intros a E. now inversion E; subst. }
  rewrite Et2, Eo2, El2.
  split; [exact Hrt |]. split; [exact Hro |]. split; [exact Hrl |].
  intros input Hinput. split; [| split].
  - intros t Ht. now apply Hot.
  - intros o Ho. now apply Hoo.
  - intros l Hl. now apply Hol.
Qed.

End Construction.

Section Construction.

Variables (inputs : list Input) (times0 : option (list Z)) (offsets0 : option (list Qc))
  (locations0 : option (list Z))
  (lat_range lon_range elev_range : option (float * float))
  (clim : option Input) (clim_type : string)
  (legend : option (list string)) (remove_missing_across_all : bool)
  (obs_field fcst_field : Field) (d : Data) (st : State).

Hypothesis Hinit :
  __init__ inputs times0 offsets0 locations0 lat_range lon_range elev_range
    clim clim_type legend remove_missing_across_all obs_field fcst_field
  = Ok (d, st).

Lemma is_empty_first_false (idx : list (list nat)) :
  is_empty_first idx = Ok false -> exists II rest, idx = II :: rest /\ II <> [].
Proof.
  unfold is_empty_first. destruct idx as [| II rest]; [discriminate |].
  cbn [getitem nth_error bind]. intros E. exists II, rest. split; [reflexivity |].
  destruct II; [discriminate | discriminate].
Qed.

Lemma init_nonempty : times d <> [] /\ offsets d <> [] /\ locations d <> [].
Proof.
  pose proof Hinit as Hsteps. apply init_steps in Hsteps.
  destruct Hsteps as [use0 [use [first [_ [_ [_ [_ [_
    [_ [_ [_ [Het [Heo [Hel [_ [Hst [Hso [Hsl _]]]]]]]]]]]]]]]]]].
  assert (Hgen : forall A (raw : list A) idx xs,
            is_empty_first idx = Ok false -> first_values raw idx = Ok xs -> xs <> []).
  { intros A raw idx xs He Hf. apply is_empty_first_false in He.
    destruct He as [II [rest [-> HII]]].
    unfold first_values in Hf. cbn [getitem nth_error bind] in Hf.
    apply mapM_length in Hf. intros ->. destruct II; [congruence | discriminate]. }
  split; [exact (Hgen _ _ _ _ Het Hst) |].
  split; [exact (Hgen _ _ _ _ Heo Hso) | exact (Hgen _ _ _ _ Hel Hsl)].
Qed.

(** The invariants hold after every successful construction. *)
Lemma init_wf : aligned d /\ cache_wf d st.
Proof.
  pose proof Hinit as Hal. apply init_alignment in Hal.
  destruct Hal as [use0 [use [_ [_ [_ [_ [_ [_ [_ [_ [_ [Hrt [Hro [Hrl _]]]]]]]]]]]]]].
  pose proof Hinit as Hsteps. apply init_steps in Hsteps.
  destruct Hsteps as [_ [_ [_ [_ [_ [Hcache _]]]]]].
  split.
  - unfold aligned. split; [| split].
    + eapply Forall2_read_length, Hrt.
    + eapply Forall2_read_length, Hro.
    + apply Forall2_read_length in Hrl. unfold get_location_ids in Hrl.
      rewrite length_map in Hrl. exact Hrl.
  - split; [rewrite Hcache; apply length_map |].
    intros i field a Hc. exfalso. unfold cached in Hc.
    apply bind_Ok in Hc. destruct Hc as [c [Hc Hget]].
    assert (c = []).
    { apply getitem_In in Hc. rewrite Hcache in Hc.
      apply in_map_iff in Hc. destruct Hc as [x [Hx _]]. now symmetry. }
    subst c. discriminate.
Qed.

(** Every input read at its own index arrays shows the dataset's axes. *)
Lemma init_reads_back (i : nat) (input : Input) :
  nth_error (_inputs st) i = Some input ->
  exists It Io Il,
    _get_indices d "time" (Some i) = Ok It
    /\ _get_indices d "offset" (Some i) = Ok Io
    /\ _get_indices d "location" (Some i) = Ok Il
    /\ read_at (input_times input) It = Ok (times d)
    /\ read_at (input_offsets input) Io = Ok (offsets d)
    /\ read_at (map loc_id (input_locations input)) Il = Ok (get_location_ids d).
Proof.
  intros Hi. pose proof Hinit as Hal. apply init_alignment in Hal.
  destruct Hal as [use0 [use [_ [_ [_ [_ [_ [_ [_ [_ [_ [Hrt [Hro [Hrl _]]]]]]]]]]]]]].
  destruct (@Forall2_nth_error _ _ _ _ _ _ _ Hrt Hi) as [It [HIt Ht]].
  destruct (@Forall2_nth_error _ _ _ _ _ _ _ Hro Hi) as [Io [HIo Ho]].
  destruct (@Forall2_nth_error _ _ _ _ _ _ _ Hrl Hi) as [Il [HIl Hl]].
  exists It, Io, Il. unfold _get_indices. cbn.
  unfold _get_time_indices, _get_offset_indices, _get_location_indices, getitem.
  rewrite HIt, HIo, HIl. tauto.
Qed.

(** X3.  After a successful construction the dataset's times, offsets
    and location ids are non-empty and strictly ascending (so without
    repeats), whatever the order and the repeats in the inputs; a time
    or offset is kept exactly when every input holds it and the
    [times] or [offsets] argument, when given, lists it; and every kept
    location id is held by every input. *)
Theorem axes_are_the_ascending_common_values :
  times d <> [] /\ offsets d <> [] /\ get_location_ids d <> []
  /\ @ascending _ DimOrd_Z (times d)
  /\ @ascending _ DimOrd_Qc (offsets d)
  /\ @ascending _ DimOrd_Z (get_location_ids d)
  /\ (forall t, In t (times d) <->
        (forall input, In input (_inputs st) -> In t (input_times input))
        /\ (forall a, times0 = Some a -> In t a))
  /\ (forall o, In o (offsets d) <->
        (forall input, In input (_inputs st) -> In o (input_offsets input))
        /\ (forall a, offsets0 = Some a -> In o a))
  /\ (forall l input, In l (get_location_ids d) -> In input (_inputs st) ->
        exists loc, In loc (input_locations input) /\ loc_id loc = l).
Proof.
  pose proof Hinit as Hal. apply init_alignment in Hal.
  destruct Hal as [use0 [use [_ [_ [_ [Hat [Hao [Hal' [Hint [Hino [Hinl _]]]]]]]]]]].
  destruct init_nonempty as [Ht [Ho Hl]].
  split; [exact Ht |]. split; [exact Ho |]. split.
  { unfold get_location_ids. destruct (locations d); [congruence | discriminate]. }
  split; [exact Hat |]. split; [exact Hao |]. split; [exact Hal' |].
  split; [exact Hint |]. split; [exact Hino |].
  intros l input Hl' Hinput. apply Hinl in Hl'. destruct Hl' as [Hall _].
  specialize (Hall input Hinput). apply in_map_iff in Hall.
  destruct Hall as [loc [E Hloc]]. eauto.
Qed.

End Construction.

Lemma get_common_indices_returns_or_raises_ValueError_witness :
  exists values,
    @common_values _ (dim_ord DimTime) (map (raw_values DimTime) [input_A; input_dup]) None
      = Ok values
    /\ ((exists indices, _get_common_indices [input_A; input_dup] DimTime None = Ok indices)
        \/ _get_common_indices [input_A; input_dup] DimTime None = Err ValueError)
    /\ ((exists indices, _get_common_indices [input_A; input_dup] DimTime None = Ok indices) <->
        (forall file v, In file [input_A; input_dup] -> In v values ->
                        once v (raw_values DimTime file))).
Proof.
  apply (@get_common_indices_returns_or_raises_ValueError [input_A; input_dup] DimTime None).
  discriminate.
Defined.

Example repeated_common_time_raises_ValueError :
  build [input_A; input_dup] None = Err ValueError.
Proof. vm_compute. reflexivity. Qed.

Example repeated_time_outside_the_common_set_is_harmless :
  match build [input_B; input_dup] None with
  | Ok (d, _) => times d
  | Err _ => []
  end = [200]%Z.
Proof. vm_compute. reflexivity. Qed.

Lemma axes_are_the_ascending_common_values_witness :
  times data_AB <> [] /\ offsets data_AB <> [] /\ get_location_ids data_AB <> []
  /\ @ascending _ DimOrd_Z (times data_AB)
  /\ @ascending _ DimOrd_Qc (offsets data_AB)
  /\ @ascending _ DimOrd_Z (get_location_ids data_AB)
  /\ (forall t, In t (times data_AB) <->
        (forall input, In input (_inputs state_AB) -> In t (input_times input))
        /\ (forall a, @None (list Z) = Some a -> In t a))
  /\ (forall o, In o (offsets data_AB) <->
        (forall input, In input (_inputs state_AB) -> In o (input_offsets input))
        /\ (forall a, @None (list Qc) = Some a -> In o a))
  /\ (forall l input, In l (get_location_ids data_AB) -> In input (_inputs state_AB) ->
        exists loc, In loc (input_locations input) /\ loc_id loc = l).
Proof.
  apply (@axes_are_the_ascending_common_values [input_A; input_B] None None None None None
           None None "subtract"%string None true Obs Fcst data_AB state_AB).
  reflexivity.
Defined.

(** ** What loading a field changes in the inputs *)

Lemma same_axes_refl (a : Input) : same_axes a a.
Proof. unfold same_axes. tauto. Qed.

Lemma same_axes_trans (a b c : Input) : same_axes a b -> same_axes b c -> same_axes a c.
Proof. unfold same_axes. intuition congruence. Qed.

Lemma Forall2_same_axes_refl (l : list Input) : Forall2 same_axes l l.
Proof. induction l; constructor; [apply same_axes_refl | assumption]. Qed.

Lemma Forall2_same_axes_trans (l l' l'' : list Input) :
  Forall2 same_axes l l' -> Forall2 same_axes l' l'' -> Forall2 same_axes l l''.
Proof.
  intros H1. revert l''. induction H1 as [| a b l l' Hab H1 IH]; intros l'' H2;
    inversion H2; subst; constructor.
  - eapply same_axes_trans; eassumption.
  - now apply IH.
Qed.

Lemma set_nth_same_axes (l : list Input) (i : nat) (x x' : Input) :
  nth_error l i = Some x -> same_axes x x' -> Forall2 same_axes l (set_nth i x' l).
Proof.
  revert i. induction l as [| y l IH]; intros [| i] Hi Hx; simpl in *; try discriminate.
  - inversion Hi; subst. constructor; [exact Hx | apply Forall2_same_axes_refl].
  - constructor; [apply same_axes_refl | now apply IH].
Qed.

Lemma select_array_same_axes (field : Field) (input input' : Input) (temp : nd3 float) :
  select_array field input = Ok (temp, input') -> same_axes input input'.
Proof.
  intros Hsel. destruct (is_window field) eqn:Hw.
  - destruct field; try discriminate; simpl in Hsel;
      apply bind_Ok in Hsel; destruct Hsel as [x [_ Hsel]]; inversion Hsel;
      unfold same_axes; simpl; tauto.
  - rewrite (@select_array_keeps_input field input input' temp Hw Hsel).
    apply same_axes_refl.
Qed.

Lemma load_fold_same_axes (d : Data) (f : Field) (l : list nat) (st st' : State) :
  fold_left (load_input d f) l (Ok st) = Ok st' ->
  Forall2 same_axes (_inputs st) (_inputs st').
Proof.
  revert st. induction l as [| i l IH]; intros st Hfold; cbn [fold_left] in Hfold.
  - inversion Hfold. apply Forall2_same_axes_refl.
  - destruct (load_input d f (Ok st) i) as [st1 | e] eqn:Hstep.
    + eapply Forall2_same_axes_trans; [| apply (IH st1 Hfold)].
      unfold load_input in Hstep. cbn [bind] in Hstep.
      destruct (getitem (_cache st) i) as [c |]; [| discriminate]. cbn [bind] in Hstep.
      destruct (dict_get f c); [inversion Hstep; apply Forall2_same_axes_refl |].
      destruct (getitem (_inputs st) i) as [input |] eqn:Hin; [| discriminate].
      cbn [bind] in Hstep. destruct (negb _); [discriminate |].
      destruct (select_array f input) as [[temp input'] |] eqn:Hsel; [| discriminate].
      cbn [bind] in Hstep. destruct (trim d i temp); [| discriminate].
      cbn [bind] in Hstep. inversion Hstep; subst st1. simpl.
      apply set_nth_same_axes with (x := input); [now apply getitem_Ok |].
      eapply select_array_same_axes, Hsel.
    + rewrite fold_left_Err in Hfold; [discriminate |]. reflexivity.
Qed.

Lemma same_axes_names (l l' : list Input) :
  Forall2 same_axes l l' -> map input_name l = map input_name l'.
Proof.
  induction 1 as [| a b l l' Hab _ IH]; simpl; [reflexivity |].
  destruct Hab as [E _]. now rewrite E, IH.
Qed.

Lemma get_score_same_axes (d : Data) (field : Field) (k : nat)
    (st st' : State) (a : nd3 float) :
  _get_score d field k st = Ok (a, st') ->
  Forall2 same_axes (_inputs st) (_inputs st').
Proof.
  intros Hget.
  unfold _get_score in Hget.
  destruct (getitem (_cache st) k) as [c |]; [| discriminate]. cbn [bind] in Hget.
  destruct (dict_get field c); [inversion Hget; apply Forall2_same_axes_refl |].
  destruct (load_all d (alias d field) st) as [st1 |] eqn:Hload; [| discriminate].
  cbn [bind] in Hget. unfold load_all in Hload.
  pose proof (@load_fold_same_axes d (alias d field) _ st st1 Hload) as H1.
  destruct (_remove_missing_across_all d).
  - destruct (remove_missing (alias d field) st1) as [st2 |] eqn:Hrm; [| discriminate].
    cbn [bind] in Hget. destruct (cached st2 k (alias d field)); [| discriminate].
    cbn [bind] in Hget. inversion Hget; subst st2.
    unfold remove_missing in Hrm.
    destruct (is_missing_all st1 (alias d field)) as [m |]; [| discriminate].
    cbn [bind] in Hrm. rewrite (@blank_fold_keeps_inputs _ _ _ st1 st' Hrm). exact H1.
  - cbn [bind] in Hget. destruct (cached st1 k (alias d field)); [| discriminate].
    cbn [bind] in Hget. inversion Hget; subst st1. exact H1.
Qed.

(** X4.  A successful [_get_score] changes nothing of any input but,
    possibly, its [obs] and [fcst] arrays: names, times, offsets,
    locations, thresholds, quantiles, declared fields and the ensemble
    and score arrays stay as they were; and when the field (after the
    Obs/Fcst substitution) is neither ObsWindow nor FcstWindow, the
    inputs are left exactly as they were. *)
Theorem get_score_changes_at_most_obs_and_fcst (d : Data) (field : Field) (k : nat)
    (st st' : State) (a : nd3 float) :
  _get_score d field k st = Ok (a, st') ->
  Forall2 same_axes (_inputs st) (_inputs st')
  /\ (is_window (alias d field) = false -> _inputs st' = _inputs st).
Proof.
  intros Hget. split.
  - eapply get_score_same_axes, Hget.
  - intros Hw. eapply get_score_keeps_inputs; eassumption.
Qed.

Lemma get_score_changes_at_most_obs_and_fcst_witness :
  Forall2 same_axes (_inputs state_AB)
          (_inputs (after_call (_get_score data_AB ObsWindow 0 state_AB)))
  /\ (is_window (alias data_AB ObsWindow) = false ->
      _inputs (after_call (_get_score data_AB ObsWindow 0 state_AB)) = _inputs state_AB).
Proof.
  apply (@get_score_changes_at_most_obs_and_fcst data_AB ObsWindow 0 state_AB
           (after_call (_get_score data_AB ObsWindow 0 state_AB))
           (value_of (array3 []) (_get_score data_AB ObsWindow 0 state_AB))).
  vm_compute. reflexivity.
Defined.

(** ** States reached from the constructed one *)

Lemma reachable_trans (d : Data) (st0 st1 st2 : State) :
  reachable d st0 st1 -> reachable d st1 st2 -> reachable d st0 st2.
Proof.
  intros H1 H2. induction H2 as [| st st' field k a _ IH Hget]; [exact H1 |].
  eapply reach_get_score; eassumption.
Qed.

Lemma reachable_same_axes (d : Data) (st0 st : State) :
  reachable d st0 st -> Forall2 same_axes (_inputs st0) (_inputs st).
Proof.
  induction 1 as [| st st' field k a _ IH Hget]; [apply Forall2_same_axes_refl |].
  eapply Forall2_same_axes_trans; [exact IH |]. eapply get_score_same_axes, Hget.
Qed.

Lemma reachable_wf (d : Data) (st0 st : State) :
  aligned d -> cache_wf d st0 -> reachable d st0 st ->
  cache_wf d st /\ length (_inputs st) = length (_inputs st0).
Proof.
  intros Hal Hwf. induction 1 as [| st st' field k a _ IH Hget]; [tauto |].
  destruct IH as [Hwf1 Hlen1].
  destruct (@get_score_wf d field k st st' a Hal Hwf1 Hget) as [Hwf2 [Hlen2 _]].
  split; [exact Hwf2 | congruence].
Qed.

(** ** Thresholds and quantiles *)

Section SortedFacts.
Context {A : Type} `{DimOrd A}.

Lemma insert_sorted_nondecreasing (x : A) (l : list A) :
  nondecreasing l -> nondecreasing (insert_sorted x l).
Proof.
  unfold nondecreasing. induction l as [| y l IH]; intros Hs; simpl.
  - constructor; constructor.
  - apply StronglySorted_inv in Hs. destruct Hs as [Hl Hy].
    destruct (dleb x y) eqn:Hxy.
    + constructor.
      * constructor; assumption.
      * constructor; [exact Hxy |].
        rewrite Forall_forall in *. intros z Hz.
        apply dleb_trans with y; [exact Hxy | now apply Hy].
    + constructor; [now apply IH |].
      rewrite Forall_forall in *. intros z Hz.
      apply insert_sorted_In in Hz. destruct Hz as [-> | Hz]; [| now apply Hy].
      destruct (dleb_total x y) as [Hc | Hc]; congruence.
Qed.

Lemma np_sort_nondecreasing (l : list A) : nondecreasing (np_sort l).
Proof.
  induction l as [| x l IH]; simpl; [constructor |].
  now apply insert_sorted_nondecreasing.
Qed.

End SortedFacts.

Lemma fold_set_step_Some (raws : list (list Qc)) (a : list Qc) :
  exists w, fold_left set_step raws (Some a) = Some w
            /\ (forall x, In x w <-> In x a /\ forall r, In r raws -> In x r)
            /\ (raws <> [] -> NoDup w).
Proof.
  revert a. induction raws as [| r raws IH]; intros a; simpl.
  - exists a. split; [reflexivity |]. split; [| congruence].
    intros x. split; [| tauto]. intros Hx. split; [exact Hx | tauto].
  - destruct (IH (drop_repeats (filter (contains r) a))) as [w [Hw [Hin Hnd]]].
    exists w. split; [exact Hw |]. split.
    + intros x. rewrite Hin, drop_repeats_In, filter_In, contains_In. split.
      * intros [[Ha Hr] Hall]. split; [exact Ha |].
        intros r' [<- | Hr']; [exact Hr | now apply Hall].
      * intros [Ha Hall]. split; [split; [exact Ha |] |].
        -- apply Hall. now left.
        -- intros r' Hr'. apply Hall. now right.
    + intros _. destruct raws as [| r' raws].
      * simpl in Hw. inversion Hw. apply drop_repeats_NoDup.
      * apply Hnd. discriminate.
Qed.

(** [_get_thresholds] and [_get_quantiles] on any list of value lists:
    no list at all is an error; otherwise the result is sorted, holds
    exactly the values every list holds, and has no repeats once there
    are two lists or more. *)
Lemma sorted_common_spec (raws : list (list Qc)) :
  match raws with
  | [] => sorted_common raws = Err TypeError
  | _ :: rest =>
      exists v, sorted_common raws = Ok v
        /\ @nondecreasing _ DimOrd_Qc v
        /\ (forall x, In x v <-> forall r, In r raws -> In x r)
        /\ (rest <> [] -> @ascending _ DimOrd_Qc v)
  end.
Proof.
  destruct raws as [| r rest]; [reflexivity |].
  unfold sorted_common. cbn [fold_left set_step].
  destruct (fold_set_step_Some rest r) as [w [Hw [Hin Hnd]]].
  rewrite Hw. exists (np_sort w). split; [reflexivity |].
  split; [apply np_sort_nondecreasing |]. split.
  - intros x. rewrite np_sort_In, Hin. split.
    + intros [Hr Hall] r' [<- | Hr']; [exact Hr | now apply Hall].
    + intros Hall. split; [apply Hall; now left |].
      intros r' Hr'. apply Hall. now right.
  - intros Hne. apply np_sort_ascending. now apply Hnd.
Qed.

(** ** Latitude, longitude and elevation ranges *)

Lemma latlon_filter_ids (first : Input) (others : list Input) (locations0 : option (list Z))
    (lat_range lon_range : option (float * float)) (use0 : list Z) :
  lat_range <> None \/ lon_range <> None ->
  latlon_filter (first :: others) locations0 lat_range lon_range = Ok use0 ->
  forall id, In id use0 ->
    exists loc, In loc (input_locations first) /\ loc_id loc = id
      /\ in_range (fst (lat_bounds lat_range)) (snd (lat_bounds lat_range)) (loc_lat loc) = true
      /\ in_range (fst (lon_bounds lon_range)) (snd (lon_bounds lon_range)) (loc_lon loc) = true.
Proof.
  intros Hgiven Hf id Hid.
  assert (Hgen : forall la lo,
    (let '(min_lat, max_lat) := la in
     let '(min_lon, max_lon) := lo in
     let latlon_locations :=
       map loc_id (filter (fun loc =>
          in_range min_lat max_lat (loc_lat loc) && in_range min_lon max_lon (loc_lon loc))
          (input_locations first)) in
     let use_locationss :=
       match locations0 with
       | Some locs => filter (contains latlon_locations) locs
       | None => latlon_locations
       end in
     if Nat.eqb (length use_locationss) 0
     then Err (UtilError "No available locations within lat/lon range")
     else Ok use_locationss) = Ok use0 ->
    exists loc, In loc (input_locations first) /\ loc_id loc = id
      /\ in_range (fst la) (snd la) (loc_lat loc) = true
      /\ in_range (fst lo) (snd lo) (loc_lon loc) = true).
  { intros [a b] [c e] Hu. cbv zeta in Hu. simpl fst. simpl snd.
    destruct (Nat.eqb _ 0); [discriminate |]. inversion Hu; subst use0; clear Hu.
    assert (Hin : In id (map loc_id (filter (fun loc =>
              in_range a b (loc_lat loc) && in_range c e (loc_lon loc))
              (input_locations first)))).
    { destruct locations0 as [locs |]; [| exact Hid].
      apply filter_In in Hid. destruct Hid as [_ Hc]. now apply contains_In in Hc. }
    apply in_map_iff in Hin. destruct Hin as [loc [E Hloc]].
    apply filter_In in Hloc. destruct Hloc as [Hloc Hr].
    apply andb_true_iff in Hr. exists loc. tauto. }
  unfold latlon_filter in Hf.
  destruct lat_range as [la |], lon_range as [lo |]; cbn [getitem nth_error bind] in Hf.
  - now apply (Hgen la lo).
  - now apply (Hgen la (of_int (-180), of_int 180)).
  - now apply (Hgen (of_int (-90), of_int 90) lo).
  - destruct Hgiven; congruence.
Qed.

Lemma util_intersect_In (x : Z) (l1 l2 : list Z) :
  In x (util_intersect l1 l2) <-> In x l1 /\ In x l2.
Proof. unfold util_intersect. now rewrite drop_repeats_In, filter_In, contains_In. Qed.

Lemma elev_filter_subset (inputs : list Input) (use0 use : list Z)
    (elev_range : option (float * float)) :
  elev_filter inputs use0 elev_range = Ok use -> incl use use0.
Proof.
  unfold elev_filter. destruct elev_range as [[lo hi] |].
  - intros Hf. apply bind_Ok in Hf. destruct Hf as [first [_ Hf]].
    apply bind_Ok in Hf. destruct Hf as [el [_ Hf]].
    destruct (Nat.eqb _ 0); [discriminate |]. inversion Hf.
    intros x Hx. now apply util_intersect_In in Hx.
  - inversion 1. apply incl_refl.
Qed.

(** With an elevation range the filter never returns: the loop calls
    the location's attributes, or no location is left. *)
Lemma elev_filter_Some_fails (inputs : list Input) (use0 : list Z) (r : float * float) :
  exists e, elev_filter inputs use0 (Some r) = Err e
            /\ (forall first others, inputs = first :: others ->
                  input_locations first <> [] -> e = TypeError).
Proof.
  destruct inputs as [| first others].
  - exists IndexError. split; [destruct r; reflexivity |]. discriminate.
  - destruct (input_locations first) as [| loc locs] eqn:Hlocs.
    + exists (UtilError "No available locations within elevation range").
      split.
      * unfold elev_filter. destruct r as [lo hi]. cbn [getitem nth_error bind].
        rewrite Hlocs. cbn [fold_left bind].
        assert (E : util_intersect use0 [] = []).
        { unfold util_intersect. induction use0 as [| x use0 IH]; [reflexivity |].
          simpl. exact IH. }
        now rewrite E.
      * intros first' others' E Hne. inversion E; subst. congruence.
    + exists TypeError. split; [| reflexivity].
      apply elev_filter_raises. congruence.
Qed.

(** X5.  Whatever the other arguments, a construction with an
    [elev_range] never returns a dataset: it stops with an exception
    (a [TypeError] from the elevation loop whenever the earlier steps
    pass and the first input has a location). *)
Theorem elevation_range_never_constructs
    (inputs : list Input) (times0 : option (list Z)) (offsets0 : option (list Qc))
    (locations0 : option (list Z)) (lat_range lon_range : option (float * float))
    (r : float * float) (clim : option Input) (clim_type : string)
    (legend : option (list string)) (remove_missing_across_all : bool)
    (obs_field fcst_field : Field) :
  exists e,
    __init__ inputs times0 offsets0 locations0 lat_range lon_range (Some r)
      clim clim_type legend remove_missing_across_all obs_field fcst_field
    = Err e.
Proof.
  unfold __init__.
  destruct (check_legend inputs legend) as [[] | e]; [| eexists; reflexivity]. cbn [bind].
  destruct (organize_inputs inputs clim clim_type) as [self_inputs | e]; [| eexists; reflexivity].
  cbn [bind].
  destruct (latlon_filter self_inputs locations0 lat_range lon_range) as [use0 | e];
    [| eexists; reflexivity].
  cbn [bind].
  destruct (elev_filter_Some_fails self_inputs use0 r) as [e [He _]].
  rewrite He. eexists. reflexivity.
Qed.

(** X6.  An empty list of inputs without a climatology never constructs
    a dataset; and unless the legend check has already failed, the
    failure is not a configuration error but an exception from reading
    the first input or from sorting the missing values. *)
Theorem empty_input_list_never_constructs
    (times0 : option (list Z)) (offsets0 : option (list Qc))
    (locations0 : option (list Z)) (lat_range lon_range elev_range : option (float * float))
    (clim_type : string) (legend : option (list string)) (remove_missing_across_all : bool)
    (obs_field fcst_field : Field) :
  exists e,
    __init__ [] times0 offsets0 locations0 lat_range lon_range elev_range
      None clim_type legend remove_missing_across_all obs_field fcst_field
    = Err e
    /\ (legend = None -> e = IndexError \/ e = AxisError).
Proof.
  unfold __init__.
  destruct (check_legend [] legend) as [[] | e] eqn:Hleg; cbn [bind organize_inputs].
  - assert (Hrest : forall use0 : list Z,
      exists e,
        (use_locationss <- elev_filter [] use0 elev_range ;;
         timesI <- _get_common_indices [] DimTime times0 ;;
         offsetsI <- _get_common_indices [] DimOffset offsets0 ;;
         locationsI <- _get_common_indices [] DimLocation (Some use_locationss) ;;
         no_times <- is_empty_first timesI ;;
         @Err (Data * State) IndexError) = Err e
        /\ (e = IndexError \/ e = AxisError)).
    { intros use0. destruct elev_range as [[lo hi] |]; cbn; [eauto |].
      destruct times0 as [t |]; cbn; [| eauto].
      destruct offsets0 as [o |]; cbn; eauto. }
    destruct lat_range as [la |], lon_range as [lo |], locations0 as [locs |];
      cbn [latlon_filter getitem nth_error bind]; eauto.
    destruct (Hrest locs) as [e [He Hcase]].
    destruct elev_range as [[lo hi] |]; cbn in He |- *; [eauto |].
    destruct times0 as [t |]; cbn in He |- *; [| eauto].
    destruct offsets0 as [o |]; cbn in He |- *; eauto.
  - exists e. split; [reflexivity |]. intros ->. discriminate.
Qed.

(** ** The constructed dataset *)

Section Construction.

Variables (inputs : list Input) (times0 : option (list Z)) (offsets0 : option (list Qc))
  (locations0 : option (list Z))
  (lat_range lon_range elev_range : option (float * float))
  (clim : option Input) (clim_type : string)
  (legend : option (list string)) (remove_missing_across_all : bool)
  (obs_field fcst_field : Field) (d : Data) (st : State).

Hypothesis Hinit :
  __init__ inputs times0 offsets0 locations0 lat_range lon_range elev_range
    clim clim_type legend remove_missing_across_all obs_field fcst_field
  = Ok (d, st).

Lemma init_inputs :
  _inputs st = inputs ++ match clim with Some c => [c] | None => [] end
  /\ num_inputs d = length inputs
  /\ _clim d = match clim with Some _ => true | None => false end
  /\ _legend d = legend
  /\ check_legend inputs legend = Ok tt.
Proof.
  pose proof Hinit as Hsteps. apply init_steps in Hsteps.
  destruct Hsteps as [use0 [use [first Hsteps]]].
  assert (Hleg : check_legend inputs legend = Ok tt) by tauto.
  assert (Horg : organize_inputs inputs clim clim_type = Ok (_inputs st)) by tauto.
  assert (Hlg : _legend d = legend) by tauto.
  assert (Hc : _clim d = match clim with Some _ => true | None => false end) by tauto.
  assert (Hn : num_inputs d
               = length (_inputs st) - match clim with Some _ => 1 | None => 0 end)
    by tauto.
  clear Hsteps. apply organize_inputs_shape in Horg.
  split; [exact Horg |]. split; [| tauto].
  rewrite Hn, Horg, length_app. destruct clim; simpl; lia.
Qed.

(** X7.  After a successful construction [num_inputs] is the number of
    inputs passed in, with or without a climatology; the climatology,
    when given, is the input after them, at index [num_inputs]; and
    [get_scores] refuses every [input_index] from [num_inputs] on with
    a configuration error, in any state, so the climatology cannot be
    asked for as an input. *)
Theorem climatology_is_not_an_input_to_score (b : bool) (fields : list Field)
    (input_index : nat) (axis : Axis) (axis_index : nat) (st' : State) :
  num_inputs d = length inputs
  /\ _get_num_inputs d st = length inputs
  /\ _get_num_inputs_with_clim st
     = length inputs + match clim with Some _ => 1 | None => 0 end
  /\ (forall c, clim = Some c -> nth_error (_inputs st) (num_inputs d) = Some c)
  /\ (num_inputs d <= input_index ->
      exists msg, get_scores b d fields input_index axis axis_index st'
                  = Err (UtilError msg)).
Proof.
  destruct init_inputs as [Hin [Hn [Hc _]]].
  split; [exact Hn |]. split; [| split; [| split]].
  - unfold _get_num_inputs. rewrite Hin, Hc, length_app. destruct clim; simpl; lia.
  - unfold _get_num_inputs_with_clim. rewrite Hin, length_app. destruct clim; simpl; lia.
  - intros c ->. rewrite Hin, Hn, nth_error_app2 by lia.
    now rewrite Nat.sub_diag.
  - intros Hge. unfold get_scores, get_scores_unmasked.
    destruct (Nat.ltb_spec input_index (num_inputs d)) as [Hlt | _]; [lia |].
    cbn. eauto.
Qed.

(** X8.  After a successful construction, and in every state reached
    later, [get_legend] returns the legend when one was given, which
    then has one entry for each input passed in; without a legend it
    returns the names of the inputs followed by the name of the
    climatology, one entry more than [num_inputs] when there is a
    climatology. *)
Theorem legend_lists_the_inputs (st' : State) :
  reachable d st st' ->
  get_legend d st'
  = match legend with
    | Some lg => lg
    | None => map input_name inputs
              ++ match clim with Some c => [input_name c] | None => [] end
    end
  /\ (forall lg, legend = Some lg -> length lg = num_inputs d)
  /\ (legend = None ->
      length (get_legend d st') = num_inputs d + if _clim d then 1 else 0).
Proof.
  intros Hreach. destruct init_inputs as [Hin [Hn [Hc [Hlg Hleg]]]].
  pose proof (same_axes_names (reachable_same_axes Hreach)) as Hnames.
  assert (Hget : get_names st' = map input_name inputs
                 ++ match clim with Some c => [input_name c] | None => [] end).
  { unfold get_names. rewrite <- Hnames, Hin, map_app. now destruct clim. }
  split; [| split].
  - unfold get_legend. rewrite Hlg. destruct legend; [reflexivity | exact Hget].
  - intros lg ->. unfold check_legend, int_is in Hleg.
    destruct (Nat.eqb_spec (length inputs) (length lg)) as [E | E];
      [congruence | discriminate].
  - intros ->. unfold get_legend. rewrite Hlg, Hget, length_app, length_map, Hn, Hc.
    now destruct clim.
Qed.

(** X9.  After a successful construction the dataset's thresholds are
    sorted and are exactly the values that every input, the
    climatology included, lists among its thresholds; with two inputs
    or more they hold no repeats.  The same holds of the quantiles. *)
Theorem thresholds_and_quantiles_are_the_sorted_common_values :
  _get_thresholds st = Ok (thresholds d)
  /\ _get_quantiles st = Ok (quantiles d)
  /\ @nondecreasing _ DimOrd_Qc (thresholds d)
  /\ @nondecreasing _ DimOrd_Qc (quantiles d)
  /\ (forall x, In x (thresholds d) <->
        forall input, In input (_inputs st) -> In x (input_thresholds input))
  /\ (forall x, In x (quantiles d) <->
        forall input, In input (_inputs st) -> In x (input_quantiles input))
  /\ (2 <= length (_inputs st) ->
      @ascending _ DimOrd_Qc (thresholds d) /\ @ascending _ DimOrd_Qc (quantiles d)).
Proof.
  pose proof Hinit as Hsteps. apply init_steps in Hsteps.
  destruct Hsteps as [use0 [use [first Hsteps]]].
  assert (Hfirst : getitem (_inputs st) 0 = Ok first) by tauto.
  assert (Hth : sorted_common (map input_thresholds (_inputs st)) = Ok (thresholds d))
    by tauto.
  assert (Hqu : sorted_common (map input_quantiles (_inputs st)) = Ok (quantiles d))
    by tauto.
  clear Hsteps.
  assert (Hgen : forall (g : Input -> list Qc) v,
            sorted_common (map g (_inputs st)) = Ok v ->
            @nondecreasing _ DimOrd_Qc v
            /\ (forall x, In x v <-> forall input, In input (_inputs st) -> In x (g input))
            /\ (2 <= length (_inputs st) -> @ascending _ DimOrd_Qc v)).
  { intros g v Hv. pose proof (sorted_common_spec (map g (_inputs st))) as Hspec.
    destruct (_inputs st) as [| i0 rest] eqn:E; [discriminate |].
    cbn [map] in Hspec, Hv. destruct Hspec as [v' [Hv' [Hs [Hin Hasc]]]].
    rewrite Hv in Hv'. inversion Hv'; subst v'. split; [exact Hs |]. split.
    - intros x. rewrite Hin. split.
      + intros Hall input Hinput. apply Hall. change (g i0 :: map g rest)
          with (map g (i0 :: rest)). now apply in_map.
      + intros Hall r Hr. change (g i0 :: map g rest) with (map g (i0 :: rest)) in Hr.
        apply in_map_iff in Hr. destruct Hr as [input [<- Hinput]]. now apply Hall.
    - intros Hlen. apply Hasc. destruct rest; [simpl in Hlen; lia | discriminate]. }
  destruct (Hgen input_thresholds _ Hth) as [Hs1 [Hin1 Ha1]].
  destruct (Hgen input_quantiles _ Hqu) as [Hs2 [Hin2 Ha2]].
  split; [exact Hth |]. split; [exact Hqu |]. tauto.
Qed.

(** X10.  After a successful construction with a latitude or a
    longitude range, every location of the dataset lies inside both
    ranges (a range not given counts as the whole globe, -90..90 and
    -180..180): [get_lats] and [get_lons] hold only values inside. *)
Theorem kept_locations_are_inside_the_ranges :
  lat_range <> None \/ lon_range <> None ->
  Forall (fun x => in_range (fst (lat_bounds lat_range)) (snd (lat_bounds lat_range)) x = true)
         (get_lats d)
  /\ Forall (fun x => in_range (fst (lon_bounds lon_range)) (snd (lon_bounds lon_range)) x = true)
            (get_lons d).
Proof.
  intros Hgiven.
  pose proof Hinit as Hal. apply init_alignment in Hal.
  destruct Hal as [use0 [use [Hll [Hel [_ [_ [_ [_ [_ [_ [Hinl [_ [_ [_ Honce]]]]]]]]]]]]]].
  pose proof Hinit as Hsteps. apply init_steps in Hsteps.
  destruct Hsteps as [use0' [use' [first Hsteps]]].
  assert (Hfirst : getitem (_inputs st) 0 = Ok first) by tauto.
  assert (Hsl : first_values (input_locations first) (_locationsI d) = Ok (locations d))
    by tauto.
  clear Hsteps use0' use'.
  destruct (_inputs st) as [| first' rest] eqn:Einputs; [discriminate |].
  cbn [getitem nth_error] in Hfirst. inversion Hfirst; subst first'; clear Hfirst.
  assert (Hloc : forall loc, In loc (locations d) ->
            in_range (fst (lat_bounds lat_range)) (snd (lat_bounds lat_range)) (loc_lat loc) = true
            /\ in_range (fst (lon_bounds lon_range)) (snd (lon_bounds lon_range)) (loc_lon loc) = true).
  { intros loc Hloc.
    assert (Hid : In (loc_id loc) (get_location_ids d)) by now apply in_map.
    (* the location is one of the first input's *)
    unfold first_values in Hsl. apply bind_Ok in Hsl. destruct Hsl as [Il [_ Hsl]].
    destruct (@mapM_In _ _ _ _ _ loc Hsl Hloc) as [j [_ Hj]].
    apply getitem_Ok in Hj.
    (* its id passed the filter, so some location with that id is inside *)
    destruct (proj1 (Hinl (loc_id loc)) Hid) as [_ Huse].
    apply (elev_filter_subset _ _ _ Hel) in Huse.
    destruct (@latlon_filter_ids first rest locations0 lat_range lon_range use0
                Hgiven Hll (loc_id loc) Huse) as [loc' [Hloc' [Eid Hin]]].
    (* and the first input holds that id once *)
    destruct (Honce first (or_introl eq_refl)) as [_ [_ Ho]].
    specialize (Ho (loc_id loc) Hid).
    apply In_nth_error in Hloc'. destruct Hloc' as [j' Hj'].
    assert (j' = j).
    { apply Ho; rewrite nth_error_map; [rewrite Hj' | rewrite Hj]; simpl; congruence. }
    subst j'. assert (loc' = loc) by congruence. subst loc'. exact Hin. }
  unfold get_lats, get_lons. split; apply Forall_forall; intros x Hx;
    apply in_map_iff in Hx; destruct Hx as [loc [<- Hl]]; now apply Hloc.
Qed.

End Construction.

Lemma climatology_is_not_an_input_to_score_witness :
  num_inputs data_AB_clim = length [input_A; input_B]
  /\ _get_num_inputs data_AB_clim state_AB_clim = length [input_A; input_B]
  /\ _get_num_inputs_with_clim state_AB_clim
     = length [input_A; input_B] + match Some input_clim with Some _ => 1 | None => 0 end
  /\ (forall c, Some input_clim = Some c ->
        nth_error (_inputs state_AB_clim) (num_inputs data_AB_clim) = Some c)
  /\ (num_inputs data_AB_clim <= 2 ->
      exists msg, get_scores true data_AB_clim [Fcst] 2 AxisTime 0 state_AB_clim
                  = Err (UtilError msg)).
Proof.
  apply (@climatology_is_not_an_input_to_score [input_A; input_B] None None None None None
           None (Some input_clim) "subtract"%string None true Obs Fcst
           data_AB_clim state_AB_clim).
  reflexivity.
Defined.

Lemma legend_lists_the_inputs_witness :
  get_legend data_AB_clim state_AB_clim
  = match @None (list string) with
    | Some lg => lg
    | None => map input_name [input_A; input_B]
              ++ match Some input_clim with Some c => [input_name c] | None => [] end
    end
  /\ (forall lg : list string, None = Some lg -> length lg = num_inputs data_AB_clim)
  /\ (@None (list string) = None ->
      length (get_legend data_AB_clim state_AB_clim)
      = num_inputs data_AB_clim + if _clim data_AB_clim then 1 else 0).
Proof.
  apply (@legend_lists_the_inputs [input_A; input_B] None None None None None
           None (Some input_clim) "subtract"%string None true Obs Fcst
           data_AB_clim state_AB_clim).
  - reflexivity.
  - apply reach_start.
Defined.

Example legend_with_climatology :
  get_legend data_AB_clim state_AB_clim = ["A"; "B"; "clim"]%string
  /\ num_inputs data_AB_clim = 2.
Proof. split; vm_compute; reflexivity. Qed.

Lemma thresholds_and_quantiles_are_the_sorted_common_values_witness :
  _get_thresholds state_AB_clim = Ok (thresholds data_AB_clim)
  /\ _get_quantiles state_AB_clim = Ok (quantiles data_AB_clim)
  /\ @nondecreasing _ DimOrd_Qc (thresholds data_AB_clim)
  /\ @nondecreasing _ DimOrd_Qc (quantiles data_AB_clim)
  /\ (forall x, In x (thresholds data_AB_clim) <->
        forall input, In input (_inputs state_AB_clim) -> In x (input_thresholds input))
  /\ (forall x, In x (quantiles data_AB_clim) <->
        forall input, In input (_inputs state_AB_clim) -> In x (input_quantiles input))
  /\ (2 <= length (_inputs state_AB_clim) ->
      @ascending _ DimOrd_Qc (thresholds data_AB_clim)
      /\ @ascending _ DimOrd_Qc (quantiles data_AB_clim)).
Proof.
  apply (@thresholds_and_quantiles_are_the_sorted_common_values [input_A; input_B]
           None None None None None None (Some input_clim) "subtract"%string None true
           Obs Fcst data_AB_clim state_AB_clim).
  reflexivity.
Defined.

Lemma kept_locations_are_inside_the_ranges_witness :
  Forall (fun x => in_range (fst (lat_bounds north)) (snd (lat_bounds north)) x = true)
         (get_lats data_north)
  /\ Forall (fun x => in_range (fst (lon_bounds None)) (snd (lon_bounds None)) x = true)
            (get_lons data_north).
Proof.
  apply (@kept_locations_are_inside_the_ranges [input_A; input_B] None None None north None
           None None "subtract"%string None true Obs Fcst data_north state_north).
  - reflexivity.
  - left. discriminate.
Defined.

Example north_keeps_one_location :
  get_location_ids data_north = [2%Z] /\ get_lats data_north = [of_int 70].
Proof. split; vm_compute; reflexivity. Qed.

(** ** The cache after a load *)

Lemma cached_hit (d : Data) (field : Field) (k : nat) (st : State) (a : nd3 float) :
  cached st k field = Ok a -> _get_score d field k st = Ok (a, st).
Proof.
  unfold cached, _get_score. destruct (getitem (_cache st) k) as [c |]; [| discriminate].
  cbn [bind]. unfold dict_getitem. destruct (dict_get field c); [| discriminate].
  now inversion 1.
Qed.

Lemma blank_fold_keeps_cached (f : Field) (m : nd3 bool) (l : list nat) (st st' : State) :
  fold_left (blank_step f m) l (Ok st) = Ok st' ->
  forall j, (exists a, cached st j f = Ok a) -> exists a', cached st' j f = Ok a'.
Proof.
  revert st. induction l as [| i l IH]; intros st Hfold j Hj; cbn [fold_left] in Hfold.
  - inversion Hfold; now subst.
  - destruct (blank_step f m (Ok st) i) as [st1 | e] eqn:Hstep.
    + apply (IH st1 Hfold). unfold blank_step in Hstep. cbn [bind] in Hstep.
      destruct (getitem (_cache st) i) as [c |] eqn:Hc; [| discriminate].
      cbn [bind] in Hstep.
      destruct (dict_getitem f c) as [a |]; [| discriminate]. cbn [bind] in Hstep.
      destruct (set_nan_where a m) as [a' |]; [| discriminate]. cbn [bind] in Hstep.
      inversion Hstep; subst st1.
      destruct (Nat.eq_dec j i) as [-> | Hne].
      * exists a'. apply cached_store_same. eapply getitem_lt, Hc.
      * rewrite (@cached_store_other st (_inputs st) i j f f a' c Hc (or_introl Hne)).
        exact Hj.
    + rewrite fold_left_Err in Hfold; [discriminate |]. reflexivity.
Qed.

(** X11.  A [_get_score] that misses the cache and returns has loaded
    the field for every input: afterwards the same request is answered
    from the cache with the same array, and a request for the field
    (under the name it is stored by) for any input is answered from the
    cache, the state left as it is. *)
Theorem one_miss_loads_every_input (d : Data) (field : Field) (k : nat)
    (st st' : State) (a : nd3 float) (c : list (Field * nd3 float)) (j : nat) :
  getitem (_cache st) k = Ok c -> dict_get field c = None ->
  _get_score d field k st = Ok (a, st') ->
  j < length (_inputs st) ->
  _get_score d (alias d field) k st' = Ok (a, st')
  /\ exists b, _get_score d (alias d field) j st' = Ok (b, st').
Proof.
  intros Hc Hmiss Hget Hj. unfold _get_score in Hget. rewrite Hc in Hget.
  cbn [bind] in Hget. rewrite Hmiss in Hget.
  destruct (load_all d (alias d field) st) as [st1 |] eqn:Hload; [| discriminate].
  cbn [bind] in Hget. unfold load_all in Hload.
  destruct (load_prefix _ _ _ _ Hload) as [_ [Hlen [Hex _]]].
  assert (Hall : exists b, cached st' j (alias d field) = Ok b
                 /\ cached st' k (alias d field) = Ok a).
  { destruct (_remove_missing_across_all d).
    - destruct (remove_missing (alias d field) st1) as [st2 |] eqn:Hrm; [| discriminate].
      cbn [bind] in Hget.
      destruct (cached st2 k (alias d field)) as [a2 |] eqn:Hk; [| discriminate].
      cbn [bind] in Hget. inversion Hget; subst a2 st2.
      unfold remove_missing in Hrm.
      destruct (is_missing_all st1 (alias d field)) as [m |]; [| discriminate].
      cbn [bind] in Hrm.
      destruct (@blank_fold_keeps_cached _ _ _ st1 st' Hrm j (Hex j Hj)) as [b Hb].
      eauto.
    - cbn [bind] in Hget.
      destruct (cached st1 k (alias d field)) as [a1 |] eqn:Hk; [| discriminate].
      cbn [bind] in Hget. inversion Hget; subst a1 st1.
      destruct (Hex j Hj) as [b Hb]. eauto. }
  destruct Hall as [b [Hb Hk]]. split.
  - now apply cached_hit.
  - exists b. now apply cached_hit.
Qed.

Lemma one_miss_loads_every_input_witness :
  _get_score data_AB (alias data_AB Obs) 0 state_AB_after_obs
  = Ok (value_of (array3 []) obs_call, state_AB_after_obs)
  /\ exists b, _get_score data_AB (alias data_AB Obs) 1 state_AB_after_obs
               = Ok (b, state_AB_after_obs).
Proof.
  apply (@one_miss_loads_every_input data_AB Obs 0 state_AB state_AB_after_obs
           (value_of (array3 []) obs_call) [] 1).
  - reflexivity.
  - reflexivity.
  - vm_compute. reflexivity.
  - vm_compute. lia.
Defined.

(** ** A field that an input does not declare *)

Lemma load_fold_frame (d : Data) (f : Field) (st : State) (m : nat) (st_m : State) :
  fold_left (load_input d f) (seq 0 m) (Ok st) = Ok st_m ->
  forall j, m <= j ->
    nth_error (_cache st_m) j = nth_error (_cache st) j
    /\ nth_error (_inputs st_m) j = nth_error (_inputs st) j.
Proof.
  revert st_m. induction m as [| m IH]; intros st_m Hfold j Hj.
  - simpl in Hfold. inversion Hfold; now subst.
  - rewrite seq_S, fold_left_app in Hfold. cbn [fold_left Nat.add] in Hfold.
    destruct (fold_left (load_input d f) (seq 0 m) (Ok st)) as [st0 | e] eqn:Hpre;
      [| discriminate].
    destruct (IH st0 eq_refl j) as [Hc0 Hi0]; [lia |].
    rewrite <- Hc0, <- Hi0. clear Hc0 Hi0 IH Hpre.
    unfold load_input in Hfold. cbn [bind] in Hfold.
    destruct (getitem (_cache st0) m) as [c |]; [| discriminate]. cbn [bind] in Hfold.
    destruct (dict_get f c); [inversion Hfold; now subst |].
    destruct (getitem (_inputs st0) m) as [input |]; [| discriminate].
    cbn [bind] in Hfold. destruct (negb _); [discriminate |].
    destruct (select_array f input) as [[temp input'] |]; [| discriminate].
    cbn [bind] in Hfold. destruct (trim d m temp); [| discriminate].
    cbn [bind] in Hfold. inversion Hfold; subst st_m. simpl.
    rewrite !nth_error_set_nth_other by lia. tauto.
Qed.

(** X12.  When the requested field is not in the cache of the input
    asked for, and some input that has not loaded it does not declare
    it either (window fields count as declared by every input),
    [_get_score] does not return, whichever input was asked for; when
    that input is the first one, the exception is the configuration
    error that names it. *)
Theorem undeclared_field_fails_for_every_input (d : Data) (field : Field) (k i : nat)
    (st : State) (input : Input) (c_k c_i : list (Field * nd3 float)) :
  getitem (_cache st) k = Ok c_k -> dict_get field c_k = None ->
  nth_error (_inputs st) i = Some input ->
  nth_error (_cache st) i = Some c_i -> dict_get (alias d field) c_i = None ->
  existsb (field_eqb (alias d field)) (input_variables input ++ [ObsWindow; FcstWindow])
  = false ->
  exists e, _get_score d field k st = Err e
            /\ (i = 0 -> e = UtilError (input_name input ++ " does not contain '"
                                        ++ field_name (alias d field) ++ "'")).
Proof.
  intros Hk Hmiss Hin Hci Hnone Hundeclared.
  unfold _get_score. rewrite Hk. cbn [bind]. rewrite Hmiss.
  assert (Hi : i < length (_inputs st)) by (apply nth_error_Some; congruence).
  assert (Hstep : forall st_i,
            nth_error (_cache st_i) i = Some c_i ->
            nth_error (_inputs st_i) i = Some input ->
            load_input d (alias d field) (Ok st_i) i
            = Err (UtilError (input_name input ++ " does not contain '"
                              ++ field_name (alias d field) ++ "'"))).
  { intros st_i Hc Hinp. unfold load_input, getitem. cbn [bind].
    rewrite Hc. cbn [bind]. rewrite Hnone, Hinp. cbn [bind].
    now rewrite Hundeclared. }
  assert (Hload : exists e, load_all d (alias d field) st = Err e
            /\ (i = 0 -> e = UtilError (input_name input ++ " does not contain '"
                                        ++ field_name (alias d field) ++ "'"))).
  { unfold load_all.
    replace (length (_inputs st)) with (i + S (length (_inputs st) - S i)) by lia.
    rewrite seq_app, fold_left_app. cbn [seq fold_left Nat.add].
    destruct (fold_left (load_input d (alias d field)) (seq 0 i) (Ok st))
      as [st_i | e] eqn:Hpre.
    - destruct (@load_fold_frame _ _ _ _ _ Hpre i (le_n i)) as [Hc' Hi'].
      rewrite Hstep by congruence.
      rewrite fold_left_Err by reflexivity. eauto.
    - assert (Hcase : load_input d (alias d field) (Err e) i = Err e) by reflexivity.
      rewrite Hcase, fold_left_Err by reflexivity.
      exists e. split; [reflexivity |]. intros ->. discriminate. }
  destruct Hload as [e [He Hcase]]. rewrite He. cbn [bind]. eauto.
Qed.

Lemma undeclared_field_fails_for_every_input_witness :
  exists e, _get_score data_AB_clim (Threshold (Q2Qc 1)) 0 state_AB_clim = Err e
            /\ (2 = 0 -> e = UtilError (input_name input_clim ++ " does not contain '"
                                        ++ field_name (alias data_AB_clim (Threshold (Q2Qc 1)))
                                        ++ "'")).
Proof.
  apply (@undeclared_field_fails_for_every_input data_AB_clim (Threshold (Q2Qc 1)) 0 2
           state_AB_clim input_clim [] []).
  - reflexivity.
  - reflexivity.
  - reflexivity.
  - reflexivity.
  - reflexivity.
  - reflexivity.
Defined.

Example ensemble_member_is_not_declared :
  _get_score data_AB (Ensemble 0) 1 state_AB
  = Err (UtilError "A does not contain 'ensemble'").
Proof. vm_compute. reflexivity. Qed.

(** ** The states [get_scores] leaves *)

Lemma score_fold_reachable (d : Data) (doClim : bool) (clim : option (ndarray float))
    (i : nat) (axis : Axis) (idx : nat) (fields : list Field) :
  forall scores valid st scores' valid' st',
    fold_left (score_field d doClim clim i axis idx) fields (Ok (scores, valid, st))
    = Ok (scores', valid', st') ->
    reachable d st st'.
Proof.
  induction fields as [| f fields IH]; intros scores valid st scores' valid' st' Hfold;
    cbn [fold_left] in Hfold.
  - inversion Hfold. apply reach_start.
  - destruct (score_field d doClim clim i axis idx (Ok (scores, valid, st)) f)
      as [[[s1 v1] st1] | e] eqn:Hstep.
    + apply reachable_trans with st1; [| eapply IH, Hfold].
      unfold score_field in Hstep. cbn [bind] in Hstep.
      destruct (_get_score d f i st) as [[temp st2] |] eqn:Hget; [| discriminate].
      cbn [bind] in Hstep.
      apply bind_Ok in Hstep. destruct Hstep as [sl [_ Hstep]].
      apply bind_Ok in Hstep. destruct Hstep as [curr [_ Hstep]].
      apply bind_Ok in Hstep. destruct Hstep as [[curr' key] [_ Hstep]].
      apply bind_Ok in Hstep. destruct Hstep as [valid1 [_ Hstep]].
      inversion Hstep; subst st1.
      eapply reach_get_score; [apply reach_start | exact Hget].
    + rewrite fold_left_Err in Hfold; [discriminate |]. reflexivity.
Qed.

(** On an aggregating axis [get_scores] changes the state through
    [_get_score] only. *)
Lemma get_scores_reachable (b : bool) (d : Data) (fields : list Field) (i : nat)
    (axis : Axis) (idx : nat) (st st' : State) (r : list (ndarray float)) :
  is_not_All b axis = true ->
  get_scores b d fields i axis idx st = Ok (r, st') ->
  reachable d st st'.
Proof.
  intros Hagg Hget. unfold get_scores in Hget.
  apply bind_Ok in Hget. destruct Hget as [[[scores valid] st1] [Hun Hfin]].
  assert (Hst : st' = st1).
  { unfold finish_scores in Hfin. rewrite Hagg in Hfin.
    apply bind_Ok in Hfin. destruct Hfin as [valid1 [_ Hfin]].
    apply bind_Ok in Hfin. destruct Hfin as [[scores1 st2] [Hsel Hfin]].
    apply bind_Ok in Hsel. destruct Hsel as [scores2 [_ Hsel]].
    inversion Hsel; subst scores2 st2.
    apply bind_Ok in Hfin. destruct Hfin as [first [_ Hfin]].
    destruct (Nat.eqb _ 0); now inversion Hfin. }
  subst st'. unfold get_scores_unmasked in Hun.
  destruct (negb _); [discriminate |].
  apply bind_Ok in Hun. destruct Hun as [[clim st0] [Hclim Hfold]].
  apply reachable_trans with st0; [| eapply score_fold_reachable, Hfold].
  destruct (_clim d && _); [| inversion Hclim; apply reach_start].
  apply bind_Ok in Hclim. destruct Hclim as [[temp st2] [Hget Hclim]].
  apply bind_Ok in Hclim. destruct Hclim as [cl [_ Hclim]].
  inversion Hclim; subst st0.
  eapply reach_get_score; [apply reach_start | exact Hget].
Qed.

Section Construction.

Variables (inputs : list Input) (times0 : option (list Z)) (offsets0 : option (list Qc))
  (locations0 : option (list Z))
  (lat_range lon_range elev_range : option (float * float))
  (clim : option Input) (clim_type : string)
  (legend : option (list string)) (remove_missing_across_all : bool)
  (obs_field fcst_field : Field) (d : Data) (st : State).

Hypothesis Hinit :
  __init__ inputs times0 offsets0 locations0 lat_range lon_range elev_range
    clim clim_type legend remove_missing_across_all obs_field fcst_field
  = Ok (d, st).

(** X13.  "Scores loaded will have the same dimension, regardless what
    input_index is used": after a successful construction and any
    number of successful [_get_score] calls, every array [_get_score]
    returns, for any field and any input, holds one item for each
    time, offset and location of the dataset; when the field is not
    stored as a threshold or a quantile score (whose arrays keep a
    fourth axis), the array has the shape (number of times, number of
    offsets, number of locations); there is still one cache for each
    input; and the state a [get_scores] call on an aggregating axis
    leaves is again such a state. *)
Theorem score_arrays_have_the_size_of_the_axes (st1 : State) :
  reachable d st st1 ->
  (forall field k a st2,
      _get_score d field k st1 = Ok (a, st2) ->
      length (flatten a) = length (times d) * (length (offsets d) * length (locations d))
      /\ (keeps_fourth_axis (cache_key d field k st1) = false ->
          shape a = (length (times d), length (offsets d), length (locations d)))
      /\ length (_cache st2) = length (_inputs st2)
      /\ length (_inputs st2) = length (_inputs st))
  /\ (forall b fields k axis idx r st2,
        is_not_All b axis = true ->
        get_scores b d fields k axis idx st1 = Ok (r, st2) ->
        reachable d st st2).
Proof.
  intros Hreach. pose proof Hinit as Hw. apply init_wf in Hw. destruct Hw as [Hal Hwf].
  destruct (@reachable_wf d st st1 Hal Hwf Hreach) as [Hwf1 Hlen1]. split.
  - intros field k a st2 Hget.
    destruct (@get_score_wf d field k st1 st2 a Hal Hwf1 Hget) as [[Hc2 _] [Hlen2 Hs]].
    split.
    { rewrite length_flatten. unfold dimT, dimO, dimL. rewrite Hs. reflexivity. }
    split; [intros _; exact Hs |]. split; [exact Hc2 | congruence].
  - intros b fields k axis idx r st2 Hagg Hget.
    eapply reachable_trans; [exact Hreach |]. eapply get_scores_reachable; eassumption.
Qed.

End Construction.

Lemma score_arrays_have_the_size_of_the_axes_witness :
  (forall field k a st2,
      _get_score data_AB field k state_AB_after_obs = Ok (a, st2) ->
      length (flatten a)
      = length (times data_AB) * (length (offsets data_AB) * length (locations data_AB))
      /\ (keeps_fourth_axis (cache_key data_AB field k state_AB_after_obs) = false ->
          shape a
          = (length (times data_AB), length (offsets data_AB), length (locations data_AB)))
      /\ length (_cache st2) = length (_inputs st2)
      /\ length (_inputs st2) = length (_inputs state_AB))
  /\ (forall b fields k axis idx r st2,
        is_not_All b axis = true ->
        get_scores b data_AB fields k axis idx state_AB_after_obs = Ok (r, st2) ->
        reachable data_AB state_AB st2).
Proof.
  apply (@score_arrays_have_the_size_of_the_axes [input_A; input_B] None None None None
           None None None "subtract"%string None true Obs Fcst data_AB state_AB
           eq_refl state_AB_after_obs).
  apply (@reach_get_score data_AB state_AB state_AB state_AB_after_obs Obs 0
             (value_of (array3 []) obs_call)).
  - apply reach_start.
  - vm_compute. reflexivity.
Defined.

Example fcst_of_B_after_obs_of_A :
  shape (value_of (array3 []) (_get_score data_AB Fcst 1 state_AB_after_obs)) = (2, 2, 2).
Proof. vm_compute. reflexivity. Qed.

(** ** The values of the window transform *)

Lemma nondecreasing_nth (l : list Qc) (i j : nat) :
  @nondecreasing _ DimOrd_Qc l -> i <= j -> j < length l ->
  (nth i l 0%Qc <= nth j l 0%Qc)%Qc.
Proof.
  unfold nondecreasing. intros Hs. revert i j.
  induction Hs as [| x l Hs IH Hx]; intros i j Hij Hj; simpl in Hj; [lia |].
  destruct i as [| i], j as [| j]; simpl; try lia.
  - apply Qcle_refl.
  - rewrite Forall_forall in Hx. apply Qc_leb_le. apply (Hx (nth j l 0%Qc)).
    apply nth_In. lia.
  - apply IH; lia.
Qed.

Lemma window_index_ge (a : nd3 float) (O t o l : nat) :
  o < O -> o <= window_index a O t o l.
Proof.
  intros Ho. unfold window_index.
  destruct (Nat.leb_spec O (count_below a O t o l + o)); lia.
Qed.

Lemma window_index_last (a : nd3 float) (O t l : nat) :
  0 < O -> window_index a O t (O - 1) l = O - 1.
Proof.
  intros HO. unfold window_index, count_below.
  replace (O - (O - 1)) with 1 by lia. cbn [seq filter].
  destruct (fle _ half); cbn [length];
    destruct (Nat.leb_spec O (1 + (O - 1))); destruct (Nat.leb_spec O (0 + (O - 1)));
    lia.
Qed.



(** ** Tick locators *)

Lemma fold_max_spec (l : list Qc) (x : Qc) :
  let m := fold_left (fun m y => if Qc_ltb m y then y else m) l x in
  In m (x :: l) /\ forall y, In y (x :: l) -> (y <= m)%Qc.
Proof.
  revert x. induction l as [| z l IH]; intros x; cbn [fold_left].
  - split; [now left |]. intros y [<- | []]. apply Qcle_refl.
  - destruct (IH (if Qc_ltb x z then z else x)) as [Hin Hle]. split.
    + destruct Hin as [E | Hin]; [| right; now right].
      rewrite <- E. destruct (Qc_ltb x z); [right; now left | now left].
    + intros y Hy.
      assert (Hstep : (x <= (if Qc_ltb x z then z else x))%Qc
                      /\ (z <= (if Qc_ltb x z then z else x))%Qc).
      { destruct (Qc_ltb x z) eqn:E.
        - apply Qc_ltb_lt in E. split; [now apply Qclt_le_weak | apply Qcle_refl].
        - split; [apply Qcle_refl |]. apply Qcnot_lt_le. intros Hlt.
          apply Qc_ltb_lt in Hlt. congruence. }
      destruct Hy as [<- | [<- | Hy]].
      * eapply Qcle_trans; [apply Hstep | apply Hle; now left].
      * eapply Qcle_trans; [apply Hstep | apply Hle; now left].
      * apply Hle. now right.
Qed.

Lemma fold_min_spec (l : list Qc) (x : Qc) :
  let m := fold_left (fun m y => if Qc_ltb y m then y else m) l x in
  In m (x :: l) /\ forall y, In y (x :: l) -> (m <= y)%Qc.
Proof.
  revert x. induction l as [| z l IH]; intros x; cbn [fold_left].
  - split; [now left |]. intros y [<- | []]. apply Qcle_refl.
  - destruct (IH (if Qc_ltb z x then z else x)) as [Hin Hle]. split.
    + destruct Hin as [E | Hin]; [| right; now right].
      rewrite <- E. destruct (Qc_ltb z x); [right; now left | now left].
    + intros y Hy.
      assert (Hstep : ((if Qc_ltb z x then z else x) <= x)%Qc
                      /\ ((if Qc_ltb z x then z else x) <= z)%Qc).
      { destruct (Qc_ltb z x) eqn:E.
        - apply Qc_ltb_lt in E. split; [now apply Qclt_le_weak | apply Qcle_refl].
        - split; [apply Qcle_refl |]. apply Qcnot_lt_le. intros Hlt.
          apply Qc_ltb_lt in Hlt. congruence. }
      destruct Hy as [<- | [<- | Hy]].
      * eapply Qcle_trans; [apply Hle; now left | apply Hstep].
      * eapply Qcle_trans; [apply Hle; now left | apply Hstep].
      * apply Hle. now right.
Qed.

Lemma Qc_ltb_false_le (x y : Qc) : Qc_ltb x y = false -> (y <= x)%Qc.
Proof.
  intros E. apply Qcnot_lt_le. intros Hlt. apply Qc_ltb_lt in Hlt. congruence.
Qed.



Example locator_of_A_B :
  get_axis_locator plain_dates data_AB AxisOffset = Ok (MultipleLocator 1).
Proof. vm_compute. reflexivity. Qed.

(** ** Axis sizes and the slices of [get_scores] *)



(** ** Months and years *)

Section Calendar.
Local Open Scope Z_scope.

(** The two calendar conversions are inverse to each other on every
    day number, and the day of the month starts at 1. *)
Lemma civil_round_trip (z : Z) :
  let '(y, m, d) := civil_from_days z in
  days_from_civil y m d = z /\ 1 <= d /\ 1 <= m <= 12.
Proof.
  unfold civil_from_days.
  set (z1 := z + 719468).
  set (era := z1 / 146097).
  set (doe := z1 - era * 146097).
  set (yoe := (doe - doe / 1460 + doe / 36524 - doe / 146096) / 365).
  set (doy := doe - (365 * yoe + yoe / 4 - yoe / 100)).
  set (mp := (5 * doy + 2) / 153).
  assert (Hdoe : 0 <= doe <= 146096).
  { unfold doe, era. Z.div_mod_to_equations. lia. }
  assert (Hyoe : 0 <= yoe <= 399).
  { unfold yoe. clearbody doe. clear - Hdoe. Z.div_mod_to_equations. lia. }
  assert (Hdoy : 0 <= doy <= 365).
  { unfold doy, yoe. clearbody doe. clear - Hdoe. Z.div_mod_to_equations. lia. }
  assert (Hmp : 0 <= mp <= 11).
  { unfold mp. clearbody doy. clear - Hdoy. Z.div_mod_to_equations. lia. }
  assert (Hd : 1 <= doy - (153 * mp + 2) / 5 + 1).
  { unfold mp. clearbody doy. clear - Hdoy. Z.div_mod_to_equations. lia. }
  assert (Hera : (yoe + era * 400) / 400 = era).
  { clearbody yoe era. clear - Hyoe. Z.div_mod_to_equations. lia. }
  cbv zeta.
  fold z1. fold era. fold doe. fold yoe. fold doy. fold mp.
  split; [| split; [exact Hd |]].
  - unfold days_from_civil.
    destruct (Z.ltb_spec mp 10) as [Hlt | Hge].
    + replace (mp + 3 <=? 2) with false by (symmetry; apply Z.leb_gt; lia).
      replace (2 <? mp + 3) with true by (symmetry; apply Z.ltb_lt; lia).
      rewrite Hera.
      replace (mp + 3 - 3) with mp by lia.
      replace (yoe + era * 400 - era * 400) with yoe by lia.
      unfold doy, doe, z1. lia.
    + replace (mp - 9 <=? 2) with true by (symmetry; apply Z.leb_le; lia).
      replace (2 <? mp - 9) with false by (symmetry; apply Z.ltb_ge; lia).
      replace (yoe + era * 400 + 1 - 1) with (yoe + era * 400) by lia.
      rewrite Hera.
      replace (mp - 9 + 9) with mp by lia.
      replace (yoe + era * 400 - era * 400) with yoe by lia.
      unfold doy, doe, z1. lia.
  - destruct (Z.ltb_spec mp 10); lia.
Qed.

Lemma days_from_civil_first (y m d : Z) :
  1 <= d -> days_from_civil y m 1 <= days_from_civil y m d.
Proof. intros Hd. unfold days_from_civil. cbv zeta. lia. Qed.

Lemma days_from_civil_year_start (y m d : Z) :
  1 <= m <= 12 -> 1 <= d -> days_from_civil y 1 1 <= days_from_civil y m d.
Proof.
  intros Hm Hd. unfold days_from_civil. cbv zeta.
  cbn [Z.leb Z.ltb Z.compare Pos.compare Pos.compare_cont].
  destruct (Z.leb_spec m 2) as [Hle | Hgt].
  - replace (2 <? m) with false by (symmetry; apply Z.ltb_ge; lia).
    Z.div_mod_to_equations. lia.
  - replace (2 <? m) with true by (symmetry; apply Z.ltb_lt; lia).
    Z.div_mod_to_equations. lia.
Qed.

(** The first of the month and the first of the year of a time, taken
    at the same time of day, are not after the time itself. *)
Lemma month_start_before (t : Z) (dt : datetime) :
  utcfromtimestamp t = Ok dt ->
  timegm (replace_day1 dt) <= t /\ timegm (replace_day1_month1 dt) <= t.
Proof.
  unfold utcfromtimestamp. pose proof (civil_round_trip (t / 86400)) as Hrt.
  destruct (civil_from_days (t / 86400)) as [[y m] d].
  destruct Hrt as [Hrt [Hd Hm]].
  destruct ((1 <=? y) && (y <=? 9999))%bool; [| discriminate].
  intros E. inversion E; subst dt; clear E. unfold timegm. simpl.
  pose proof (@days_from_civil_first y m d Hd).
  pose proof (@days_from_civil_year_start y m d Hm Hd).
  lia.
Qed.

Lemma ascending_Z_nth (l : list Z) (i j : nat) :
  @ascending _ DimOrd_Z l -> (i <= j)%nat -> (j < length l)%nat ->
  nth i l 0 <= nth j l 0.
Proof.
  unfold ascending. intros Hs. revert i j.
  induction Hs as [| x l Hs IH Hx]; intros i j Hij Hj; simpl in Hj; [lia |].
  destruct i as [| i], j as [| j]; simpl; try lia.
  - rewrite Forall_forall in Hx. destruct (Hx (nth j l 0)) as [Hle _].
    + apply nth_In. lia.
    + simpl in Hle. now apply Z.leb_le.
  - apply IH; lia.
Qed.

(** Membership in a bucket of [get_scores]. *)
Lemma bucket_In (d : Data) (edges : list Z) (k p : nat) (I : list nat) :
  bucket d edges k = Ok I ->
  (In p I <->
   exists t, nth_error (times d) p = Some t
     /\ nth k edges 0 <= t
     /\ (S k = length edges \/ t < nth (S k) edges 0))
  /\ (k < length edges)%nat.
Proof.
  unfold bucket. intros Hb.
  assert (Hmask : forall g : Z -> bool,
            In p (np_where (map g (times d))) <->
            exists t, nth_error (times d) p = Some t /\ g t = true).
  { intros g. rewrite np_where_In, nth_error_map.
    destruct (nth_error (times d) p) as [t |]; simpl.
    - split; [intros E; inversion E; eauto | intros [t' [E Hg]]; congruence].
    - split; [discriminate | intros [t' [E _]]; discriminate]. }
  destruct (Nat.eqb_spec (S k) (length edges)) as [Elast | Hnot].
  - apply bind_Ok in Hb. destruct Hb as [lo [Hlo Hb]]. inversion Hb; subst I.
    pose proof (getitem_lt _ _ Hlo) as Hk. split; [| exact Hk].
    apply getitem_Ok in Hlo. rewrite (nth_error_nth _ _ 0 Hlo).
    rewrite Hmask. split.
    + intros [t [Ht Hg]]. exists t. apply Z.leb_le in Hg. tauto.
    + intros [t [Ht [Hg _]]]. exists t. split; [exact Ht | now apply Z.leb_le].
  - apply bind_Ok in Hb. destruct Hb as [lo [Hlo Hb]].
    apply bind_Ok in Hb. destruct Hb as [hi [Hhi Hb]]. inversion Hb; subst I.
    pose proof (getitem_lt _ _ Hlo) as Hk. split; [| exact Hk].
    apply getitem_Ok in Hlo. apply getitem_Ok in Hhi.
    rewrite Nat.add_1_r in Hhi.
    rewrite (nth_error_nth _ _ 0 Hlo), (nth_error_nth _ _ 0 Hhi).
    rewrite Hmask. split.
    + intros [t [Ht Hg]]. exists t. apply andb_true_iff in Hg.
      destruct Hg as [Hg1 Hg2]. apply Z.leb_le in Hg1. apply Z.ltb_lt in Hg2. tauto.
    + intros [t [Ht [Hg [E | Hg2]]]]; [congruence |]. exists t. split; [exact Ht |].
      apply andb_true_iff. split; [now apply Z.leb_le | now apply Z.ltb_lt].
Qed.

Lemma bucket_total (d : Data) (edges : list Z) (k : nat) :
  (k < length edges)%nat -> exists I, bucket d edges k = Ok I.
Proof.
  intros Hk. unfold bucket.
  destruct (@getitem_total _ edges k Hk) as [lo Hlo].
  destruct (Nat.eqb_spec (S k) (length edges)) as [Elast | Hnot].
  - rewrite Hlo. cbn [bind]. eauto.
  - destruct (@getitem_total _ edges (k + 1)) as [hi Hhi]; [lia |].
    rewrite Hlo, Hhi. cbn [bind]. eauto.
Qed.

(** The last edge that is not after [t], searched upwards from [k0]. *)
Lemma last_edge_before (edges : list Z) (t : Z) (n k0 : nat) :
  (length edges - k0 <= n)%nat -> (k0 < length edges)%nat -> nth k0 edges 0 <= t ->
  exists K, (k0 <= K)%nat /\ (K < length edges)%nat /\ nth K edges 0 <= t
            /\ (S K = length edges \/ t < nth (S K) edges 0).
Proof.
  revert k0. induction n as [| n IH]; intros k0 Hn Hk Hle; [lia |].
  destruct (Nat.eq_dec (S k0) (length edges)) as [E | Hne].
  - exists k0. split; [lia |]. split; [exact Hk |]. split; [exact Hle |]. now left.
  - destruct (Z.le_gt_cases (nth (S k0) edges 0) t) as [Hnext | Hnext].
    + destruct (IH (S k0)) as [K [HK1 [HK2 [HK3 HK4]]]]; try lia.
      exists K. split; [lia |]. split; [exact HK2 |]. split; [exact HK3 | exact HK4].
    + exists k0. split; [lia |]. split; [exact Hk |]. split; [exact Hle |]. right. lia.
Qed.

(** Edges in ascending order, one of them not after each time: every
    position of [times] is in exactly one bucket. *)
Lemma buckets_partition (d : Data) (edges : list Z) (p : nat) (t : Z) :
  @ascending _ DimOrd_Z edges ->
  (exists e, In e edges /\ e <= t) ->
  nth_error (times d) p = Some t ->
  exists k I, bucket d edges k = Ok I /\ In p I
              /\ forall k' I', bucket d edges k' = Ok I' -> In p I' -> k' = k.
Proof.
  intros Hasc [e [He Het]] Hp.
  apply In_nth_error in He. destruct He as [k0 Hk0].
  assert (Hk0lt : (k0 < length edges)%nat) by (apply nth_error_Some; congruence).
  destruct (@last_edge_before edges t (length edges) k0) as [K [_ [HK [HKle HKnext]]]];
    [lia | exact Hk0lt | now rewrite (nth_error_nth _ _ 0 Hk0) |].
  destruct (@bucket_total d edges K HK) as [I HI].
  exists K, I. split; [exact HI |]. split.
  - apply (proj1 (@bucket_In d edges K p I HI)). exists t. tauto.
  - intros k' I' HI' Hin'.
    destruct (@bucket_In d edges k' p I' HI') as [Hiff Hk'].
    apply Hiff in Hin'. destruct Hin' as [t' [Ht' [Hle' Hnext']]].
    assert (t' = t) by congruence. subst t'.
    destruct (Nat.lt_trichotomy k' K) as [Hlt | [E | Hgt]]; [| exact E |].
    + exfalso. destruct Hnext' as [E | Hnext']; [lia |].
      pose proof (@ascending_Z_nth edges (S k') K Hasc ltac:(lia) HK). lia.
    + exfalso. destruct HKnext as [E | HKnext]; [lia |].
      pose proof (@ascending_Z_nth edges (S K) k' Hasc ltac:(lia) Hk'). lia.
Qed.

(** What [_get_months] and [_get_years] return: ascending edges, one
    of them not after each time. *)
Lemma month_edges (times0 months0 : list Z) (g : datetime -> datetime) :
  (forall t dt, utcfromtimestamp t = Ok dt -> timegm (g dt) <= t) ->
  (dts <- mapM utcfromtimestamp times0 ;;
   Ok (np_unique (map (fun dt => timegm (g dt)) dts))) = Ok months0 ->
  @ascending _ DimOrd_Z months0
  /\ forall t, In t times0 -> exists e, In e months0 /\ e <= t.
Proof.
  intros Hg Hm. apply bind_Ok in Hm. destruct Hm as [dts [Hdts Hm]].
  inversion Hm; subst months0. split; [apply np_unique_ascending |].
  intros t Ht. apply In_nth_error in Ht. destruct Ht as [p Hp].
  destruct (mapM_nth_error _ _ _ Hdts Hp) as [dt [Hdt Hconv]].
  exists (timegm (g dt)). split; [| now apply Hg].
  apply np_unique_In. apply in_map_iff. exists dt. split; [reflexivity |].
  eapply nth_error_In, Hdt.
Qed.

End Calendar.

Section Construction.

Variables (inputs : list Input) (times0 : option (list Z)) (offsets0 : option (list Qc))
  (locations0 : option (list Z))
  (lat_range lon_range elev_range : option (float * float))
  (clim : option Input) (clim_type : string)
  (legend : option (list string)) (remove_missing_across_all : bool)
  (obs_field fcst_field : Field) (d : Data) (st : State).

Hypothesis Hinit :
  __init__ inputs times0 offsets0 locations0 lat_range lon_range elev_range
    clim clim_type legend remove_missing_across_all obs_field fcst_field
  = Ok (d, st).


End Construction.


(** ** The values of a loaded array *)

Lemma trim_items (d : Data) (i : nat) (temp a : nd3 float) :
  trim d i temp = Ok a ->
  exists It Io Il,
    getitem (_timesI d) i = Ok It /\ getitem (_offsetsI d) i = Ok Io
    /\ getitem (_locationsI d) i = Ok Il
    /\ forall t o l, item a t o l = item temp (nth t It 0) (nth o Io 0) (nth l Il 0).
Proof.
  unfold trim. intros Ht.
  apply bind_Ok in Ht. destruct Ht as [It [HIt Ht]].
  apply bind_Ok in Ht. destruct Ht as [Io [HIo Ht]].
  apply bind_Ok in Ht. destruct Ht as [Il [HIl Ht]].
  apply bind_Ok in Ht. destruct Ht as [a1 [Ha1 Ht]].
  apply bind_Ok in Ht. destruct Ht as [a2 [Ha2 Ha3]].
  exists It, Io, Il. repeat (split; [assumption |]).
  unfold take_times in Ha1. destruct (index_ok _ It); [| discriminate].
  inversion Ha1; subst a1; clear Ha1.
  unfold take_offsets in Ha2. destruct (index_ok _ Io); [| discriminate].
  inversion Ha2; subst a2; clear Ha2.
  unfold take_locations in Ha3. destruct (index_ok _ Il); [| discriminate].
  inversion Ha3; subst a; clear Ha3. reflexivity.
Qed.

Lemma load_input_content (d : Data) (f : Field) (st st' : State) (i : nat)
    (c : list (Field * nd3 float)) :
  load_input d f (Ok st) i = Ok st' ->
  nth_error (_cache st) i = Some c -> dict_get f c = None ->
  exists input temp input' a,
    nth_error (_inputs st) i = Some input
    /\ select_array f input = Ok (temp, input')
    /\ trim d i temp = Ok a
    /\ cached st' i f = Ok a.
Proof.
  unfold load_input, getitem. cbn [bind]. intros Hl Hc Hnone.
  rewrite Hc in Hl. cbn [bind] in Hl. rewrite Hnone in Hl.
  destruct (nth_error (_inputs st) i) as [input |] eqn:Hin; [| discriminate].
  cbn [bind] in Hl. destruct (negb _); [discriminate |].
  destruct (select_array f input) as [[temp input'] |] eqn:Hsel; [| discriminate].
  cbn [bind] in Hl. destruct (trim d i temp) as [a |] eqn:Htrim; [| discriminate].
  cbn [bind] in Hl. inversion Hl; subst st'.
  exists input, temp, input', a. repeat (split; [reflexivity || assumption |]).
  apply cached_store_same. apply nth_error_Some. congruence.
Qed.

(** Loading into caches that do not hold the field yet: every input's
    array is the array its own, unchanged, data selects, read at the
    input's index arrays. *)
Lemma load_fold_content (d : Data) (f : Field) (st : State) (m : nat) (st_m : State) :
  (forall j c, nth_error (_cache st) j = Some c -> dict_get f c = None) ->
  length (_cache st) = length (_inputs st) ->
  fold_left (load_input d f) (seq 0 m) (Ok st) = Ok st_m ->
  forall j, j < m ->
    exists input temp input' a,
      nth_error (_inputs st) j = Some input
      /\ select_array f input = Ok (temp, input')
      /\ trim d j temp = Ok a
      /\ cached st_m j f = Ok a.
Proof.
  intros Hfresh Hlen. revert st_m. induction m as [| m IH]; intros st_m Hfold j Hj; [lia |].
  rewrite seq_S, fold_left_app in Hfold. cbn [fold_left Nat.add] in Hfold.
  destruct (fold_left (load_input d f) (seq 0 m) (Ok st)) as [st0 | e] eqn:Hpre;
    [| discriminate].
  destruct (@load_input_spec d f st0 st_m m Hfold) as [_ [_ [_ [Hfr _]]]].
  destruct (Nat.eq_dec j m) as [-> | Hne].
  - destruct (@load_fold_frame d f st m st0 Hpre m (le_n m)) as [Hc Hi].
    destruct (nth_error (_cache st0) m) as [c |] eqn:Hcm.
    + destruct (@load_input_content d f st0 st_m m c Hfold Hcm)
        as [input [temp [input' [a [Hin [Hsel [Htrim Hca]]]]]]].
      { apply (Hfresh m). congruence. }
      exists input, temp, input', a. rewrite <- Hi. tauto.
    + exfalso. unfold load_input, getitem in Hfold. cbn [bind] in Hfold.
      rewrite Hcm in Hfold. discriminate.
  - destruct (IH st0 eq_refl j) as [input [temp [input' [a [Hin [Hsel [Htrim Hca]]]]]]];
      [lia |].
    exists input, temp, input', a. rewrite Hfr by now left. tauto.
Qed.

(** What a first [_get_score] returns, item by item. *)
Lemma get_score_content (d : Data) (field : Field) (k : nat) (st st' : State)
    (a : nd3 float) (input : Input) :
  aligned d -> cache_wf d st ->
  (forall j c, nth_error (_cache st) j = Some c ->
               dict_get field c = None /\ dict_get (alias d field) c = None) ->
  _get_score d field k st = Ok (a, st') ->
  nth_error (_inputs st) k = Some input ->
  exists src input' It Io Il,
    select_array (alias d field) input = Ok (src, input')
    /\ getitem (_timesI d) k = Ok It /\ getitem (_offsetsI d) k = Ok Io
    /\ getitem (_locationsI d) k = Ok Il
    /\ forall t o l, inside (canonical_shape d) t o l ->
         item a t o l = item src (nth t It 0) (nth o Io 0) (nth l Il 0)
         \/ (_remove_missing_across_all d = true /\ item a t o l = NaN).
Proof.
  intros Hal Hwf Hfresh Hget Hin. pose proof Hwf as [Hcl _].
  assert (Hk : k < length (_inputs st)) by (apply nth_error_Some; congruence).
  unfold _get_score in Hget.
  destruct (getitem (_cache st) k) as [c |] eqn:Hc; [| discriminate]. cbn [bind] in Hget.
  apply getitem_Ok in Hc. rewrite (proj1 (Hfresh k c Hc)) in Hget.
  destruct (load_all d (alias d field) st) as [st1 |] eqn:Hload; [| discriminate].
  cbn [bind] in Hget.
  destruct (@load_fold_content d (alias d field) st (length (_inputs st)) st1
              (fun j c' Hc' => proj2 (Hfresh j c' Hc')) Hcl Hload k Hk)
    as [input0 [src [input' [ak [Hin0 [Hsel [Htrim Hck]]]]]]].
  assert (input0 = input) by congruence. subst input0.
  destruct (trim_items _ _ _ Htrim) as [It [Io [Il [HIt [HIo [HIl Hitems]]]]]].
  exists src, input', It, Io, Il.
  repeat (split; [assumption |]).
  destruct (_remove_missing_across_all d) eqn:Hflag.
  - destruct (remove_missing (alias d field) st1) as [st2 |] eqn:Hrm; [| discriminate].
    cbn [bind] in Hget.
    destruct (cached st2 k (alias d field)) as [a2 |] eqn:Hk2; [| discriminate].
    cbn [bind] in Hget. inversion Hget; subst a2 st2; clear Hget.
    destruct (@loaded_arrays d (alias d field) st st1 Hal Hwf Hload)
      as [Hwf1 [Hlen1 [_ [before [Hbefore Hshape]]]]].
    pose proof Hwf1 as [Hcl1 _].
    destruct (@remove_missing_spec st1 (alias d field) before _ Hbefore Hshape Hcl1
                ltac:(lia)) as [st2 [Hrm2 [_ [_ [_ Hdone]]]]].
    rewrite Hrm in Hrm2. inversion Hrm2; subst st2; clear Hrm2.
    destruct (@mapM_range_nth _ _ _ _ k Hbefore ltac:(lia)) as [bk [Hbk Hcbk]].
    assert (bk = ak) by congruence. subst bk.
    destruct (Hdone k ak Hbk) as [x [Hx [_ Hix]]].
    assert (x = a) by congruence. subst x.
    intros t o l Hpos. rewrite (Hix t o l Hpos).
    destruct (existsb _ before); [right; split; reflexivity | left; apply Hitems].
  - cbn [bind] in Hget.
    destruct (cached st1 k (alias d field)) as [a1 |] eqn:Hk1; [| discriminate].
    cbn [bind] in Hget. inversion Hget; subst a1 st1; clear Hget.
    assert (ak = a) by congruence. subst ak.
    intros t o l _. left. apply Hitems.
Qed.

Lemma read_at_nth {A} (raw : list A) (II : list nat) (values : list A) (t : nat) :
  read_at raw II = Ok values -> t < length values ->
  nth_error raw (nth t II 0) = nth_error values t.
Proof.
  intros Hr Ht. pose proof (mapM_length _ _ Hr) as Hlen.
  assert (Hnth : nth_error II t = Some (nth t II 0)).
  { apply nth_error_nth'. lia. }
  now destruct (@mapM_getitem_nth _ raw II values t _ Hr Hnth).
Qed.

Section Construction.

Variables (inputs : list Input) (times0 : option (list Z)) (offsets0 : option (list Qc))
  (locations0 : option (list Z))
  (lat_range lon_range elev_range : option (float * float))
  (clim : option Input) (clim_type : string)
  (legend : option (list string)) (remove_missing_across_all : bool)
  (obs_field fcst_field : Field) (d : Data) (st : State).

Hypothesis Hinit :
  __init__ inputs times0 offsets0 locations0 lat_range lon_range elev_range
    clim clim_type legend remove_missing_across_all obs_field fcst_field
  = Ok (d, st).


End Construction.


(** ** The index arrays in every later state *)

Lemma Forall2_nth_error_right {A B} (R : A -> B -> Prop) (l : list A) (l' : list B)
    (i : nat) (b : B) :
  Forall2 R l l' -> nth_error l' i = Some b ->
  exists a, nth_error l i = Some a /\ R a b.
Proof.
  intros Hf. revert i. induction Hf as [| x y l l' Hxy Hf IH]; intros i Hi.
  - destruct i; discriminate.
  - destruct i as [| i]; simpl in *.
    + inversion Hi; subst. eauto.
    + now apply IH.
Qed.

Section Construction.

Variables (inputs : list Input) (times0 : option (list Z)) (offsets0 : option (list Qc))
  (locations0 : option (list Z))
  (lat_range lon_range elev_range : option (float * float))
  (clim : option Input) (clim_type : string)
  (legend : option (list string)) (remove_missing_across_all : bool)
  (obs_field fcst_field : Field) (d : Data) (st : State).

Hypothesis Hinit :
  __init__ inputs times0 offsets0 locations0 lat_range lon_range elev_range
    clim clim_type legend remove_missing_across_all obs_field fcst_field
  = Ok (d, st).

(** X2.  After a successful construction, and in every state reached
    by later [_get_score] calls, every input (the climatology
    included) read at its own index arrays shows the dataset's axes:
    the items of its times, offsets and location ids at the positions
    [_get_indices] returns for it are the dataset's times, offsets and
    location ids, in their order. *)
Theorem every_input_reads_back_the_axes (st1 : State) (i : nat) (input : Input) :
  reachable d st st1 ->
  nth_error (_inputs st1) i = Some input ->
  exists It Io Il,
    _get_indices d "time" (Some i) = Ok It
    /\ _get_indices d "offset" (Some i) = Ok Io
    /\ _get_indices d "location" (Some i) = Ok Il
    /\ read_at (input_times input) It = Ok (times d)
    /\ read_at (input_offsets input) Io = Ok (offsets d)
    /\ read_at (map loc_id (input_locations input)) Il = Ok (get_location_ids d).
Proof.
  intros Hreach Hi.
  pose proof (@reachable_same_axes d st st1 Hreach) as Hsame.
  destruct (@Forall2_nth_error_right _ _ _ _ _ _ _ Hsame Hi) as [input0 [Hi0 Hax]].
  pose proof Hinit as Hrb. apply init_reads_back with (i := i) (input := input0) in Hrb;
    [| exact Hi0].
  destruct Hax as [_ [Et [Eo [El _]]]]. rewrite <- Et, <- Eo, <- El. exact Hrb.
Qed.

End Construction.

Lemma every_input_reads_back_the_axes_witness :
  exists It Io Il,
    _get_indices data_AB "time" (Some 1) = Ok It
    /\ _get_indices data_AB "offset" (Some 1) = Ok Io
    /\ _get_indices data_AB "location" (Some 1) = Ok Il
    /\ read_at (input_times input_B) It = Ok (times data_AB)
    /\ read_at (input_offsets input_B) Io = Ok (offsets data_AB)
    /\ read_at (map loc_id (input_locations input_B)) Il = Ok (get_location_ids data_AB).
Proof.
  apply (@every_input_reads_back_the_axes [input_A; input_B] None None None None None None
           None "subtract"%string None true Obs Fcst data_AB state_AB eq_refl
           state_AB_after_obs 1 input_B).
  - apply (@reach_get_score data_AB state_AB state_AB state_AB_after_obs Obs 0
             (value_of (array3 []) obs_call)).
    + apply reach_start.
    + vm_compute. reflexivity.
  - reflexivity.
Defined.
